(** * The application-attempt engine of the auto-apply worker

    A shallow embedding of [playwrightApply.ts] (class
    [PlaywrightJobApplicator]), of the ledger helpers of the Supabase client
    ([hasAppliedToJob], [logApplication]) and of the signal handlers of
    [autoApplyWorker.ts], with the properties of the design document that
    concern them.

    Text is modelled as [string], read as a sequence of characters of
    U+0000..U+00FF: the character with code [n] is U+00nn, so that a text
    stands for the JavaScript string with those code units. The JavaScript
    string primitives the code uses are written out for that alphabet, with
    the case mapping and the white space ECMAScript gives its characters:
    the capital letters are A..Z, U+00C0..U+00D6 and U+00D8..U+00DE, and
    the white space is TAB, LF, VT, FF, CR, SP and NBSP (U+00A0). A
    character beyond U+007E is written by its code: [String "201" "COLE"]
    is the capital E with acute accent (U+00C9) followed by COLE. *)

From Stdlib Require Import List String Ascii Bool Arith PeanoNat NArith Lia Permutation.
Import ListNotations.

Local Open Scope list_scope.
Local Open Scope string_scope.

(* ===================================================================== *)
(** ** JavaScript string primitives *)
(* ===================================================================== *)

Module JS.

(** [c] is a capital letter: one of [A]..[Z], of U+00C0..U+00D6 or of
    U+00D8..U+00DE (U+00D7 is the multiplication sign). *)
Definition is_upper (c : ascii) : bool :=
  let n := nat_of_ascii c in
  (((65 <=? n) && (n <=? 90)) ||
   (((192 <=? n) && (n <=? 222)) && negb (n =? 215)))%nat.

(** The small letter of a capital letter is 32 places on; every other
    character of the alphabet is left as it is. *)
Definition lower_char (c : ascii) : ascii :=
  if is_upper c then ascii_of_nat (nat_of_ascii c + 32) else c.

(** [String.prototype.toLowerCase]. *)
Fixpoint toLowerCase (s : string) : string :=
  match s with
  | EmptyString => EmptyString
  | String c r => String (lower_char c) (toLowerCase r)
  end.

(** [s.includes(sub)]: [sub] occurs in [s] at some position. *)
Fixpoint includes (s sub : string) : bool :=
  if String.prefix sub s then true
  else match s with
       | EmptyString => false
       | String _ r => includes r sub
       end.

(** [s.split(sep)] for a one-character separator; the empty string splits
    into one empty piece. *)
Fixpoint split (sep : ascii) (s : string) : list string :=
  match s with
  | EmptyString => [EmptyString]
  | String c r =>
      if Ascii.eqb c sep then EmptyString :: split sep r
      else match split sep r with
           | [] => [String c EmptyString]
           | h :: t => String c h :: t
           end
  end.

(** White space, as [trim] removes it and [\s] matches it: space, TAB, LF,
    VT, FF, CR and the no-break space U+00A0. *)
Definition is_space (c : ascii) : bool :=
  let n := nat_of_ascii c in
  ((n =? 32) || ((9 <=? n) && (n <=? 13)) || (n =? 160))%nat.

Fixpoint trimStart (s : string) : string :=
  match s with
  | EmptyString => EmptyString
  | String c r => if is_space c then trimStart r else s
  end.

Fixpoint trimEnd (s : string) : string :=
  match s with
  | EmptyString => EmptyString
  | String c r =>
      match trimEnd r with
      | EmptyString => if is_space c then EmptyString else String c EmptyString
      | r' => String c r'
      end
  end.

(** [String.prototype.trim]. *)
Definition trim (s : string) : string := trimEnd (trimStart s).

(** Truthiness of a possibly missing string: [undefined], [null] and the
    empty string are falsy. *)
Definition truthy (o : option string) : bool :=
  match o with
  | Some s => negb (s =? EmptyString)
  | None => false
  end.

(** A value interpolated in a template literal: a missing one prints as
    [undefined]. *)
Definition render (o : option string) : string :=
  match o with
  | Some s => s
  | None => "undefined"
  end.

(** Characters [encodeURIComponent] leaves alone:
    [A-Z a-z 0-9 - _ . ! ~ * ' ( )]. *)
Definition unreserved (c : ascii) : bool :=
  let n := nat_of_ascii c in
  (((65 <=? n) && (n <=? 90)) || ((97 <=? n) && (n <=? 122)) ||
   ((48 <=? n) && (n <=? 57)))%nat ||
  existsb (Nat.eqb n) [45; 95; 46; 33; 126; 42; 39; 40; 41]%nat.

Definition hex_digit (n : nat) : ascii :=
  if (n <? 10)%nat then ascii_of_nat (48 + n) else ascii_of_nat (55 + n).

(** One octet, escaped: [%XX]. *)
Definition percent (octet : nat) (rest : string) : string :=
  String "%" (String (hex_digit (octet / 16)) (String (hex_digit (octet mod 16)) rest)).

(** [encodeURIComponent]: every other character becomes the escaped octets
    of its UTF-8 encoding, one octet below U+0080 and two from there on. *)
Fixpoint encodeURIComponent (s : string) : string :=
  match s with
  | EmptyString => EmptyString
  | String c r =>
      let n := nat_of_ascii c in
      if unreserved c then String c (encodeURIComponent r)
      else if (n <? 128)%nat then percent n (encodeURIComponent r)
      else percent (192 + n / 64) (percent (128 + n mod 64) (encodeURIComponent r))
  end.

(** A selector fragment in double quotes. *)
Definition q (s : string) : string :=
  String (ascii_of_nat 34) (s ++ String (ascii_of_nat 34) EmptyString).

(** [sub] occurs in [s]: the relation [includes] decides. *)
Definition Occurs (sub s : string) : Prop :=
  exists pre post, s = pre ++ sub ++ post.

(** *** Letter case and white space, in the words of the design document *)

(** The capital letters of the alphabet: A..Z, U+00C0..U+00D6 and
    U+00D8..U+00DE. *)
Definition capitals : list ascii :=
  map ascii_of_nat (seq 65 26 ++ seq 192 23 ++ seq 216 7).

(** The small letter of a capital letter. *)
Definition small_of (c : ascii) : ascii := ascii_of_nat (nat_of_ascii c + 32).

(** [c] and [d] are the same character, or the capital and the small form
    of one letter. *)
Definition same_letter (c d : ascii) : bool :=
  Ascii.eqb c d ||
  existsb (fun k => (Ascii.eqb c k && Ascii.eqb d (small_of k)) ||
                    (Ascii.eqb d k && Ascii.eqb c (small_of k))) capitals.

Fixpoint same_text (a b : string) : bool :=
  match a, b with
  | EmptyString, EmptyString => true
  | String c a', String d b' => same_letter c d && same_text a' b'
  | _, _ => false
  end.

(** [a] and [b] are the same text when letter case is ignored: they have
    the same length and, place by place, the same letter. *)
Definition SameText (a b : string) : Prop := same_text a b = true.

(** The same for a text that may be missing. *)
Definition SameOption (a b : option string) : Prop :=
  match a, b with
  | Some x, Some y => SameText x y
  | None, None => True
  | _, _ => False
  end.

(** [sub] occurs in [s] when letter case is ignored: some stretch of [s]
    is [sub] up to letter case. *)
Definition OccursCI (sub s : string) : Prop :=
  exists pre mid post, s = pre ++ mid ++ post /\ SameText mid sub.

(** Nothing but white space. *)
Fixpoint blank (s : string) : bool :=
  match s with
  | EmptyString => true
  | String c r => is_space c && blank r
  end.

End JS.

(* ===================================================================== *)
(** ** Data model ([types.ts]) *)
(* ===================================================================== *)

(** [JobSearchResult]. *)
Record JobSearchResult := {
  title : string;
  company : string;
  location : string;
  url : string;
  description : option string;
  posted_date : option string
}.

(** The fields of the user row ([userConfig]) that the modelled code reads. *)
Record UserConfig := {
  id : string;
  full_name : option string;
  phone : option string;
  country : option string;
  search_terms : option string;
  search_location : option string;
  blacklisted_companies : option string;
  skip_keywords : option string;
  skip_security_clearance : bool
}.

(** The [status] of an [AppliedJob] row and of an [ApplicationResult]. *)
Inductive Status := applied | error | skipped | duplicate.

(** [AppliedJob] without [id] and [applied_at], which the store fills in. *)
Record AppliedJob := {
  user_id : string;
  job_title : string;
  company_name : string;
  job_url : string;
  status : Status;
  notes : option string;
  error_message : option string
}.

(** [ApplicationResult]. *)
Record ApplicationResult := {
  success : bool;
  jobUrl : string;
  jobTitle : string;
  companyName : string;
  res_status : Status;
  errorMessage : option string;
  res_notes : option string
}.

(* ===================================================================== *)
(** ** Eligibility filter ([filterJobs]) *)
(* ===================================================================== *)

Module Filter.
Import JS.

(** [field.toLowerCase().split(',').map(c => c.trim())]. *)
Definition entries (field : string) : list string :=
  map trim (split "," (toLowerCase field)).

Definition securityKeywords : list string :=
  ["security clearance"; "clearance"; "secret"; "top secret"; "ts/sci"].

(** The first [if] of the callback: a blacklisted company matches. *)
Definition company_check (userConfig : UserConfig) (job : JobSearchResult) : bool :=
  match blacklisted_companies userConfig with
  | Some field =>
      if truthy (Some field) then
        let blacklisted := entries field in
        existsb (fun c => includes (toLowerCase (company job)) c) blacklisted
      else false
  | None => false
  end.

(** The text the keyword check searches:
    [`${job.title} ${job.company} ${job.description}`.toLowerCase()]. *)
Definition keyword_text (job : JobSearchResult) : string :=
  toLowerCase (title job ++ " " ++ company job ++ " " ++ render (description job)).

(** The second [if]: a skip keyword matches. *)
Definition keyword_check (userConfig : UserConfig) (job : JobSearchResult) : bool :=
  match skip_keywords userConfig with
  | Some field =>
      if truthy (Some field) then
        let skipKeywords := entries field in
        let jobText := keyword_text job in
        existsb (fun k => includes jobText k) skipKeywords
      else false
  | None => false
  end.

(** The text the clearance check searches:
    [`${job.title} ${job.description}`.toLowerCase()]. *)
Definition clearance_text (job : JobSearchResult) : string :=
  toLowerCase (title job ++ " " ++ render (description job)).

(** The third [if]: a clearance keyword matches and the rule is on. *)
Definition clearance_check (userConfig : UserConfig) (job : JobSearchResult) : bool :=
  if skip_security_clearance userConfig then
    let jobText := clearance_text job in
    existsb (fun k => includes jobText k) securityKeywords
  else false.

(** The callback of [jobs.filter]: three checks in sequence, each returning
    [false] early. *)
Definition keep (userConfig : UserConfig) (job : JobSearchResult) : bool :=
  if company_check userConfig job then false
  else if keyword_check userConfig job then false
  else if clearance_check userConfig job then false
  else true.

Definition filterJobs (jobs : list JobSearchResult) (userConfig : UserConfig)
  : list JobSearchResult :=
  filter (keep userConfig) jobs.

(** The same filter with the exclusion checks taken from a list, in the
    order of the list. *)
Definition filterJobsBy (checks : list (UserConfig -> JobSearchResult -> bool))
  (jobs : list JobSearchResult) (userConfig : UserConfig) : list JobSearchResult :=
  filter (fun job => negb (existsb (fun chk => chk userConfig job) checks)) jobs.

Definition exclusion_checks : list (UserConfig -> JobSearchResult -> bool) :=
  [company_check; keyword_check; clearance_check].

(** *** The exclusion predicates, in the words of the design document *)

(** No comma in [s]. *)
Definition comma_free (s : string) : Prop := ~ Occurs "," s.

(** [raw] is one of the pieces of the comma-separated list [field]: the
    whole of a list without comma, or the piece before the first comma, or
    a piece of what follows the first comma. *)
Inductive Piece (raw : string) : string -> Prop :=
| piece_only : comma_free raw -> Piece raw raw
| piece_first rest : comma_free raw -> Piece raw (raw ++ "," ++ rest)
| piece_later first rest :
    comma_free first -> Piece raw rest -> Piece raw (first ++ "," ++ rest).

(** [name] is [raw] without the white space around it: [raw] is [name]
    between two blank stretches, and [name] neither begins nor ends with
    white space. *)
Definition Stripped (name raw : string) : Prop :=
  (exists l r, raw = l ++ name ++ r /\ blank l = true /\ blank r = true) /\
  (forall c rest, name = String c rest -> is_space c = false) /\
  (forall rest c, name = rest ++ String c EmptyString -> is_space c = false).

(** The substrings a rule lists: the pieces of its comma-separated list,
    without the white space around them, that are not empty. A rule that is
    not set lists none. *)
Definition Listed (field : option string) (name : string) : Prop :=
  match field with
  | Some f => name <> EmptyString /\ exists raw, Piece raw f /\ Stripped name raw
  | None => False
  end.

(** The text of a posting: title, employer and description; a posting
    without description has none to add. *)
Definition text_of (d : option string) : string :=
  match d with
  | Some s => s
  | None => EmptyString
  end.

Definition posting_text (P : JobSearchResult) : string :=
  title P ++ " " ++ company P ++ " " ++ text_of (description P).

(** A blacklisted-employer substring occurs in the employer name. *)
Definition BlacklistedEmployer (R : UserConfig) (P : JobSearchResult) : Prop :=
  exists e, Listed (blacklisted_companies R) e /\ OccursCI e (company P).

(** A blacklisted keyword occurs in the title+employer+description text. *)
Definition BlacklistedKeyword (R : UserConfig) (P : JobSearchResult) : Prop :=
  exists k, Listed (skip_keywords R) k /\ OccursCI k (posting_text P).

(** The clearance rule is enabled and a clearance keyword occurs in the
    text of the posting. *)
Definition ClearanceRequired (R : UserConfig) (P : JobSearchResult) : Prop :=
  skip_security_clearance R = true /\
  exists k, In k securityKeywords /\ OccursCI k (posting_text P).

(** *** The same, as amended *)

(** The clearance rule is enabled and a clearance keyword occurs in the
    title+description text of the posting; the employer name is not
    looked at. *)
Definition ClearanceInTitleOrDescription (R : UserConfig) (P : JobSearchResult)
  : Prop :=
  skip_security_clearance R = true /\
  exists k, In k securityKeywords /\
            OccursCI k (title P ++ " " ++ text_of (description P)).

(** No piece of the rule's list is blank, as a trailing or a doubled comma
    leaves one; the empty list sets no rule. *)
Definition NoBlankPiece (field : option string) : Prop :=
  match field with
  | Some f => f = EmptyString \/ forall raw, Piece raw f -> blank raw = false
  | None => True
  end.

End Filter.

(* ===================================================================== *)
(** ** Effects: exceptions, the browser session and the ledger *)
(* ===================================================================== *)

(** A thrown value: an [Error] with its message, or a value that is not an
    [Error] (for which [error instanceof Error] is false). *)
Inductive Exn := JsError (message : string) | NonError.

(** [error instanceof Error ? error.message : 'Unknown error']. *)
Definition message_of (e : Exn) : string :=
  match e with
  | JsError m => m
  | NonError => "Unknown error"
  end.

Inductive Res (A : Type) := Ok (a : A) | Throw (e : Exn).
Arguments Ok {A} a.
Arguments Throw {A} e.

(** An [async] method over a state [S]: it returns or throws, and leaves a
    new state either way. *)
Definition Prog (S A : Type) : Type := S -> Res A * S.

Definition ret {S A} (a : A) : Prog S A := fun s => (Ok a, s).

Definition throw {S A} (e : Exn) : Prog S A := fun s => (Throw e, s).

Definition bind {S A B} (m : Prog S A) (k : A -> Prog S B) : Prog S B :=
  fun s => match m s with
           | (Ok a, s') => k a s'
           | (Throw e, s') => (Throw e, s')
           end.

(** [try { m } catch (e) { h e }]. *)
Definition try_catch {S A} (m : Prog S A) (h : Exn -> Prog S A) : Prog S A :=
  fun s => match m s with
           | (Ok a, s') => (Ok a, s')
           | (Throw e, s') => h e s'
           end.

Declare Scope prog_scope.
Delimit Scope prog_scope with prog.
Notation "x <- m ;; k" := (bind m (fun x => k))
  (at level 61, m at next level, right associativity) : prog_scope.
Notation "m ;; k" := (bind m (fun _ => k))
  (at level 61, right associativity) : prog_scope.
Local Open Scope prog_scope.

(** What the code asks of the page. *)
Inductive Action :=
| Goto (target : string)
| WaitForSelector (selector : string) (timeout : N)
| Query (selector : string)
| Click (selector : string)
| EvaluateClick (selector : string)
| Press (key : string)
| WaitForTimeout (ms : N)
| Fill (selector value : string)
| Evaluate (selector : string)
| ClosePage.

(** What the page answers: the element is there, it is not, or the call
    throws. *)
Inductive Reply := Found | Missing | Fails (e : Exn).

(** One listing element as the extraction script of [searchJobs] sees it:
    the text of its title, company and location children when they exist,
    and the address its link resolves to (empty when there is none). *)
Record Element := {
  titleText : option string;
  companyText : option string;
  locationText : option string;
  href : string
}.

(** The environment of a run: the target site and the record store. The
    site's answer may depend on everything done to the page so far. *)
Record Env := {
  respond : list Action -> Action -> Reply;
  elapsed : list Action -> Action -> N;
  elements : list Action -> string -> list Element;
  select_fault : list AppliedJob -> string -> string -> option Exn;
  insert_fault : list AppliedJob -> AppliedJob -> option Exn;
  store_elapsed : N;
  jitter : N -> N
}.

(** The browser session of one [PlaywrightJobApplicator]: whether
    [this.page] is set, what was done to the page, and the clock. *)
Record Browser := {
  page : bool;
  trace : list Action;
  clock : N
}.

(** The session together with the [applied_jobs] table. *)
Record World := {
  browser : Browser;
  ledger : list AppliedJob
}.

Definition liftB {A} (m : Prog Browser A) : Prog World A :=
  fun w => let (r, b') := m (browser w) in
           (r, {| browser := b'; ledger := ledger w |}).

Definition tick (n : N) (b : Browser) : Browser :=
  {| page := page b; trace := trace b; clock := (clock b + n)%N |}.

Definition record (a : Action) (n : N) (b : Browser) : Browser :=
  {| page := page b; trace := trace b ++ [a]; clock := (clock b + n)%N |}.

Section Page.

Variable env : Env.

(** One call on the page: it is recorded, takes its time, and returns
    whether the element was there. *)
Definition perform (a : Action) : Prog Browser bool :=
  fun b =>
    let b' := record a (elapsed env (trace b) a) b in
    match respond env (trace b) a with
    | Found => (Ok true, b')
    | Missing => (Ok false, b')
    | Fails e => (Throw e, b')
    end.

(** Playwright's [TimeoutError]. *)
Definition TimeoutError : Exn := JsError "Timeout exceeded".

(** [page.waitForSelector(selector, { timeout })]: throws when the element
    does not appear in time. *)
Definition waitForSelector (selector : string) (timeout : N) : Prog Browser unit :=
  found <- perform (WaitForSelector selector timeout) ;;
  if found then ret tt else throw TimeoutError.

(** [Promise.race([call, reject after limit])]: the call settles first
    when it takes less than [limit]; otherwise the race rejects with an
    [Error] carrying [failure]. *)
Definition race (call : Action) (limit : N) (failure : string) : Prog Browser unit :=
  fun b =>
    if (limit <=? elapsed env (trace b) call)%N
    then (Throw (JsError failure), record call limit b)
    else (perform call ;; ret tt) b.

(** [Date.now()]. *)
Definition now : Prog Browser N := fun b => (Ok (clock b), b).

(** The guard [if (!this.page) throw new Error('Browser not initialized')]. *)
Definition require_page {A} (m : Prog Browser A) : Prog Browser A :=
  fun b => if page b then m b
           else (Throw (JsError "Browser not initialized"), b).

(** [cleanup]: closes page, context and browser when they are set; an
    error while closing is logged, not thrown. *)
Definition cleanup : Prog Browser unit :=
  fun b =>
    if page b then
      let b' := record ClosePage (elapsed env (trace b) ClosePage) b in
      match respond env (trace b) ClosePage with
      | Fails _ => (Ok tt, b')
      | _ => (Ok tt, {| page := false; trace := trace b'; clock := clock b' |})
      end
    else (Ok tt, b).

End Page.

(* ===================================================================== *)
(** ** Discovery stage ([searchJobs]) *)
(* ===================================================================== *)

Module Discovery.
Import JS.

Definition searchTerms : string := "software engineer developer programmer".
Definition searchLocation : string := "Remote".

(** The address [searchJobs] navigates to. *)
Definition searchUrl (userConfig : UserConfig) : string :=
  "https://jobs.workable.com/search?q=" ++ encodeURIComponent searchTerms ++
  "&location=" ++ encodeURIComponent searchLocation.

(** [text?.trim() || fallback]. *)
Definition text_or (text : option string) (fallback : string) : string :=
  match text with
  | Some s => if (trim s =? EmptyString) then fallback else trim s
  | None => fallback
  end.

(** The [forEach] of the extraction script: an element with a title and a
    non-empty address gives one posting. *)
Definition extract (els : list Element) : list JobSearchResult :=
  flat_map
    (fun el =>
       match titleText el with
       | Some t =>
           if (href el =? EmptyString) then []
           else [ {| title := text_or (Some t) EmptyString;
                     company := text_or (companyText el) "Unknown Company";
                     location := text_or (locationText el) "Remote";
                     url := href el;
                     description := Some EmptyString;
                     posted_date := Some EmptyString |} ]
       | None => []
       end)
    els.

(** [Array.prototype.findIndex]; [None] stands for -1. *)
Fixpoint findIndex {A} (p : A -> bool) (l : list A) : option nat :=
  match l with
  | [] => None
  | x :: r => if p x then Some 0
              else match findIndex p r with
                   | Some k => Some (S k)
                   | None => None
                   end
  end.

(** [Array.prototype.filter] with the element's index, counted from [i]. *)
Fixpoint filter_from {A} (f : A -> nat -> bool) (i : nat) (l : list A) : list A :=
  match l with
  | [] => []
  | x :: r => if f x i then x :: filter_from f (S i) r
              else filter_from f (S i) r
  end.

(** The callback of the deduplicating filter:
    [index === self.findIndex(j => j.url === job.url)]. *)
Definition first_of (results : list JobSearchResult) (job : JobSearchResult)
  (index : nat) : bool :=
  match findIndex (fun j => url j =? url job) results with
  | Some k => (index =? k)%nat
  | None => false
  end.

(** [results.filter((job, index, self) => ...)]. *)
Definition uniqueJobs (results : list JobSearchResult) : list JobSearchResult :=
  filter_from (first_of results) 0 results.

(** [a.slice(0, n)]. *)
Definition slice0 {A} (n : nat) (a : list A) : list A := firstn n a.

(** What the extraction script returns for the raw extraction [results]. *)
Definition limitUnique (results : list JobSearchResult) : list JobSearchResult :=
  slice0 10 (uniqueJobs results).

(** Deduplication by address in the words of the design document: going
    through the postings in order, keep a posting unless its address was
    seen before. *)
Fixpoint dedupSeen (seen : list string) (l : list JobSearchResult)
  : list JobSearchResult :=
  match l with
  | [] => []
  | x :: r => if existsb (String.eqb (url x)) seen then dedupSeen seen r
              else x :: dedupSeen (url x :: seen) r
  end.

Definition dedupByUrl (l : list JobSearchResult) : list JobSearchResult :=
  dedupSeen [] l.

(** [seen] holds the addresses of the postings of [pre]. *)
Definition Seen (seen : list string) (pre : list JobSearchResult) : Prop :=
  forall u, existsb (String.eqb u) seen = existsb (fun j => url j =? u) pre.

Section Search.

Variable env : Env.

(** [page.evaluate(script, selector)]. *)
Definition evaluate (selector : string) : Prog Browser (list JobSearchResult) :=
  fun b =>
    let b' := record (Evaluate selector) (elapsed env (trace b) (Evaluate selector)) b in
    match respond env (trace b) (Evaluate selector) with
    | Fails e => (Throw e, b')
    | _ => (Ok (limitUnique (extract (elements env (trace b) selector))), b')
    end.

Definition cardSelectors : list string :=
  ["[data-testid=" ++ q "job-card" ++ "]"; ".job-card";
   "[class*=" ++ q "job" ++ "]"; "a[href*=" ++ q "/jobs/" ++ "]"].

(** The nested [try]/[catch] that settles on a listing selector. *)
Definition findJobCards : Prog Browser string :=
  try_catch
    (waitForSelector env ("[data-testid=" ++ q "job-card" ++ "]") 5000 ;;
     ret ("[data-testid=" ++ q "job-card" ++ "]"))
    (fun _ =>
       try_catch
         (waitForSelector env ".job-card" 5000 ;; ret ".job-card")
         (fun _ =>
            try_catch
              (waitForSelector env ("[class*=" ++ q "job" ++ "]") 5000 ;;
               ret ("[class*=" ++ q "job" ++ "]"))
              (fun _ =>
                 waitForSelector env ("a[href*=" ++ q "/jobs/" ++ "]") 5000 ;;
                 ret ("a[href*=" ++ q "/jobs/" ++ "]")))).

(** The [try] block of [searchJobs]. *)
Definition search (userConfig : UserConfig) : Prog Browser (list JobSearchResult) :=
  perform env (Goto (searchUrl userConfig)) ;;
  jobCards <- findJobCards ;;
  jobs <- evaluate jobCards ;;
  ret jobs.

Definition searchJobs (userConfig : UserConfig) : Prog Browser (list JobSearchResult) :=
  require_page (try_catch (search userConfig) (fun _ => ret [])).

End Search.

End Discovery.

(* ===================================================================== *)
(** ** Attempt ledger ([hasAppliedToJob], [logApplication]) *)
(* ===================================================================== *)

Module Store.

(** The row is one of user [userId] for address [jobUrl]:
    [.eq('user_id', userId).eq('job_url', jobUrl)]. *)
Definition matches (userId jobUrl : string) (r : AppliedJob) : bool :=
  (user_id r =? userId) && (job_url r =? jobUrl).

(** The rows the query of [hasAppliedToJob] returns: those of the user for
    the address, at most one ([.limit(1)]). No condition on [status]. *)
Definition select_rows (userId jobUrl : string) (table : list AppliedJob)
  : list AppliedJob :=
  firstn 1 (filter (matches userId jobUrl) table).

Section Ops.

Variable env : Env.

Definition store_tick (w : World) : World :=
  {| browser := tick (store_elapsed env) (browser w); ledger := ledger w |}.

(** [hasAppliedToJob]: [(data?.length || 0) > 0], or the store's error
    thrown on. *)
Definition hasAppliedToJob (userId jobUrl : string) : Prog World bool :=
  fun w =>
    match select_fault env (ledger w) userId jobUrl with
    | Some e => (Throw e, store_tick w)
    | None =>
        (Ok (0 <? List.length (select_rows userId jobUrl (ledger w)))%nat, store_tick w)
    end.

(** [logApplication]: inserts the row and returns it, or throws the store's
    error. The table is declared [UNIQUE(user_id, job_url)], so a second
    row for the same user and address is refused. *)
Definition logApplication (application : AppliedJob) : Prog World AppliedJob :=
  fun w =>
    match insert_fault env (ledger w) application with
    | Some e => (Throw e, store_tick w)
    | None =>
        if existsb (matches (user_id application) (job_url application)) (ledger w)
        then (Throw NonError, store_tick w)
        else (Ok application,
              {| browser := tick (store_elapsed env) (browser w);
                 ledger := ledger w ++ [application] |})
    end.

End Ops.

End Store.

(* ===================================================================== *)
(** ** Phone step ([handlePhoneInput]) *)
(* ===================================================================== *)

Module Phone.
Import JS.

Definition flagSelector : string := ".iti__selected-flag".
Definition usItemSelector : string := "#iti-0__item-us-preferred".
Definition fixedPhone : string := "415-555-2671".

Definition phoneInputSelector : string :=
  "input[type=" ++ q "tel" ++ "], input[name*=" ++ q "phone" ++
  "], input[placeholder*=" ++ q "phone" ++ "], input[aria-label*=" ++
  q "phone" ++ "]".

Section Steps.

Variable env : Env.

(** The tail shared by the [try] block and the [catch] block: look the
    phone input up and fill it with the fixed number. *)
Definition fillPhone : Prog Browser unit :=
  phoneInput <- perform env (Query phoneInputSelector) ;;
  if phoneInput then perform env (Fill phoneInputSelector fixedPhone) ;; ret tt
  else ret tt.

(** [handlePhoneInput()]: it takes no argument. *)
Definition handlePhoneInput : Prog Browser unit :=
  fun b =>
    if page b then
      try_catch
        (perform env (Click flagSelector) ;;
         perform env (WaitForTimeout 1000) ;;
         perform env (Click usItemSelector) ;;
         perform env (WaitForTimeout 500) ;;
         fillPhone)
        (fun _ => fillPhone)
        b
    else (Ok tt, b).

(** The statement [await this.handlePhoneInput();] of
    [fillAllFieldsWithAI(userConfig)], where [userConfig] is in scope. *)
Definition phoneStep (userConfig : UserConfig) : Prog Browser unit :=
  handlePhoneInput.

End Steps.

(** The actions a run added to the trace. *)
Definition added (before after : Browser) : list Action :=
  skipn (List.length (trace before)) (trace after).

(** An action outside the script of the phone step: anything but opening
    the country list, picking the United States entry, pausing, looking the
    phone input up and writing the fixed number into it. *)
Definition off_script (a : Action) : bool :=
  match a with
  | Fill sel v => negb ((sel =? phoneInputSelector) && (v =? fixedPhone))
  | Click sel => negb ((sel =? flagSelector) || (sel =? usItemSelector))
  | Query sel => negb (sel =? phoneInputSelector)
  | WaitForTimeout _ => false
  | _ => true
  end.

End Phone.

(* ===================================================================== *)
(** ** Application stage ([applyToJob]) *)
(* ===================================================================== *)

Module Apply.
Import JS Store.

Definition applicationTimeout : N := 60000.

Definition applyButtonSelector : string :=
  "[data-testid=" ++ q "apply-button" ++ "], .apply-button, button:has-text(" ++
  q "Apply" ++ ")".

Definition backdropSelector : string :=
  "[data-ui=" ++ q "backdrop" ++ "], .backdrop, .modal-overlay".

Definition formSelector : string :=
  "form, [data-testid=" ++ q "application-form" ++ "]".

Definition submitSelector : string :=
  "button[type=" ++ q "submit" ++ "], input[type=" ++ q "submit" ++
  "], button:has-text(" ++ q "Submit" ++ ")".

Definition successSelector : string :=
  ".success, .confirmation, [data-testid=" ++ q "success" ++ "]".

(** The selector [improvedSubmit] looks validation messages up with. *)
Definition validationErrorSelector : string :=
  ".error, .form-error, [aria-live=" ++ q "assertive" ++ "]".

(** The action looks [selector] up on the page. *)
Definition queries (selector : string) (a : Action) : bool :=
  match a with
  | Query s => s =? selector
  | _ => false
  end.

Definition duplicateResult (job : JobSearchResult) : ApplicationResult :=
  {| success := false; jobUrl := url job; jobTitle := title job;
     companyName := company job; res_status := duplicate;
     errorMessage := None; res_notes := Some "Already applied to this job" |}.

Definition appliedResult (job : JobSearchResult) : ApplicationResult :=
  {| success := true; jobUrl := url job; jobTitle := title job;
     companyName := company job; res_status := applied;
     errorMessage := None; res_notes := Some "Successfully applied" |}.

Definition errorResult (job : JobSearchResult) (e : Exn) : ApplicationResult :=
  {| success := false; jobUrl := url job; jobTitle := title job;
     companyName := company job; res_status := error;
     errorMessage := Some (message_of e); res_notes := None |}.

Definition appliedRecord (job : JobSearchResult) (userConfig : UserConfig) : AppliedJob :=
  {| user_id := id userConfig; job_title := title job; company_name := company job;
     job_url := url job; status := applied;
     notes := Some "Successfully applied via AutoTalent"; error_message := None |}.

Definition errorRecord (job : JobSearchResult) (userConfig : UserConfig) (e : Exn)
  : AppliedJob :=
  {| user_id := id userConfig; job_title := title job; company_name := company job;
     job_url := url job; status := error;
     notes := Some "Failed to apply"; error_message := Some (message_of e) |}.

Section Stage.

Variable env : Env.

(** [fillApplicationForm]: it works on the page, with the answer service
    and the resume store behind it, and never on [applied_jobs]. *)
Variable fillApplicationForm : UserConfig -> Prog Browser unit.

(** The [try] block of [applyToJob] from the navigation on: what runs when
    the duplicate check found nothing. *)
Definition navigateAndSubmit (job : JobSearchResult) (userConfig : UserConfig)
  : Prog World ApplicationResult :=
  liftB (race env (Goto (url job)) 30000 "Navigation timeout") ;;
  liftB (waitForSelector env applyButtonSelector 10000) ;;
  backdrop <- liftB (perform env (Query backdropSelector)) ;;
  (if backdrop
   then liftB (perform env (Press "Escape") ;; perform env (WaitForTimeout 1000))
   else ret false) ;;
  liftB (try_catch (perform env (Click applyButtonSelector))
                   (fun _ => perform env (EvaluateClick applyButtonSelector))) ;;
  liftB (try_catch (waitForSelector env formSelector 10000)
                   (fun _ => throw (JsError "No application form available"))) ;;
  liftB (fillApplicationForm userConfig) ;;
  submitButton <- liftB (perform env (Query submitSelector)) ;;
  if submitButton then
    liftB (perform env (Click submitSelector)) ;;
    liftB (race env (WaitForTimeout 5000) 10000 "Submission timeout") ;;
    successIndicator <- liftB (perform env (Query successSelector)) ;;
    if successIndicator then
      logApplication env (appliedRecord job userConfig) ;;
      ret (appliedResult job)
    else throw (JsError "No success indicator found after submission")
  else throw (JsError "Submit button not found").

(** The [try] block of [applyToJob]: the duplicate check, then the rest. *)
Definition attempt (job : JobSearchResult) (userConfig : UserConfig)
  : Prog World ApplicationResult :=
  alreadyApplied <- hasAppliedToJob env (id userConfig) (url job) ;;
  if alreadyApplied then ret (duplicateResult job)
  else navigateAndSubmit job userConfig.

(** The [catch] block of [applyToJob]. *)
Definition recover (startTime : N) (job : JobSearchResult) (userConfig : UserConfig)
  (e : Exn) : Prog World ApplicationResult :=
  t <- liftB now ;;
  let e' := if (applicationTimeout <? t - startTime)%N
            then JsError "Application timeout after 60000ms" else e in
  logApplication env (errorRecord job userConfig e') ;;
  ret (errorResult job e').

Definition applyToJob (job : JobSearchResult) (userConfig : UserConfig)
  : Prog World ApplicationResult :=
  fun w =>
    if page (browser w) then
      let startTime := clock (browser w) in
      try_catch (attempt job userConfig) (recover startTime job userConfig) w
    else (Throw (JsError "Browser not initialized"), w).

(** The selectors [improvedSubmit] tries for the submit control, in order. *)
Definition submitSelectors : list string :=
  ["button[type=" ++ q "submit" ++ "]"; "input[type=" ++ q "submit" ++ "]";
   "button:has-text(" ++ q "Submit application" ++ ")";
   "button:has-text(" ++ q "Submit" ++ ")"; "button:has-text(" ++ q "Apply" ++ ")"].

(** The [for] loop of [improvedSubmit]: it clicks the first submit control
    it finds, waits, and reports whether no validation message followed. *)
Fixpoint improvedSubmit_from (selectors : list string) : Prog Browser bool :=
  match selectors with
  | [] => ret false
  | selector :: rest =>
      button <- perform env (Query selector) ;;
      if button then
        perform env (Click selector) ;;
        perform env (WaitForTimeout 2000) ;;
        errorMsg <- perform env (Query validationErrorSelector) ;;
        if errorMsg then ret false else ret true
      else improvedSubmit_from rest
  end.

(** [improvedSubmit]. No method of the class calls it. *)
Definition improvedSubmit : Prog Browser bool :=
  fun b => if page b then improvedSubmit_from submitSelectors b else (Ok false, b).

(** The loop of [processUser] over the postings to apply to: one attempt
    after the other, a randomized pause after each attempt that returned.
    The counters are those of applied postings and of errors. *)
Definition delay : Prog World unit :=
  fun w => (Ok tt, {| browser := tick (2000 + jitter env (clock (browser w)) mod 3000)%N
                                      (browser w);
                      ledger := ledger w |}).

Fixpoint applyAll (jobs : list JobSearchResult) (userConfig : UserConfig)
  (counts : nat * nat) : Prog World (nat * nat) :=
  match jobs with
  | [] => ret counts
  | job :: rest =>
      counts' <- try_catch
                   (result <- applyToJob job userConfig ;;
                    delay ;;
                    ret (if success result then (S (fst counts), snd counts)
                         else match res_status result with
                              | duplicate => counts
                              | _ => (fst counts, S (snd counts))
                              end))
                   (fun _ => ret (fst counts, S (snd counts))) ;;
      applyAll rest userConfig counts'
  end.

End Stage.

End Apply.

(* ===================================================================== *)
(** ** Signal handlers ([autoApplyWorker.ts]) *)
(* ===================================================================== *)

Module Worker.

(** The process: the worker's session, its [isRunning] guard, and the exit
    status once [process.exit] was called. *)
Record Process := {
  session : Browser;
  isRunning : bool;
  exited : option nat
}.

(** [stopScheduler()]: it logs and does nothing else. *)
Definition stopScheduler (p : Process) : Process := p.

(** [process.exit(code)]. *)
Definition exit (code : nat) (p : Process) : Process :=
  {| session := session p; isRunning := isRunning p; exited := Some code |}.

(** The handlers of [SIGINT] and of [SIGTERM]: the same two statements. *)
Definition onSIGINT (p : Process) : Process := exit 0 (stopScheduler p).
Definition onSIGTERM (p : Process) : Process := exit 0 (stopScheduler p).

(** The [finally] block of [runAutoApplyJob]: the exit path that does
    close the session. *)
Definition finallyCleanup (env : Env) (p : Process) : Process :=
  {| session := snd (cleanup env (session p)); isRunning := false; exited := exited p |}.

(** The process has exited while its browser session was still open. *)
Definition exited_with_open_session (p : Process) : Prop :=
  exited p <> None /\ page (session p) = true.

End Worker.

(* ===================================================================== *)
(** ** Scenarios: the concrete sites, sessions, users and postings the
    examples below run on *)
(* ===================================================================== *)

Module Scenario.
Import JS Filter Discovery Store Apply.

(** The rules and the posting of the design document's second scenario. *)
Definition acme_rules : UserConfig :=
  {| id := "u1"; full_name := None; phone := None; country := None;
     search_terms := None; search_location := None;
     blacklisted_companies := Some "Acme, Globex"; skip_keywords := None;
     skip_security_clearance := false |}.

(** The clearance rule alone, and a posting whose employer name, and
    nothing else, has a clearance keyword in it. *)
Definition clearance_rules : UserConfig :=
  {| id := "u1"; full_name := None; phone := None; country := None;
     search_terms := None; search_location := None;
     blacklisted_companies := None; skip_keywords := None;
     skip_security_clearance := true |}.

Definition outlet_posting : JobSearchResult :=
  {| title := "Cashier"; company := "Clearance Outlet"; location := "Leeds";
     url := "https://jobs.workable.com/view/7"; description := Some EmptyString;
     posted_date := Some EmptyString |}.

(** A keyword rule, and a posting that has no description. *)
Definition fine_rules : UserConfig :=
  {| id := "u1"; full_name := None; phone := None; country := None;
     search_terms := None; search_location := None;
     blacklisted_companies := None; skip_keywords := Some "fine";
     skip_security_clearance := false |}.

Definition bare_posting : JobSearchResult :=
  {| title := "Welder"; company := "Initech"; location := "Leeds";
     url := "https://jobs.workable.com/view/8"; description := None;
     posted_date := None |}.

Definition acme_posting : JobSearchResult :=
  {| title := "Engineer"; company := "ACME Corp"; location := "Remote";
     url := "https://jobs.workable.com/view/1"; description := Some EmptyString;
     posted_date := Some EmptyString |}.

(** Twelve raw postings, the third and the seventh repeating the address of
    the first and of the second. *)
Definition posting (n : string) (u : string) : JobSearchResult :=
  {| title := n; company := "Unknown Company"; location := "Remote"; url := u;
     description := Some EmptyString; posted_date := Some EmptyString |}.

Definition twelve_raw : list JobSearchResult :=
  [posting "a" "/jobs/1"; posting "b" "/jobs/2"; posting "c" "/jobs/1";
   posting "d" "/jobs/3"; posting "e" "/jobs/4"; posting "f" "/jobs/5";
   posting "g" "/jobs/2"; posting "h" "/jobs/6"; posting "i" "/jobs/7";
   posting "j" "/jobs/8"; posting "k" "/jobs/9"; posting "l" "/jobs/10"].

(** A site on which every element is found at once and nothing fails,
    with an empty listing. *)
Definition steady_env : Env :=
  {| respond := fun _ _ => Found;
     elapsed := fun _ _ => 1%N;
     elements := fun _ _ => [];
     select_fault := fun _ _ _ => None;
     insert_fault := fun _ _ => None;
     store_elapsed := 1%N;
     jitter := fun _ => 0%N |}.

(** A site on which no listing container ever appears. *)
Definition barren_env : Env :=
  {| respond := fun _ a =>
       match a with
       | WaitForSelector _ _ => Missing
       | _ => Found
       end;
     elapsed := fun _ a =>
       match a with
       | WaitForSelector _ t => t
       | _ => 1%N
       end;
     elements := fun _ _ => [];
     select_fault := fun _ _ _ => None;
     insert_fault := fun _ _ => None;
     store_elapsed := 1%N;
     jitter := fun _ => 0%N |}.

(** An applicator before [initialize()], and one after it. *)
Definition fresh_browser : Browser := {| page := false; trace := []; clock := 0 |}.
Definition ready_browser : Browser := {| page := true; trace := []; clock := 0 |}.

Definition plain_user : UserConfig :=
  {| id := "u1"; full_name := Some "Ada Lovelace"; phone := Some "+44 20 7946 0000";
     country := Some "United Kingdom"; search_terms := Some "nurse";
     search_location := Some "Leeds"; blacklisted_companies := None;
     skip_keywords := None; skip_security_clearance := false |}.

Definition other_user : UserConfig :=
  {| id := "u2"; full_name := Some "Grace Hopper"; phone := Some "212-555-0100";
     country := Some "United States"; search_terms := Some "welder";
     search_location := Some "Austin"; blacklisted_companies := Some "Acme";
     skip_keywords := None; skip_security_clearance := true |}.

(** One posting, and worlds whose ledger already has a row for it. *)
Definition the_posting : JobSearchResult :=
  posting "Engineer" "https://jobs.workable.com/view/x".

Definition world_of (rows : list AppliedJob) : World :=
  {| browser := ready_browser; ledger := rows |}.

(** The ledger beside an applicator that was not initialised. *)
Definition cold_world_of (rows : list AppliedJob) : World :=
  {| browser := fresh_browser; ledger := rows |}.

(** A site as [steady_env], with a store whose queries fail. *)
Definition deaf_env : Env :=
  {| respond := fun _ _ => Found;
     elapsed := fun _ _ => 1%N;
     elements := fun _ _ => [];
     select_fault := fun _ _ _ => Some (JsError "connection lost");
     insert_fault := fun _ _ => None;
     store_elapsed := 1%N;
     jitter := fun _ => 0%N |}.

Definition prior_error : list AppliedJob :=
  [errorRecord the_posting plain_user (JsError "No application form available")].

Definition prior_applied : list AppliedJob :=
  [appliedRecord the_posting plain_user].

(** A form routine reduced to its phone step. *)
Definition phone_form (env : Env) : UserConfig -> Prog Browser unit :=
  Phone.phoneStep env.

(** A site that, after the submit click, shows a validation message and no
    success indicator; no backdrop is in the way. *)
Definition rejecting_env : Env :=
  {| respond := fun _ a =>
       match a with
       | Query sel =>
           if (sel =? successSelector) || (sel =? backdropSelector)
           then Missing else Found
       | _ => Found
       end;
     elapsed := fun _ _ => 1%N;
     elements := fun _ _ => [];
     select_fault := fun _ _ _ => None;
     insert_fault := fun _ _ => None;
     store_elapsed := 1%N;
     jitter := fun _ => 0%N |}.

(** A site that shows both a validation message and a success indicator. *)
Definition ambiguous_env : Env :=
  {| respond := fun _ a =>
       match a with
       | Query sel => if (sel =? backdropSelector) then Missing else Found
       | _ => Found
       end;
     elapsed := fun _ _ => 1%N;
     elements := fun _ _ => [];
     select_fault := fun _ _ _ => None;
     insert_fault := fun _ _ => None;
     store_elapsed := 1%N;
     jitter := fun _ => 0%N |}.

(** The attempt on the site that shows a validation message and no success
    indicator, and the attempt on the site that shows both. *)
Definition rejected_attempt : Res ApplicationResult * World :=
  applyToJob rejecting_env (phone_form rejecting_env) the_posting plain_user
    (world_of []).

Definition ambiguous_attempt : Res ApplicationResult * World :=
  applyToJob ambiguous_env (phone_form ambiguous_env) the_posting plain_user
    (world_of []).

(** A worker in the middle of a run: its session is open. *)
Definition busy_process : Worker.Process :=
  {| Worker.session := ready_browser; Worker.isRunning := true;
     Worker.exited := None |}.

End Scenario.

(* ===================================================================== *)
(** ** Measures on ledgers and traces *)
(* ===================================================================== *)

Module Measure.

(** The row records a submitted application. *)
Definition is_applied (r : AppliedJob) : bool :=
  match status r with
  | applied => true
  | _ => false
  end.

(** The pair the table's uniqueness constraint is on. *)
Definition key (r : AppliedJob) : string * string := (user_id r, job_url r).

(** No two rows of the table are for the same user and address. *)
Definition UniqueKeys (table : list AppliedJob) : Prop := NoDup (map key table).

Definition is_click (a : Action) : bool :=
  match a with
  | Click _ => true
  | _ => false
  end.

(** The number of clicks among the actions. *)
Definition clicks (acts : list Action) : nat := List.length (filter is_click acts).

(** Every run of [m] adds actions to the trace, and only actions that
    satisfy [Q]. *)
Definition emits_only (Q : Action -> Prop) {A} (m : Prog Browser A) : Prop :=
  forall b r b', m b = (r, b') ->
  exists acts, trace b' = (trace b ++ acts)%list /\ Forall Q acts.

(** An action that writes nothing into a field. *)
Definition no_fill (a : Action) : Prop := forall s x, a <> Fill s x.

(** An action that writes nothing but [value], and only into an element
    found by one of [selectors]. *)
Definition fills_only (selectors : list string) (value : string) (a : Action) : Prop :=
  forall s x, a = Fill s x -> x = value /\ In s selectors.

(** A click is on one of [selectors]. *)
Definition clicks_only (selectors : list string) (a : Action) : Prop :=
  forall s, a = Click s -> In s selectors.

(** A write of the name block: the first name into a first-name field or
    the last name into a last-name field. *)
Definition name_fills (firstFields lastFields : list string) (names : string * string)
  (a : Action) : Prop :=
  forall s x, a = Fill s x ->
              (In s firstFields /\ x = fst names) \/ (In s lastFields /\ x = snd names).

End Measure.

(* ===================================================================== *)
(** ** Field population ([fillAllFieldsWithAI]): overlays, [robustFill], names *)
(* ===================================================================== *)

Module Fields.
Import JS Apply.

Definition cookieSelector : string :=
  "button[data-ui=" ++ q "cookie-consent" ++ "], button:has-text(" ++ q "Accept" ++
  "), button:has-text(" ++ q "Got it" ++ ")".

Definition firstNameSelectors : list string :=
  ["input[name*=" ++ q "first" ++ " i]"; "input[placeholder*=" ++ q "first" ++ " i]";
   "input[aria-label*=" ++ q "first" ++ " i]";
   "input[autocomplete*=" ++ q "given-name" ++ " i]"].

Definition lastNameSelectors : list string :=
  ["input[name*=" ++ q "last" ++ " i]"; "input[placeholder*=" ++ q "last" ++ " i]";
   "input[aria-label*=" ++ q "last" ++ " i]";
   "input[autocomplete*=" ++ q "family-name" ++ " i]"].

(** [s.split(/\s+/)]: the pieces between the runs of white space; [inrun]
    says that the character before was white space. *)
Fixpoint splitSpaces (inrun : bool) (s : string) : list string :=
  match s with
  | EmptyString => [EmptyString]
  | String c r =>
      if is_space c then
        if inrun then splitSpaces true r else EmptyString :: splitSpaces true r
      else match splitSpaces false r with
           | [] => [String c EmptyString]
           | h :: t => String c h :: t
           end
  end.

(** No character of [s] is white space. *)
Fixpoint spaceless (s : string) : bool :=
  match s with
  | EmptyString => true
  | String c r => negb (is_space c) && spaceless r
  end.

(** A word: not empty and without white space. *)
Definition word (s : string) : Prop := s <> EmptyString /\ spaceless s = true.

(** [parts.join(' ')]. *)
Fixpoint join (parts : list string) : string :=
  match parts with
  | [] => EmptyString
  | [p] => p
  | p :: rest => p ++ " " ++ join rest
  end.

(** [a || b] on strings. *)
Definition or_else (a b : string) : string :=
  if (a =? EmptyString) then b else a.

(** The first and the last name [fillAllFieldsWithAI] writes: the first
    word of [full_name] and the rest of its words, each replaced by the
    answer service's text ([generated], by label) when it is empty. *)
Definition nameParts (generated : string -> string) (userConfig : UserConfig)
  : string * string :=
  match full_name userConfig with
  | Some name =>
      if truthy (Some name) then
        let parts := splitSpaces false (trim name) in
        (or_else (hd EmptyString parts) (generated "First name"),
         or_else (join (tl parts)) (generated "Last name"))
      else (generated "First name", generated "Last name")
  | None => (generated "First name", generated "Last name")
  end.

Section Steps.

Variable env : Env.

(** [call.catch(() => {})]. *)
Definition swallow {A} (m : Prog Browser A) : Prog Browser unit :=
  try_catch (m ;; ret tt) (fun _ => ret tt).

(** [dismissOverlays]: accept the cookie banner and close a backdrop when
    they are there. *)
Definition dismissOverlays : Prog Browser unit :=
  fun b =>
    if page b then
      (cookieBtn <- perform env (Query cookieSelector) ;;
       (if cookieBtn
        then swallow (perform env (Click cookieSelector)) ;;
             perform env (WaitForTimeout 500) ;; ret tt
        else ret tt) ;;
       backdrop <- perform env (Query backdropSelector) ;;
       (if backdrop
        then swallow (perform env (Press "Escape")) ;;
             perform env (WaitForTimeout 500) ;; ret tt
        else ret tt)) b
    else (Ok tt, b).

(** One turn of the loop of [robustFill]: the [try] block returns [true]
    from the function when the element was found and filled; a miss or an
    error goes on to the next selector. *)
Definition tryFill (selector value : string) : Prog Browser bool :=
  try_catch
    (element <- perform env (Query selector) ;;
     if element
     then dismissOverlays ;; perform env (Fill selector value) ;; ret true
     else ret false)
    (fun _ => ret false).

Fixpoint robustFill_from (selectors : list string) (value : string)
  : Prog Browser bool :=
  match selectors with
  | [] => ret false
  | selector :: rest =>
      filled <- tryFill selector value ;;
      if filled then ret true else robustFill_from rest value
  end.

(** [robustFill(label, selectors, value)]. *)
Definition robustFill (selectors : list string) (value : string) : Prog Browser bool :=
  fun b =>
    if page b then (dismissOverlays ;; robustFill_from selectors value) b
    else (Ok false, b).

(** The name block of [fillAllFieldsWithAI]. *)
Definition fillNames (generated : string -> string) (userConfig : UserConfig)
  : Prog Browser unit :=
  let names := nameParts generated userConfig in
  robustFill firstNameSelectors (fst names) ;;
  robustFill lastNameSelectors (snd names) ;;
  ret tt.

End Steps.

End Fields.

(* ===================================================================== *)
(** ** Yes/no heuristics ([handleRemainingFieldsAndYesNoSelectors]) *)
(* ===================================================================== *)

Module Heuristics.
Import JS.

(** An option of a radio group or of a dropdown, as the code reads it: its
    [value], and the text of its label (radio) or its own text (option). *)
Record Choice := {
  opt_value : string;
  opt_text : string
}.

(** The test of the first loop over a radio group: is this a "Yes"
    option? *)
Definition signalsYes (o : Choice) : bool :=
  includes (toLowerCase (opt_value o)) "yes" ||
  includes (toLowerCase (opt_value o)) "true" ||
  (opt_value o =? "1") || (opt_value o =? "Yes") || (opt_value o =? "YES") ||
  includes (toLowerCase (opt_text o)) "yes" ||
  includes (toLowerCase (opt_text o)) "true".

(** The negation of the test of the second loop: is this a "No" option? *)
Definition signalsNo (o : Choice) : bool :=
  includes (toLowerCase (opt_value o)) "no" ||
  includes (toLowerCase (opt_value o)) "false" ||
  (opt_value o =? "0") || (opt_value o =? "No") || (opt_value o =? "NO") ||
  includes (toLowerCase (opt_text o)) "no" ||
  includes (toLowerCase (opt_text o)) "false".

(** The option of a radio group that gets clicked, [yesOption]: the first
    "Yes" option, else the first option that is not a "No" option. *)
Definition chooseRadio (group : list Choice) : option Choice :=
  match find signalsYes group with
  | Some o => Some o
  | None => find (fun o => negb (signalsNo o)) group
  end.

(** The test of the loop over the options of a dropdown. *)
Definition optionYes (o : Choice) : bool :=
  includes (toLowerCase (opt_value o)) "yes" ||
  includes (toLowerCase (opt_text o)) "yes" ||
  includes (toLowerCase (opt_value o)) "true" ||
  includes (toLowerCase (opt_text o)) "true" ||
  (opt_value o =? "1").

(** The option of a dropdown that gets clicked, [selectedOption]: the first
    yes option, else the first option. *)
Definition chooseOption (options : list Choice) : option Choice :=
  match options with
  | [] => None
  | first :: _ =>
      match find optionYes options with
      | Some o => Some o
      | None => Some first
      end
  end.

(** The selects the dropdown step handles are those its first selector,
    [select:not([name*="name"]):not([name*="email"]):not([name*="phone"]):not([name*="address"])],
    matches: a select without [name], or with a [name] that has none of
    the four words in it. The other selectors of the step match [option]
    elements, which it passes over. *)
Definition dropdownMatched (name : option string) : bool :=
  match name with
  | Some n => negb (includes n "name") && negb (includes n "email") &&
              negb (includes n "phone") && negb (includes n "address")
  | None => true
  end.

(** The option the dropdown step clicks when it comes to a select with the
    given [name] and options. *)
Definition dropdownClick (name : option string) (options : list Choice)
  : option Choice :=
  if dropdownMatched name then chooseOption options else None.

Definition authKeywords : list string :=
  ["authorized"; "authorization"; "legally"; "legal"; "sponsorship"; "sponsor";
   "work permit"; "visa"; "citizenship"; "eligible"; "eligibility";
   "work authorization"; "employment authorization"; "legally authorized to work";
   "without sponsorship"].

(** [isAuthQuestion], on the lower-cased text around the control. *)
Definition isAuthQuestion (text : string) : bool :=
  existsb (fun keyword => includes text keyword) authKeywords.

(** The keywords of [authKeywords] that contain no other one. *)
Definition coreAuthKeywords : list string :=
  ["authorized"; "authorization"; "legal"; "sponsor"; "work permit"; "visa";
   "citizenship"; "eligible"; "eligibility"].

(** What the authorization block reads of a control: the lower-cased text
    around it, its tag, type and value. *)
Record Context := {
  ctx_text : string;
  ctx_tagName : string;
  ctx_type : string;
  ctx_value : string
}.

(** The authorization block clicks this radio (when it is not checked
    yet). *)
Definition authRadioClicked (c : Context) : bool :=
  isAuthQuestion (ctx_text c) &&
  ((ctx_tagName c =? "input") && (ctx_type c =? "radio")) &&
  (includes (toLowerCase (ctx_value c)) "yes" ||
   includes (toLowerCase (ctx_value c)) "true" ||
   (ctx_value c =? "1") || (ctx_value c =? "Yes") || (ctx_value c =? "YES") ||
   includes (toLowerCase (ctx_text c)) "yes" ||
   includes (toLowerCase (ctx_text c)) "true").

End Heuristics.

(* ===================================================================== *)
(** ** Application statistics ([getUserApplicationStats]) *)
(* ===================================================================== *)

Module Stats.

(** A row as the query selects it: [status] and [applied_at], the latter
    as the time [new Date(applied_at).getTime()] gives. *)
Record StatRow := {
  row_status : Status;
  applied_at : N
}.

Record UserStats := {
  total_applied : nat;
  successful : nat;
  errors : nat;
  last_applied : option N
}.

Definition has_status (s : Status) (r : StatRow) : bool :=
  match s, row_status r with
  | applied, applied | error, error | skipped, skipped
  | duplicate, duplicate => true
  | _, _ => false
  end.

(** [data.sort((a, b) => time(b) - time(a))]: a stable sort, latest
    first. *)
Fixpoint insert_desc (r : StatRow) (sorted : list StatRow) : list StatRow :=
  match sorted with
  | [] => [r]
  | x :: rest => if (applied_at x <=? applied_at r)%N then r :: sorted
                 else x :: insert_desc r rest
  end.

Fixpoint sort_desc (data : list StatRow) : list StatRow :=
  match data with
  | [] => []
  | r :: rest => insert_desc r (sort_desc rest)
  end.

(** The [stats] object built from the rows the query returned. *)
Definition stats_of (data : list StatRow) : UserStats :=
  {| total_applied := List.length data;
     successful := List.length (filter (has_status applied) data);
     errors := List.length (filter (has_status error) data);
     last_applied := match data with
                     | [] => None
                     | _ => option_map applied_at (hd_error (sort_desc data))
                     end |}.

(** [getUserApplicationStats], given the store's reply to its query. *)
Definition getUserApplicationStats (reply : Res (list StatRow)) : Res UserStats :=
  match reply with
  | Ok data => Ok (stats_of data)
  | Throw e => Throw e
  end.

End Stats.

(* ===================================================================== *)
(** ** The job run ([runAutoApplyJob], [processUser], [runManualJob]) and
    the command line ([index.ts]) *)
(* ===================================================================== *)

Module Run.
Import JS Filter Discovery Store Apply.

(** A row of the [users] table as the run reads it: the [user_id] column
    [runManualJob] selects on, and the columns the stages read, among them
    [id]. *)
Record UserRow := {
  auth_user_id : string;
  config : UserConfig
}.

(** What the run meets outside the page: the store's reply to
    [getAutoApplyUsers], whether the browser can be launched, and whether
    the update of [last_auto_applied] of a user fails. *)
Record Host := {
  users_reply : Res (list UserRow);
  launch_fault : option Exn;
  touch_fault : string -> option Exn
}.

(** The users a run gets. *)
Definition users_of (host : Host) : list UserRow :=
  match users_reply host with
  | Ok users => users
  | Throw _ => []
  end.




(** [try { m } finally { f }]: [f] runs whether [m] returned or threw; the
    outcome is that of [m] unless [f] throws. *)
Definition finally {S A} (m : Prog S A) (f : Prog S unit) : Prog S A :=
  fun s => match m s with
           | (r, s') => match f s' with
                        | (Ok _, s'') => (r, s'')
                        | (Throw e, s'') => (Throw e, s'')
                        end
           end.

Section Job.

Variable env : Env.
Variable host : Host.
Variable fillApplicationForm : UserConfig -> Prog Browser unit.

(** [supabaseManager.getAutoApplyUsers()]. *)
Definition getAutoApplyUsers : Prog World (list UserRow) :=
  fun w => (users_reply host, store_tick env w).

(** [supabaseManager.updateLastAutoApplied(userId)]. *)
Definition updateLastAutoApplied (userId : string) : Prog World unit :=
  fun w => match touch_fault host userId with
           | Some e => (Throw e, store_tick env w)
           | None => (Ok tt, store_tick env w)
           end.

(** [initialize]: launches the browser and sets [this.page], or throws
    what the launch threw. *)
Definition initialize : Prog Browser unit :=
  fun b => match launch_fault host with
           | Some e => (Throw e, b)
           | None => (Ok tt, {| page := true; trace := trace b; clock := clock b |})
           end.

(** [processUser]. *)
Definition processUser (userConfig : UserConfig) : Prog World unit :=
  try_catch
    (jobs <- liftB (searchJobs env userConfig) ;;
     match jobs with
     | [] => ret tt
     | _ =>
         let filteredJobs := filterJobs jobs userConfig in
         match filteredJobs with
         | [] => ret tt
         | _ =>
             let jobsToApply := slice0 10 filteredJobs in
             applyAll env fillApplicationForm jobsToApply userConfig (0, 0) ;;
             updateLastAutoApplied (id userConfig)
         end
     end)
    (fun e => throw e).

(** The loop over the users: an error of one user is logged and the loop
    continues with the next. *)
Fixpoint forEachUser (users : list UserRow) : Prog World unit :=
  match users with
  | [] => ret tt
  | user :: rest =>
      try_catch (processUser (config user)) (fun _ => ret tt) ;;
      forEachUser rest
  end.


(** The users [runManualJob(userId)] goes on with, or [None] where it
    returns at once: with a [userId], the users of that [user_id], if
    any. *)
Definition selectUsers (userId : option string) (users : list UserRow)
  : option (list UserRow) :=
  match userId with
  | Some i =>
      if truthy (Some i) then
        match filter (fun user => auth_user_id user =? i) users with
        | [] => None
        | selected => Some selected
        end
      else Some users
  | None => Some users
  end.

(** [runManualJob(userId)]. *)
Definition runManualJob (userId : option string) : Prog World unit :=
  finally
    (try_catch
       (users <- getAutoApplyUsers ;;
        match selectUsers userId users with
        | None => ret tt
        | Some [] => ret tt
        | Some users => liftB initialize ;; forEachUser users
        end)
       (fun _ => ret tt))
    (liftB (cleanup env)).

End Job.

(** [args.find(arg => arg.startsWith('--user='))?.split('=')[1]]. *)
Definition userArg (args : list string) : option string :=
  match find (fun arg => String.prefix "--user=" arg) args with
  | Some arg => nth_error (split "=" arg) 1
  | None => None
  end.

(** The character [=] does not occur in [s]. *)
Fixpoint no_equals (s : string) : bool :=
  match s with
  | EmptyString => true
  | String c r => negb (Ascii.eqb c "=") && no_equals r
  end.

End Run.

(* ===================================================================== *)
(** ** Further scenarios *)
(* ===================================================================== *)

Module Cases.
Import JS Filter Discovery Store Apply Scenario.

(** The clearance keywords that are not contained in another one. *)
Definition coreSecurityKeywords : list string := ["clearance"; "secret"; "ts/sci"].

(** A listing page with four cards: one with padded texts and no company,
    one without a title, one without an address, and one that repeats the
    address of the first. *)
Definition listing_cards : list Element :=
  [ {| titleText := Some "  Backend Engineer "; companyText := None;
       locationText := Some " "; href := "https://jobs.workable.com/view/a" |};
    {| titleText := None; companyText := Some "Initech";
       locationText := Some "Berlin"; href := "https://jobs.workable.com/view/b" |};
    {| titleText := Some "QA"; companyText := Some "Initech";
       locationText := Some "Berlin"; href := EmptyString |};
    {| titleText := Some "Backend Engineer (again)"; companyText := Some " Hooli ";
       locationText := None; href := "https://jobs.workable.com/view/a" |} ].

Definition listing_env : Env :=
  {| respond := fun _ _ => Found;
     elapsed := fun _ _ => 1%N;
     elements := fun _ _ => listing_cards;
     select_fault := fun _ _ _ => None;
     insert_fault := fun _ _ => None;
     store_elapsed := 1%N;
     jitter := fun _ => 0%N |}.

(** Rules whose blacklist ends in a comma. *)
Definition comma_rules : UserConfig :=
  {| id := "u3"; full_name := None; phone := None; country := None;
     search_terms := None; search_location := None;
     blacklisted_companies := Some "Acme,"; skip_keywords := None;
     skip_security_clearance := false |}.

(** The rules of the second scenario in capitals, and its posting in small
    letters. *)
Definition acme_rules_upper : UserConfig :=
  {| id := "u1"; full_name := None; phone := None; country := None;
     search_terms := None; search_location := None;
     blacklisted_companies := Some "ACME, GLOBEX"; skip_keywords := None;
     skip_security_clearance := false |}.

Definition acme_posting_lower : JobSearchResult :=
  {| title := "engineer"; company := "acme corp"; location := "Remote";
     url := "https://jobs.workable.com/view/1"; description := Some EmptyString;
     posted_date := Some EmptyString |}.

(** A rule and a posting with a letter beyond A..Z, the E with acute
    accent (capital U+00C9, small U+00E9), each in small letters and in
    capitals. *)
Definition ecole_rules : UserConfig :=
  {| id := "u1"; full_name := None; phone := None; country := None;
     search_terms := None; search_location := None;
     blacklisted_companies := Some (String "233" "cole"); skip_keywords := None;
     skip_security_clearance := false |}.

Definition ecole_rules_upper : UserConfig :=
  {| id := "u1"; full_name := None; phone := None; country := None;
     search_terms := None; search_location := None;
     blacklisted_companies := Some (String "201" "COLE"); skip_keywords := None;
     skip_security_clearance := false |}.

Definition ecole_posting : JobSearchResult :=
  {| title := "Tutor"; company := String "233" "cole 42"; location := "Paris";
     url := "https://jobs.workable.com/view/42"; description := Some EmptyString;
     posted_date := Some EmptyString |}.

Definition ecole_posting_upper : JobSearchResult :=
  {| title := "TUTOR"; company := String "201" "COLE 42"; location := "Paris";
     url := "https://jobs.workable.com/view/42"; description := Some EmptyString;
     posted_date := Some EmptyString |}.

(** A site whose pages take forty seconds to load. *)
Definition slow_env : Env :=
  {| respond := fun _ _ => Found;
     elapsed := fun _ a =>
       match a with
       | Goto _ => 40000%N
       | _ => 1%N
       end;
     elements := fun _ _ => [];
     select_fault := fun _ _ _ => None;
     insert_fault := fun _ _ => None;
     store_elapsed := 1%N;
     jitter := fun _ => 0%N |}.

(** Three postings to apply to, the last a repeat of the first. *)
Definition three_postings : list JobSearchResult :=
  [posting "a" "/jobs/1"; posting "b" "/jobs/2"; posting "c" "/jobs/1"].

(** A site with no cookie banner and no backdrop, on which only the
    placeholder selector of a first-name field matches. *)
Definition placeholder_env : Env :=
  {| respond := fun _ a =>
       match a with
       | Query sel => if (sel =? "input[placeholder*=" ++ q "first" ++ " i]")
                      then Found else Missing
       | _ => Found
       end;
     elapsed := fun _ _ => 1%N;
     elements := fun _ _ => [];
     select_fault := fun _ _ _ => None;
     insert_fault := fun _ _ => None;
     store_elapsed := 1%N;
     jitter := fun _ => 0%N |}.

(** A site whose country selector is broken: clicking the flag throws. *)
Definition flagless_env : Env :=
  {| respond := fun _ a =>
       match a with
       | Click _ => Fails (JsError "Timeout exceeded")
       | _ => Found
       end;
     elapsed := fun _ _ => 1%N;
     elements := fun _ _ => [];
     select_fault := fun _ _ _ => None;
     insert_fault := fun _ _ => None;
     store_elapsed := 1%N;
     jitter := fun _ => 0%N |}.

(** A profile whose name has three words, with white space around and
    between them; and an answer service that would say "Not specified". *)
Definition padded_user : UserConfig :=
  {| id := "u4"; full_name := Some "  Mary   Ann Smith "; phone := None;
     country := None; search_terms := None; search_location := None;
     blacklisted_companies := None; skip_keywords := None;
     skip_security_clearance := false |}.

Definition unsure : string -> string := fun _ => "Not specified".

(** A profile whose two names are separated by a no-break space (U+00A0),
    and one without a name. *)
Definition nbsp_user : UserConfig :=
  {| id := "u5"; full_name := Some ("Mary" ++ String "160" "Smith"); phone := None;
     country := None; search_terms := None; search_location := None;
     blacklisted_companies := None; skip_keywords := None;
     skip_security_clearance := false |}.

Definition nameless_user : UserConfig :=
  {| id := "u6"; full_name := None; phone := None;
     country := None; search_terms := None; search_location := None;
     blacklisted_companies := None; skip_keywords := None;
     skip_security_clearance := false |}.

(** A dropdown and a radio group with the same two options, both
    negative. *)
Definition negative_options : list Heuristics.Choice :=
  [ {| Heuristics.opt_value := "no"; Heuristics.opt_text := "No" |};
    {| Heuristics.opt_value := "none"; Heuristics.opt_text := "Prefer not to say" |} ].

Definition some_rows : list Stats.StatRow :=
  [ {| Stats.row_status := applied; Stats.applied_at := 1700000000000 |};
    {| Stats.row_status := error; Stats.applied_at := 1700000500000 |};
    {| Stats.row_status := applied; Stats.applied_at := 1700000300000 |} ].

(** A radio of a sponsorship question, with the text around it. *)
Definition sponsorship_question : Heuristics.Context :=
  {| Heuristics.ctx_text := "will you now or in the future require sponsorship? yes no";
     Heuristics.ctx_tagName := "input";
     Heuristics.ctx_type := "radio";
     Heuristics.ctx_value := "yes" |}.

(** A store with two users, and a host on which nothing fails. *)
Definition two_users_host : Run.Host :=
  {| Run.users_reply :=
       Ok [ {| Run.auth_user_id := "auth-7"; Run.config := plain_user |};
            {| Run.auth_user_id := "auth-9"; Run.config := other_user |} ];
     Run.launch_fault := None;
     Run.touch_fault := fun _ => None |}.


End Cases.

(* ===================================================================== *)
(** * Properties *)
(* ===================================================================== *)

(** ** The string primitives *)

Module JSFacts.
Import JS.

Lemma prefix_app (p s : string) :
  String.prefix p s = true <-> exists post, s = p ++ post.
Proof.
  revert s. induction p as [|a p IH]; intros s.
  - destruct s; simpl; split; eauto.
  - destruct s as [|b s]; simpl.
    + split; [discriminate | intros [post H]; discriminate].
    + destruct (ascii_dec a b) as [->|Hab].
      * rewrite IH. split; intros [post H]; exists post.
        -- now rewrite H.
        -- now injection H.
      * split; [discriminate | intros [post H]; injection H; congruence].
Qed.

Lemma includes_Occurs (s sub : string) :
  includes s sub = true <-> Occurs sub s.
Proof.
  induction s as [|c r IH].
  - split.
    + intros H. destruct sub; [|discriminate H].
      exists EmptyString, EmptyString. reflexivity.
    + intros [pre [post H]]. destruct pre; [|discriminate H].
      destruct sub; [reflexivity | discriminate H].
  - change (includes (String c r) sub)
      with (if String.prefix sub (String c r) then true else includes r sub).
    destruct (String.prefix sub (String c r)) eqn:Hp.
    + split; [intros _ | reflexivity].
      apply prefix_app in Hp. destruct Hp as [post H].
      exists EmptyString, post. exact H.
    + rewrite IH. split.
      * intros [pre [post H]]. exists (String c pre), post. simpl. now rewrite H.
      * intros [pre [post H]]. destruct pre as [|c' pre].
        -- exfalso. assert (String.prefix sub (String c r) = true) as Ht
             by (apply prefix_app; eauto).
           congruence.
        -- injection H as _ H. exists pre, post. exact H.
Qed.

Lemma lower_char_comma (c : ascii) :
  Ascii.eqb (lower_char c) "," = Ascii.eqb c ",".
Proof. destruct c as [[] [] [] [] [] [] [] []]; reflexivity. Qed.

Lemma lower_char_space (c : ascii) : is_space (lower_char c) = is_space c.
Proof. destruct c as [[] [] [] [] [] [] [] []]; reflexivity. Qed.

Lemma toLowerCase_split (s : string) :
  split "," (toLowerCase s) = map toLowerCase (split "," s).
Proof.
  induction s as [|c r IH]; simpl; [reflexivity|].
  rewrite lower_char_comma. destruct (Ascii.eqb c ","); simpl.
  - now rewrite IH.
  - rewrite IH. destruct (split "," r); reflexivity.
Qed.

Lemma toLowerCase_trimStart (s : string) :
  trimStart (toLowerCase s) = toLowerCase (trimStart s).
Proof.
  induction s as [|c r IH]; simpl; [reflexivity|].
  rewrite lower_char_space. destruct (is_space c); [exact IH | reflexivity].
Qed.

Lemma toLowerCase_trimEnd (s : string) :
  trimEnd (toLowerCase s) = toLowerCase (trimEnd s).
Proof.
  induction s as [|c r IH]; simpl; [reflexivity|].
  rewrite IH, lower_char_space.
  destruct (trimEnd r); simpl; [destruct (is_space c)|]; reflexivity.
Qed.

Lemma toLowerCase_trim (s : string) : trim (toLowerCase s) = toLowerCase (trim s).
Proof. unfold trim. now rewrite toLowerCase_trimStart, toLowerCase_trimEnd. Qed.

Lemma toLowerCase_eq_empty (s : string) :
  (toLowerCase s =? EmptyString) = (s =? EmptyString).
Proof. destruct s; reflexivity. Qed.

Lemma is_upper_capitals (c : ascii) : is_upper c = existsb (Ascii.eqb c) capitals.
Proof. destruct c as [[] [] [] [] [] [] [] []]; vm_compute; reflexivity. Qed.

Lemma small_not_upper (c : ascii) : is_upper c = true -> is_upper (small_of c) = false.
Proof. destruct c as [[] [] [] [] [] [] [] []]; vm_compute; intros H; congruence. Qed.

Lemma small_of_inv (c : ascii) :
  is_upper c = true -> ascii_of_nat (nat_of_ascii (small_of c) - 32) = c.
Proof. destruct c as [[] [] [] [] [] [] [] []]; vm_compute; intros H; congruence. Qed.

Lemma lower_char_small (c : ascii) :
  lower_char c = if is_upper c then small_of c else c.
Proof. reflexivity. Qed.

Lemma capitals_upper (k : ascii) : In k capitals <-> is_upper k = true.
Proof.
  rewrite is_upper_capitals, existsb_exists. split.
  - intros H. exists k. split; [exact H | apply Ascii.eqb_refl].
  - intros [x [Hin Hx]]. apply Ascii.eqb_eq in Hx. now subst.
Qed.

Lemma same_letter_lower (c d : ascii) :
  same_letter c d = true <-> lower_char c = lower_char d.
Proof.
  unfold same_letter. rewrite orb_true_iff, existsb_exists, Ascii.eqb_eq. split.
  - intros [-> | [k [Hk H]]]; [reflexivity|].
    apply capitals_upper in Hk. pose proof (small_not_upper k Hk) as Hs.
    apply orb_true_iff in H.
    destruct H as [H|H]; apply andb_true_iff in H; destruct H as [H1 H2];
      apply Ascii.eqb_eq in H1, H2; subst; rewrite !lower_char_small, Hk, Hs; reflexivity.
  - rewrite !lower_char_small.
    destruct (is_upper c) eqn:Hc, (is_upper d) eqn:Hd; intros H.
    + left. rewrite <- (small_of_inv c Hc), <- (small_of_inv d Hd). now rewrite H.
    + right. exists c. split; [now apply capitals_upper|].
      subst d. now rewrite !Ascii.eqb_refl.
    + right. exists d. split; [now apply capitals_upper|].
      subst c. rewrite !Ascii.eqb_refl. simpl. now rewrite orb_true_r.
    + now left.
Qed.

Lemma same_text_lower (a b : string) :
  SameText a b <-> toLowerCase a = toLowerCase b.
Proof.
  unfold SameText. revert b. induction a as [|c a IH]; intros [|d b]; simpl;
    try (split; discriminate); [tauto|].
  rewrite andb_true_iff, same_letter_lower, IH. split.
  - intros [-> ->]. reflexivity.
  - intros H. injection H as H1 H2. auto.
Qed.

Lemma lower_app (a b : string) :
  toLowerCase (a ++ b) = toLowerCase a ++ toLowerCase b.
Proof. induction a as [|c a IH]; simpl; [reflexivity | now rewrite IH]. Qed.

Lemma lower_app_inv (s a b : string) :
  toLowerCase s = a ++ b ->
  exists s1 s2, s = s1 ++ s2 /\ toLowerCase s1 = a /\ toLowerCase s2 = b.
Proof.
  revert s. induction a as [|c a IH]; intros s H.
  - exists EmptyString, s. auto.
  - destruct s as [|d s]; [discriminate H|]. simpl in H. injection H as Hc H.
    destruct (IH s H) as [s1 [s2 [-> [H1 H2]]]].
    exists (String d s1), s2. simpl. rewrite Hc, H1. auto.
Qed.

Lemma OccursCI_includes (sub s : string) :
  OccursCI sub s <-> includes (toLowerCase s) (toLowerCase sub) = true.
Proof.
  rewrite includes_Occurs. unfold OccursCI, Occurs. split.
  - intros [pre [mid [post [-> Hsame]]]]. apply same_text_lower in Hsame.
    exists (toLowerCase pre), (toLowerCase post).
    now rewrite !lower_app, Hsame.
  - intros [p [q H]].
    destruct (lower_app_inv _ _ _ H) as [pre [rest [-> [_ Hrest]]]].
    destruct (lower_app_inv _ _ _ Hrest) as [mid [post [-> [Hmid _]]]].
    exists pre, mid, post. split; [reflexivity | now apply same_text_lower].
Qed.

Lemma blank_app (a b : string) : blank (a ++ b) = blank a && blank b.
Proof.
  induction a as [|c a IH]; simpl; [reflexivity|]. now rewrite IH, andb_assoc.
Qed.

Lemma trimStart_blank (l s : string) : blank l = true -> trimStart (l ++ s) = trimStart s.
Proof.
  induction l as [|c l IH]; simpl; [reflexivity|].
  intros H. apply andb_true_iff in H. destruct H as [Hc Hl]. rewrite Hc. auto.
Qed.

Lemma trimStart_all_blank (s : string) : blank s = true -> trimStart s = EmptyString.
Proof.
  induction s as [|c s IH]; simpl; [reflexivity|].
  intros H. apply andb_true_iff in H. destruct H as [Hc Hl]. rewrite Hc. auto.
Qed.

Lemma trimStart_parts (s : string) :
  exists l, s = l ++ trimStart s /\ blank l = true.
Proof.
  induction s as [|c s [l [Hs Hl]]]; [exists EmptyString; auto|].
  simpl. destruct (is_space c) eqn:Hc.
  - exists (String c l). simpl. rewrite Hc, Hl. split; [now rewrite <- Hs | reflexivity].
  - exists EmptyString. auto.
Qed.

Lemma trimEnd_all_blank (s : string) : blank s = true <-> trimEnd s = EmptyString.
Proof.
  induction s as [|c s IH]; simpl; [tauto|].
  destruct (trimEnd s) eqn:Ht.
  - destruct (is_space c); simpl; [rewrite IH; tauto | split; discriminate].
  - split; [|discriminate]. intros H. apply andb_true_iff in H.
    destruct H as [_ H]. apply IH in H. discriminate H.
Qed.

Lemma trimEnd_blank (s r : string) : blank r = true -> trimEnd (s ++ r) = trimEnd s.
Proof.
  intros Hr. induction s as [|c s IH]; simpl.
  - now apply trimEnd_all_blank.
  - now rewrite IH.
Qed.

Lemma trimEnd_parts (s : string) :
  exists r, s = trimEnd s ++ r /\ blank r = true.
Proof.
  induction s as [|c s [r [Hs Hr]]]; [exists EmptyString; auto|].
  simpl. destruct (trimEnd s) as [|a t] eqn:Ht.
  - simpl in Hs. subst r. destruct (is_space c) eqn:Hc.
    + exists (String c s). simpl. now rewrite Hc, Hr.
    + exists s. auto.
  - exists r. split; [|exact Hr]. rewrite Hs at 1. reflexivity.
Qed.

(** A text that does not end in white space is left by [trimEnd]. *)
Lemma trimEnd_bare (s : string) :
  (forall rest c, s = rest ++ String c EmptyString -> is_space c = false) ->
  trimEnd s = s.
Proof.
  induction s as [|c s IH]; intros H; [reflexivity|]. simpl.
  destruct s as [|d s].
  - simpl. now rewrite (H EmptyString c eq_refl).
  - rewrite IH.
    + reflexivity.
    + intros rest x Hx. apply (H (String c rest) x). simpl. now rewrite Hx.
Qed.

Lemma trimEnd_last (s rest : string) (c : ascii) :
  trimEnd s = rest ++ String c EmptyString -> is_space c = false.
Proof.
  revert rest. induction s as [|d s IH]; intros rest; simpl.
  - destruct rest; discriminate.
  - destruct (trimEnd s) as [|e t] eqn:Ht.
    + destruct (is_space d) eqn:Hd; [destruct rest; discriminate|].
      intros H. destruct rest as [|x rest]; simpl in H.
      * injection H as <-. exact Hd.
      * injection H as _ H. destruct rest; discriminate H.
    + intros H. destruct rest as [|x rest]; simpl in H.
      * discriminate H.
      * injection H as _ H. apply (IH rest). exact H.
Qed.

Lemma trimStart_first (s : string) (c : ascii) (rest : string) :
  trimStart s = String c rest -> is_space c = false.
Proof.
  induction s as [|d s IH]; simpl; [discriminate|].
  destruct (is_space d) eqn:Hd; [exact IH|]. intros H. injection H as <- _. exact Hd.
Qed.

Lemma trimEnd_first (s : string) (c : ascii) (rest : string) :
  (forall d r, s = String d r -> is_space d = false) ->
  trimEnd s = String c rest -> is_space c = false.
Proof.
  destruct s as [|d s]; simpl; [discriminate|]. intros H.
  destruct (trimEnd s); [destruct (is_space d) eqn:Hd; [discriminate|]|];
    intros E; injection E as <- _; apply (H d s eq_refl).
Qed.

Lemma trim_empty_blank (raw : string) : trim raw = EmptyString -> blank raw = true.
Proof.
  unfold trim. intros H. destruct (trimStart_parts raw) as [l [Hs Hl]].
  apply trimEnd_all_blank in H. rewrite Hs, blank_app, Hl, H. reflexivity.
Qed.

Lemma existsb_Permutation {A} (f : A -> bool) (l l' : list A) :
  Permutation l l' -> existsb f l = existsb f l'.
Proof.
  induction 1; simpl; try congruence.
  destruct (f x), (f y); reflexivity.
Qed.

End JSFacts.

(** ** Eligibility filter *)

Module FilterFacts.
Import JS JSFacts Filter Scenario.

Lemma comma_free_empty : comma_free EmptyString.
Proof. intros [pre [post H]]. destruct pre; discriminate H. Qed.

Lemma comma_free_cons (c : ascii) (r : string) :
  comma_free (String c r) <-> Ascii.eqb c "," = false /\ comma_free r.
Proof.
  unfold comma_free, Occurs. split.
  - intros H. split.
    + destruct (Ascii.eqb c ",") eqn:Hc; [|reflexivity].
      apply Ascii.eqb_eq in Hc. subst. elim H. exists EmptyString, r. reflexivity.
    + intros [pre [post ->]]. apply H. exists (String c pre), post. reflexivity.
  - intros [Hc Hr] [pre [post H]]. destruct pre as [|d pre]; simpl in H.
    + injection H as Hx _. subst c. rewrite Ascii.eqb_refl in Hc. discriminate Hc.
    + injection H as _ H. apply Hr. exists pre, post. exact H.
Qed.

Lemma split_free (h : string) : comma_free h -> split "," h = [h].
Proof.
  induction h as [|c r IH]; intros H; [reflexivity|].
  apply comma_free_cons in H. destruct H as [Hc Hr]. simpl. rewrite Hc.
  now rewrite (IH Hr).
Qed.

Lemma split_first (h rest : string) :
  comma_free h -> split "," (h ++ "," ++ rest) = h :: split "," rest.
Proof.
  induction h as [|c r IH]; intros H; [reflexivity|].
  apply comma_free_cons in H. destruct H as [Hc Hr]. simpl. rewrite Hc.
  simpl in IH. now rewrite (IH Hr).
Qed.

Lemma split_head (f : string) :
  exists h, comma_free h /\
            ((f = h /\ split "," f = [h]) \/
             exists rest, f = h ++ "," ++ rest /\ split "," f = h :: split "," rest).
Proof.
  induction f as [|c r IH].
  - exists EmptyString. split; [apply comma_free_empty | left; auto].
  - destruct (Ascii.eqb c ",") eqn:Hc.
    + apply Ascii.eqb_eq in Hc. subst c. exists EmptyString.
      split; [apply comma_free_empty|]. right. exists r. split; reflexivity.
    + destruct IH as [h [Hh [[-> Hs] | [rest [-> Hs]]]]];
        exists (String c h); (split; [apply comma_free_cons; auto|]).
      * left. split; [reflexivity|]. simpl. now rewrite Hc, Hs.
      * right. exists rest. split; [reflexivity|]. simpl. simpl in Hs.
        now rewrite Hc, Hs.
Qed.

Lemma length_app_text (a b : string) :
  String.length (a ++ b) = String.length a + String.length b.
Proof. induction a as [|c a IH]; simpl; [reflexivity | now rewrite IH]. Qed.

Lemma split_Piece (raw f : string) : In raw (split "," f) <-> Piece raw f.
Proof.
  split.
  - remember (String.length f) as n eqn:Hn. revert f Hn raw.
    induction n as [n IH] using lt_wf_ind. intros f Hn raw Hin.
    destruct (split_head f) as [h [Hh [[-> Hs] | [rest [-> Hs]]]]]; rewrite Hs in Hin.
    + destruct Hin as [<-|[]]. now constructor.
    + destruct Hin as [<-|Hin]; [now constructor|].
      apply piece_later; [exact Hh|].
      apply (IH (String.length rest)); [|reflexivity | exact Hin].
      subst n. rewrite !length_app_text. simpl. lia.
  - induction 1 as [Hf | rest Hf | first rest Hf Hp IH].
    + rewrite (split_free raw Hf). now left.
    + rewrite (split_first raw rest Hf). now left.
    + rewrite (split_first first rest Hf). now right.
Qed.

Lemma trim_Stripped (name raw : string) : Stripped name raw <-> name = trim raw.
Proof.
  unfold Stripped, trim. split.
  - intros [[l [r [-> [Hl Hr]]]] [Hfirst Hlast]].
    rewrite (trimStart_blank l _ Hl). destruct name as [|c rest].
    + simpl. rewrite (trimStart_all_blank r Hr). reflexivity.
    + simpl trimStart. rewrite (Hfirst c rest eq_refl).
      change (String c (rest ++ r)) with (String c rest ++ r).
      rewrite (trimEnd_blank _ r Hr). symmetry. now apply trimEnd_bare.
  - intros ->. split; [|split].
    + destruct (trimStart_parts raw) as [l [Hs Hl]].
      destruct (trimEnd_parts (trimStart raw)) as [r [Ht Hr]].
      exists l, r. split; [|auto]. rewrite <- Ht. exact Hs.
    + intros c rest H.
      apply (trimEnd_first (trimStart raw) c rest);
        [intros d r; apply trimStart_first | now symmetry].
    + intros rest c H. apply (trimEnd_last (trimStart raw) rest c). now symmetry.
Qed.

Lemma entries_lower (field : string) :
  entries field = map toLowerCase (map trim (split "," field)).
Proof.
  unfold entries. rewrite toLowerCase_split, !map_map.
  apply map_ext. intros s. apply toLowerCase_trim.
Qed.

(** A rule given as a comma-separated list without blank piece matches a
    text exactly when one of the substrings it lists occurs in the text,
    letter case ignored. *)
Lemma rule_match (field : option string) (text : string) :
  NoBlankPiece field ->
  (match field with
   | Some f => if truthy (Some f)
               then existsb (fun e => includes (toLowerCase text) e) (entries f)
               else false
   | None => false
   end = true <->
   exists e, Listed field e /\ OccursCI e text).
Proof.
  destruct field as [f|]; simpl; [|intros _; split; [discriminate | intros [e [[] _]]]].
  intros Hwf. destruct (f =? EmptyString) eqn:Hf; simpl.
  - apply String.eqb_eq in Hf. subst f. split; [discriminate|].
    intros [e [[Hne [raw [Hp Hs]]] _]]. apply split_Piece in Hp.
    destruct Hp as [<-|[]]. apply trim_Stripped in Hs. now elim Hne.
  - apply String.eqb_neq in Hf. destruct Hwf as [Hwf|Hwf]; [now elim Hf|].
    rewrite existsb_exists, entries_lower. split.
    + intros [x [Hin Hinc]]. apply in_map_iff in Hin. destruct Hin as [e [<- Hin]].
      apply in_map_iff in Hin. destruct Hin as [raw [<- Hin]].
      apply split_Piece in Hin. exists (trim raw). split.
      * split; [|exists raw; split; [exact Hin | now apply trim_Stripped]].
        intros He. apply trim_empty_blank in He. rewrite (Hwf raw Hin) in He.
        discriminate He.
      * now apply OccursCI_includes.
    + intros [e [[_ [raw [Hp Hs]]] Hocc]]. apply trim_Stripped in Hs. subst e.
      exists (toLowerCase (trim raw)). split.
      * apply in_map, in_map. now apply split_Piece.
      * now apply OccursCI_includes.
Qed.

Lemma company_check_iff (R : UserConfig) (P : JobSearchResult) :
  NoBlankPiece (blacklisted_companies R) ->
  (company_check R P = true <-> BlacklistedEmployer R P).
Proof. unfold company_check, BlacklistedEmployer. apply rule_match. Qed.

Lemma keyword_check_iff (R : UserConfig) (P : JobSearchResult) (d : string) :
  NoBlankPiece (skip_keywords R) -> description P = Some d ->
  (keyword_check R P = true <-> BlacklistedKeyword R P).
Proof.
  unfold keyword_check, BlacklistedKeyword, keyword_text, posting_text.
  intros Hwf ->. simpl render. simpl text_of. now apply rule_match.
Qed.

Lemma securityKeywords_lower (k : string) :
  In k securityKeywords -> toLowerCase k = k.
Proof.
  simpl. intros H. repeat (destruct H as [<-|H]; [reflexivity|]). destruct H.
Qed.

Lemma clearance_check_iff (R : UserConfig) (P : JobSearchResult) (d : string) :
  description P = Some d ->
  (clearance_check R P = true <-> ClearanceInTitleOrDescription R P).
Proof.
  unfold clearance_check, ClearanceInTitleOrDescription, clearance_text.
  intros ->. simpl render. simpl text_of.
  destruct (skip_security_clearance R).
  - rewrite existsb_exists. split.
    + intros [k [Hin Hinc]]. split; [reflexivity|]. exists k. split; [exact Hin|].
      apply OccursCI_includes. now rewrite (securityKeywords_lower k Hin).
    + intros [_ [k [Hin Hocc]]]. exists k. split; [exact Hin|].
      apply OccursCI_includes in Hocc. now rewrite (securityKeywords_lower k Hin) in Hocc.
  - split; [discriminate | intros [H _]; discriminate].
Qed.

Lemma keep_checks (R : UserConfig) (P : JobSearchResult) :
  keep R P = negb (existsb (fun chk => chk R P) exclusion_checks).
Proof.
  unfold keep, exclusion_checks. simpl.
  destruct (company_check R P), (keyword_check R P), (clearance_check R P); reflexivity.
Qed.

(** C5, as amended. [filterJobs] is a function of the postings and the
    rules alone. For rules whose lists have no blank piece and a posting
    that has a description, [filterJobs [P] R] drops [P] exactly when an
    exclusion predicate matches with letter case ignored: a substring the
    employer blacklist lists occurs in the employer name, or a keyword the
    keyword list lists occurs in the title, employer and description text,
    or the clearance rule is on and a clearance keyword occurs in the
    title+description text; otherwise [P] is kept. The order in which the
    three checks are made does not change the result. *)
Theorem filterJobs_sound (P : JobSearchResult) (R : UserConfig) :
  NoBlankPiece (blacklisted_companies R) ->
  NoBlankPiece (skip_keywords R) ->
  description P <> None ->
  (filterJobs [P] R = [] <->
     BlacklistedEmployer R P \/ BlacklistedKeyword R P \/
     ClearanceInTitleOrDescription R P) /\
  (filterJobs [P] R = [P] <->
     ~ (BlacklistedEmployer R P \/ BlacklistedKeyword R P \/
        ClearanceInTitleOrDescription R P)) /\
  (forall checks jobs,
     Permutation checks exclusion_checks ->
     filterJobsBy checks jobs R = filterJobs jobs R).
Proof.
  intros Hb Hk Hd. destruct (description P) as [d|] eqn:Hdesc; [|now elim Hd].
  assert (keep R P = false <->
          BlacklistedEmployer R P \/ BlacklistedKeyword R P \/
          ClearanceInTitleOrDescription R P) as Hkeep.
  { rewrite <- (company_check_iff R P Hb), <- (keyword_check_iff R P d Hk Hdesc),
      <- (clearance_check_iff R P d Hdesc).
    unfold keep.
    destruct (company_check R P), (keyword_check R P), (clearance_check R P);
      intuition discriminate. }
  split; [|split].
  - rewrite <- Hkeep. unfold filterJobs. simpl.
    destruct (keep R P); split; congruence.
  - rewrite <- Hkeep. unfold filterJobs. simpl.
    destruct (keep R P); split; congruence.
  - intros checks jobs Hperm. unfold filterJobsBy, filterJobs.
    apply filter_ext. intros job. rewrite keep_checks.
    f_equal. now apply existsb_Permutation.
Qed.

Lemma filterJobs_sound_witness :
  (filterJobs [acme_posting] acme_rules = [] <->
     BlacklistedEmployer acme_rules acme_posting \/
     BlacklistedKeyword acme_rules acme_posting \/
     ClearanceInTitleOrDescription acme_rules acme_posting) /\
  filterJobsBy [clearance_check; company_check; keyword_check] [acme_posting] acme_rules
  = filterJobs [acme_posting] acme_rules.
Proof.
  assert (Permutation [clearance_check; company_check; keyword_check] exclusion_checks)
    as Hperm.
  { unfold exclusion_checks.
    apply Permutation_trans with (l' := [company_check; clearance_check; keyword_check]).
    - apply perm_swap.
    - apply perm_skip. apply perm_swap. }
  assert (NoBlankPiece (blacklisted_companies acme_rules)) as Hb.
  { right. intros raw Hp. apply split_Piece in Hp.
    destruct Hp as [<-|[<-|[]]]; reflexivity. }
  destruct (filterJobs_sound acme_posting acme_rules Hb I) as [H1 [_ H3]].
  - discriminate.
  - split; [exact H1 | exact (H3 _ _ Hperm)].
Defined.

(** C5, the claim as stated fails. Under the clearance rule, a cashier's
    posting of the employer "Clearance Outlet" has a clearance keyword in
    its text, in the employer name, and [filterJobs] keeps it: the clearance
    check reads the title and the description only. *)
Lemma clearance_in_employer_kept :
  ClearanceRequired clearance_rules outlet_posting /\
  filterJobs [outlet_posting] clearance_rules = [outlet_posting] /\
  ~ (filterJobs [outlet_posting] clearance_rules = [] <->
     BlacklistedEmployer clearance_rules outlet_posting \/
     BlacklistedKeyword clearance_rules outlet_posting \/
     ClearanceRequired clearance_rules outlet_posting).
Proof.
  assert (ClearanceRequired clearance_rules outlet_posting) as Hc.
  { split; [reflexivity|]. exists "clearance". split; [simpl; tauto|].
    exists "Cashier ", "Clearance", " Outlet ". split; reflexivity. }
  assert (filterJobs [outlet_posting] clearance_rules = [outlet_posting]) as Hk
    by (vm_compute; reflexivity).
  split; [exact Hc|]. split; [exact Hk|].
  intros [_ H]. rewrite Hk in H. discriminate H. auto.
Qed.

(** What the amended statement leaves out. A posting without description
    is searched as if its description were the word "undefined": under the
    keyword "fine" it is dropped, though the keyword is nowhere in its
    title and employer name. *)
Example missing_description_reads_undefined :
  filterJobs [bare_posting] fine_rules = [] /\
  ~ BlacklistedKeyword fine_rules bare_posting.
Proof.
  split; [vm_compute; reflexivity|].
  intros [k [[_ [raw [Hp Hs]]] Hocc]]. apply split_Piece in Hp.
  destruct Hp as [<-|[]]. apply trim_Stripped in Hs. subst k.
  apply OccursCI_includes in Hocc. vm_compute in Hocc. discriminate Hocc.
Qed.

(** The second scenario: "ACME Corp" is dropped under the rule
    "Acme, Globex". *)
Example filterJobs_acme : filterJobs [acme_posting] acme_rules = [].
Proof. vm_compute. reflexivity. Qed.

(** A trailing comma leaves an empty entry, which occurs in every name. *)
Example entries_trailing_comma : entries "Acme," = ["acme"; EmptyString].
Proof. reflexivity. Qed.

End FilterFacts.

(** ** Discovery stage *)

Module DiscoveryFacts.
Import JS Discovery Scenario.

Section FindIndex.

Context {A : Type} (p : A -> bool).

Lemma findIndex_app_l (pre l : list A) :
  existsb p pre = true ->
  exists k, findIndex p (pre ++ l) = Some k /\ k < List.length pre.
Proof.
  induction pre as [|x pre IH]; simpl; [discriminate|].
  destruct (p x); simpl.
  - intros _. exists 0. split; [reflexivity | lia].
  - intros H. destruct (IH H) as [k [Hk Hlt]]. rewrite Hk.
    exists (S k). split; [reflexivity | lia].
Qed.

Lemma findIndex_app_here (pre l : list A) (x : A) :
  existsb p pre = false -> p x = true ->
  findIndex p (pre ++ x :: l) = Some (List.length pre).
Proof.
  induction pre as [|y pre IH]; simpl; intros Hpre Hx.
  - now rewrite Hx.
  - destruct (p y); [discriminate|]. simpl in Hpre. now rewrite (IH Hpre Hx).
Qed.

End FindIndex.

Lemma uniqueJobs_from (l pre : list JobSearchResult) (seen : list string)
  (results : list JobSearchResult) :
  results = (pre ++ l)%list -> Seen seen pre ->
  filter_from (first_of results) (List.length pre) l = dedupSeen seen l.
Proof.
  revert pre seen. induction l as [|x r IH]; intros pre seen Hres Hseen; simpl.
  - reflexivity.
  - assert (results = ((pre ++ [x]) ++ r)%list) as Hres'
      by (rewrite Hres, <- app_assoc; reflexivity).
    assert (List.length (pre ++ [x]) = S (List.length pre)) as Hlen
      by (rewrite length_app; simpl; lia).
    rewrite (Hseen (url x)). unfold first_of at 1.
    destruct (existsb (fun j => url j =? url x) pre) eqn:Hex.
    + destruct (findIndex_app_l (fun j => url j =? url x) pre (x :: r) Hex)
        as [k [Hk Hlt]].
      rewrite <- Hres in Hk. rewrite Hk.
      replace (List.length pre =? k)%nat with false
        by (symmetry; apply Nat.eqb_neq; lia).
      rewrite <- Hlen. apply IH; [exact Hres'|].
      intros u. rewrite existsb_app, (Hseen u). simpl.
      destruct (url x =? u) eqn:Hu; [|now rewrite !orb_false_r].
      apply String.eqb_eq in Hu. subst u. rewrite Hex. reflexivity.
    + assert (findIndex (fun j => url j =? url x) results = Some (List.length pre))
        as Hk by (rewrite Hres; apply findIndex_app_here;
                  [exact Hex | apply String.eqb_refl]).
      rewrite Hk, Nat.eqb_refl. f_equal.
      rewrite <- Hlen. apply IH; [exact Hres'|].
      intros u. rewrite existsb_app. simpl. rewrite (Hseen u), orb_false_r.
      rewrite String.eqb_sym. apply orb_comm.
Qed.

(** The index test of the code keeps exactly the first posting of each
    address. *)
Lemma uniqueJobs_dedup (results : list JobSearchResult) :
  uniqueJobs results = dedupByUrl results.
Proof.
  unfold uniqueJobs, dedupByUrl.
  apply (uniqueJobs_from results [] [] results); [reflexivity|].
  intros u. reflexivity.
Qed.

Lemma dedupSeen_unseen (l : list JobSearchResult) (seen : list string)
  (j : JobSearchResult) :
  In j (dedupSeen seen l) -> existsb (String.eqb (url j)) seen = false.
Proof.
  revert seen. induction l as [|x r IH]; intros seen; simpl; [tauto|].
  destruct (existsb (String.eqb (url x)) seen) eqn:Hx.
  - apply IH.
  - intros [<-|Hin]; [exact Hx|].
    apply IH in Hin. simpl in Hin. now apply orb_false_iff in Hin.
Qed.

Lemma dedupSeen_NoDup (l : list JobSearchResult) (seen : list string) :
  NoDup (map url (dedupSeen seen l)).
Proof.
  revert seen. induction l as [|x r IH]; intros seen; simpl; [constructor|].
  destruct (existsb (String.eqb (url x)) seen); [apply IH|].
  simpl. constructor; [|apply IH].
  intros Hin. apply in_map_iff in Hin. destruct Hin as [j [Hj Hin]].
  apply dedupSeen_unseen in Hin. simpl in Hin.
  apply orb_false_iff in Hin. destruct Hin as [Hne _].
  apply String.eqb_neq in Hne. congruence.
Qed.

Lemma NoDup_firstn_list {A} (n : nat) (l : list A) : NoDup l -> NoDup (firstn n l).
Proof.
  revert n. induction l as [|x r IH]; intros [|n] H; simpl; try constructor.
  - inversion H as [|? ? Hx Hr]; subst. intros Hin. apply Hx.
    rewrite <- (firstn_skipn n r). apply in_or_app. now left.
  - inversion H; subst. now apply IH.
Qed.

(** The first posting of every address is kept and in the order of the
    raw extraction: an address of the raw extraction is an address of the
    deduplicated list. *)
Lemma dedupSeen_complete (l : list JobSearchResult) (seen : list string) (u : string) :
  In u (map url l) -> existsb (String.eqb u) seen = false ->
  In u (map url (dedupSeen seen l)).
Proof.
  revert seen. induction l as [|x r IH]; intros seen; simpl; [tauto|].
  intros [Hx|Hin] Hseen.
  - subst u. rewrite Hseen. now left.
  - destruct (existsb (String.eqb (url x)) seen) eqn:Hx.
    + now apply IH.
    + simpl. destruct (String.eqb u (url x)) eqn:Hu.
      * left. apply String.eqb_eq in Hu. congruence.
      * right. apply IH; [exact Hin|]. simpl. now rewrite Hu.
Qed.

Lemma limitUnique_NoDup_le (raw : list JobSearchResult) :
  NoDup (map url (limitUnique raw)) /\ List.length (limitUnique raw) <= 10.
Proof.
  unfold limitUnique, slice0. rewrite uniqueJobs_dedup. split.
  - rewrite <- firstn_map. apply NoDup_firstn_list, dedupSeen_NoDup.
  - rewrite length_firstn. apply Nat.le_min_l.
Qed.



Example limitUnique_twelve :
  map title (limitUnique twelve_raw) = ["a"; "b"; "d"; "e"; "f"; "h"; "i"; "j"; "k"; "l"].
Proof. reflexivity. Qed.

(** The cap comes after the deduplication: truncating first would leave 8. *)
Example cap_before_dedup_differs :
  List.length (uniqueJobs (slice0 10 twelve_raw)) = 8.
Proof. reflexivity. Qed.

End DiscoveryFacts.

(** ** [searchJobs] as a whole *)

Module SearchFacts.
Import JS Discovery Scenario.

Section Facts.

Variable env : Env.

Lemma findJobCards_missing (b : Browser) :
  (forall tr sel, In sel cardSelectors ->
                  respond env tr (WaitForSelector sel 5000) <> Found) ->
  exists e b', findJobCards env b = (Throw e, b').
Proof.
  intros Hnone. unfold findJobCards, try_catch, waitForSelector, bind, perform, throw.
  repeat match goal with
         | |- context [respond env ?tr ?a] =>
             let H := fresh "H" in
             destruct (respond env tr a) eqn:H;
             [exfalso; refine (Hnone _ _ _ H); unfold cardSelectors, In; auto 6 | | ];
             cbn [ret]
         end; eauto.
Qed.

End Facts.

(** C7, as the code has it. Once the browser page is initialised,
    [searchJobs] never throws to its caller: it returns a list, and the
    list is empty whenever its [try] block throws, which it does in
    particular when no listing container appears within any of the four
    fallback waits. *)
Theorem searchJobs_never_throws (env : Env) (userConfig : UserConfig) (b : Browser) :
  page b = true ->
  (exists jobs b', searchJobs env userConfig b = (Ok jobs, b')) /\
  (forall e b', search env userConfig b = (Throw e, b') ->
                searchJobs env userConfig b = (Ok [], b')) /\
  ((forall tr sel, In sel cardSelectors ->
                   respond env tr (WaitForSelector sel 5000) <> Found) ->
   fst (searchJobs env userConfig b) = Ok []).
Proof.
  intros Hpage. unfold searchJobs, require_page, try_catch. rewrite Hpage.
  split; [|split].
  - destruct (search env userConfig b) as [[jobs|e] b']; unfold ret; eauto.
  - intros e b' H. now rewrite H.
  - intros Hnone. unfold search, bind.
    destruct (perform env (Goto (searchUrl userConfig)) b) as [[found|e] b1];
      [|reflexivity].
    destruct (findJobCards_missing env b1 Hnone) as [e [b2 H]].
    now rewrite H.
Qed.

Lemma searchJobs_never_throws_witness :
  page ready_browser = true /\
  (exists jobs b', searchJobs steady_env plain_user ready_browser = (Ok jobs, b')) /\
  fst (searchJobs barren_env plain_user ready_browser) = Ok [].
Proof.
  split; [reflexivity|]. split.
  - exact (proj1 (searchJobs_never_throws steady_env plain_user ready_browser eq_refl)).
  - apply (proj2 (proj2 (searchJobs_never_throws barren_env plain_user ready_browser
                           eq_refl))).
    intros tr sel _. discriminate.
Defined.

(** C7 as stated fails: called before [initialize()], [searchJobs] meets
    its guard and throws to its caller. *)
Lemma searchJobs_throws_uninitialised :
  searchJobs steady_env plain_user fresh_browser
  = (Throw (JsError "Browser not initialized"), fresh_browser) /\
  ~ (forall env userConfig b, exists jobs b',
        searchJobs env userConfig b = (Ok jobs, b')).
Proof.
  split; [reflexivity|].
  intros H. destruct (H steady_env plain_user fresh_browser) as [jobs [b' Heq]].
  discriminate Heq.
Qed.

(** What [searchJobs] returns is deduplicated and capped. *)
Lemma searchJobs_output (env : Env) (userConfig : UserConfig) (b : Browser) :
  match fst (searchJobs env userConfig b) with
  | Ok jobs => NoDup (map url jobs) /\ List.length jobs <= 10
  | Throw _ => page b = false
  end.
Proof.
  unfold searchJobs, require_page, try_catch. destruct (page b); [|reflexivity].
  unfold search, bind.
  destruct (perform env (Goto (searchUrl userConfig)) b) as [[found|e] b1];
    [|simpl; split; [constructor | lia]].
  destruct (findJobCards env b1) as [[sel|e] b2]; [|simpl; split; [constructor | lia]].
  unfold evaluate.
  destruct (respond env (trace b2) (Evaluate sel)); simpl;
    try (split; [constructor | lia]);
    apply DiscoveryFacts.limitUnique_NoDup_le.
Qed.

(** C10. [searchJobs] does not read [userConfig] when it builds the query:
    the search terms and the location are fixed, so any two user
    configurations give the same search address, and the same run of
    [searchJobs] on the same site and session. *)
Theorem searchJobs_ignores_userConfig (env : Env) (u1 u2 : UserConfig) (b : Browser) :
  searchTerms = "software engineer developer programmer" /\
  searchLocation = "Remote" /\
  searchUrl u1 =
    "https://jobs.workable.com/search?q=software%20engineer%20developer%20programmer&location=Remote" /\
  searchUrl u1 = searchUrl u2 /\
  searchJobs env u1 b = searchJobs env u2 b.
Proof. repeat split. Qed.

(** Two users with different search preferences get the same address. *)
Example searchUrl_same : searchUrl plain_user = searchUrl other_user.
Proof. reflexivity. Qed.

End SearchFacts.

(** ** Application stage *)

Module ApplyFacts.
Import JS Store Apply Scenario.

Lemma liftB_ledger {A} (m : Prog Browser A) (w : World) :
  ledger (snd (liftB m w)) = ledger w.
Proof. unfold liftB. destruct (m (browser w)). reflexivity. Qed.

(** A step on the page alone: whatever it returns, the ledger is the same
    afterwards. *)
Lemma bind_liftB {A B} (m : Prog Browser A) (k : A -> Prog World B)
  (w : World) (r : Res B) (w' : World) :
  bind (liftB m) k w = (r, w') ->
  (exists e w1, r = Throw e /\ w' = w1 /\ ledger w1 = ledger w) \/
  (exists a w1, ledger w1 = ledger w /\ k a w1 = (r, w')).
Proof.
  unfold bind. pose proof (liftB_ledger m w) as Hl.
  destruct (liftB m w) as [[a|e] w1]; simpl in Hl; intros H.
  - right. eauto.
  - left. injection H as <- <-. eauto.
Qed.

(** The query of [hasAppliedToJob] finds a row exactly when the table has
    one for the user and the address, whatever its status. *)
Lemma select_rows_nonempty (userId jobUrl : string) (table : list AppliedJob) :
  (0 <? List.length (select_rows userId jobUrl table))%nat
  = existsb (matches userId jobUrl) table.
Proof.
  unfold select_rows. induction table as [|r t IH]; simpl; [reflexivity|].
  destruct (matches userId jobUrl r); simpl; [reflexivity | exact IH].
Qed.

Lemma matches_iff (userId jobUrl : string) (table : list AppliedJob) :
  existsb (matches userId jobUrl) table = true <->
  exists r, In r table /\ user_id r = userId /\ job_url r = jobUrl.
Proof.
  rewrite existsb_exists. unfold matches.
  split; intros [r [Hin H]]; exists r; split; try exact Hin.
  - apply andb_true_iff in H. now rewrite <- !String.eqb_eq.
  - apply andb_true_iff. now rewrite !String.eqb_eq.
Qed.

Section Facts.

Variable env : Env.
Variable fillApplicationForm : UserConfig -> Prog Browser unit.

Lemma logApplication_outcome (application : AppliedJob) (w : World)
  (r : Res AppliedJob) (w' : World) :
  logApplication env application w = (r, w') ->
  (r = Ok application /\ ledger w' = (ledger w ++ [application])%list /\
   existsb (matches (user_id application) (job_url application)) (ledger w) = false) \/
  (exists e, r = Throw e /\ ledger w' = ledger w).
Proof.
  unfold logApplication.
  destruct (insert_fault env (ledger w) application) as [e|].
  - intros H. injection H as <- <-. right. eauto.
  - destruct (existsb _ (ledger w)) eqn:Hex; intros H; injection H as <- <-.
    + right. eauto.
    + left. auto.
Qed.

(** From the navigation on, an attempt either ends applied with its one
    row appended, or throws with the ledger as it was. *)
Lemma navigateAndSubmit_outcome (job : JobSearchResult) (userConfig : UserConfig)
  (w : World) (r : Res ApplicationResult) (w' : World) :
  navigateAndSubmit env fillApplicationForm job userConfig w = (r, w') ->
  (r = Ok (appliedResult job) /\
   ledger w' = (ledger w ++ [appliedRecord job userConfig])%list) \/
  (exists e, r = Throw e /\ ledger w' = ledger w).
Proof.
  unfold navigateAndSubmit. intros H.
  repeat match type of H with
         | bind (liftB _) _ _ = _ =>
             apply bind_liftB in H;
             destruct H as [[? [? [-> [-> ?]]]] | [? [? [? H]]]];
             [right; eexists; split; [reflexivity | congruence] | ]
         | bind (if ?c then _ else _) _ _ = _ => destruct c
         | (if ?c then _ else _) _ = _ => destruct c
         | bind (ret _) _ _ = _ => unfold bind at 1, ret at 1 in H
         | throw _ _ = _ =>
             unfold throw in H; injection H as <- <-;
             right; eexists; split; [reflexivity | congruence]
         end.
  all: unfold bind at 1 in H;
    destruct (logApplication env (appliedRecord job userConfig) _)
      as [[rec|e] w2] eqn:Hlog;
    apply logApplication_outcome in Hlog;
    destruct Hlog as [[Hr [Hl _]] | [e' [Hr Hl]]]; try discriminate Hr;
    injection H as <- <-;
    [left; split; [reflexivity | rewrite Hl; f_equal; congruence]
    | right; eexists; split; [reflexivity | congruence]].
Qed.

Lemma attempt_outcome (job : JobSearchResult) (userConfig : UserConfig)
  (w : World) (r : Res ApplicationResult) (w' : World) :
  attempt env fillApplicationForm job userConfig w = (r, w') ->
  (r = Ok (duplicateResult job) /\ w' = store_tick env w /\
   select_fault env (ledger w) (id userConfig) (url job) = None /\
   existsb (matches (id userConfig) (url job)) (ledger w) = true) \/
  (r = Ok (appliedResult job) /\
   ledger w' = (ledger w ++ [appliedRecord job userConfig])%list /\
   select_fault env (ledger w) (id userConfig) (url job) = None /\
   existsb (matches (id userConfig) (url job)) (ledger w) = false) \/
  (exists e, r = Throw e /\ ledger w' = ledger w).
Proof.
  unfold attempt, bind, hasAppliedToJob.
  destruct (select_fault env (ledger w) (id userConfig) (url job)) as [e|].
  - intros H. injection H as <- <-. right. right. eauto.
  - rewrite select_rows_nonempty.
    destruct (existsb (matches (id userConfig) (url job)) (ledger w)) eqn:Hex.
    + intros H. injection H as <- <-. left. auto.
    + intros H. apply navigateAndSubmit_outcome in H. simpl in H.
      destruct H as [[-> Hl] | [e [-> Hl]]]; [right; left; auto | right; right; eauto].
Qed.

Lemma recover_outcome (startTime : N) (job : JobSearchResult) (userConfig : UserConfig)
  (e : Exn) (w : World) (r : Res ApplicationResult) (w' : World) :
  recover env startTime job userConfig e w = (r, w') ->
  (exists e', r = Ok (errorResult job e') /\
              ledger w' = (ledger w ++ [errorRecord job userConfig e'])%list) \/
  (exists e', r = Throw e' /\ ledger w' = ledger w).
Proof.
  unfold recover. intros H. apply bind_liftB in H.
  destruct H as [[e1 [w1 [-> [-> Hl]]]] | [t [w1 [Hl H]]]]; [right; eauto|].
  unfold bind at 1 in H.
  destruct (logApplication env _ w1) as [[rec|e1] w2] eqn:Hlog.
  - apply logApplication_outcome in Hlog.
    destruct Hlog as [[_ [Hl2 _]] | [e2 [Hr _]]]; [|discriminate Hr].
    injection H as <- <-. left. eexists. split; [reflexivity|].
    rewrite Hl2. f_equal. exact Hl.
  - apply logApplication_outcome in Hlog.
    destruct Hlog as [[Hr _] | [e2 [Hr Hl2]]]; [discriminate Hr|].
    injection H as <- <-. right. eexists. split; [reflexivity | congruence].
Qed.

(** The four ways a call of [applyToJob] on an initialised session ends. *)
Lemma applyToJob_outcome (job : JobSearchResult) (userConfig : UserConfig)
  (w : World) (r : Res ApplicationResult) (w' : World) :
  page (browser w) = true ->
  applyToJob env fillApplicationForm job userConfig w = (r, w') ->
  (r = Ok (duplicateResult job) /\ w' = store_tick env w /\
   select_fault env (ledger w) (id userConfig) (url job) = None /\
   existsb (matches (id userConfig) (url job)) (ledger w) = true) \/
  (r = Ok (appliedResult job) /\
   ledger w' = (ledger w ++ [appliedRecord job userConfig])%list /\
   select_fault env (ledger w) (id userConfig) (url job) = None /\
   existsb (matches (id userConfig) (url job)) (ledger w) = false) \/
  (exists e, r = Ok (errorResult job e) /\
             ledger w' = (ledger w ++ [errorRecord job userConfig e])%list) \/
  (exists e, r = Throw e /\ ledger w' = ledger w).
Proof.
  intros Hpage. unfold applyToJob, try_catch. rewrite Hpage.
  destruct (attempt env fillApplicationForm job userConfig w) as [[res|e] w1] eqn:Ha;
    apply attempt_outcome in Ha.
  - intros H. injection H as <- <-.
    destruct Ha as [Ha | [Ha | [e [Hr _]]]]; [left; exact Ha | right; left; exact Ha |].
    discriminate Hr.
  - intros H. apply recover_outcome in H.
    assert (ledger w1 = ledger w) as Hl.
    { destruct Ha as [[Hr _] | [[Hr _] | [e0 [_ Hl]]]];
        [discriminate Hr | discriminate Hr | exact Hl]. }
    rewrite Hl in H.
    destruct H as [H | H]; [right; right; left; exact H | right; right; right; exact H].
Qed.

(** When the duplicate check finds a row, the call returns at once. *)
Lemma applyToJob_duplicate (job : JobSearchResult) (userConfig : UserConfig) (w : World) :
  page (browser w) = true ->
  select_fault env (ledger w) (id userConfig) (url job) = None ->
  existsb (matches (id userConfig) (url job)) (ledger w) = true ->
  applyToJob env fillApplicationForm job userConfig w
  = (Ok (duplicateResult job), store_tick env w).
Proof.
  intros Hpage Hsel Hex.
  unfold applyToJob, try_catch, attempt, bind, hasAppliedToJob.
  now rewrite Hpage, Hsel, select_rows_nonempty, Hex.
Qed.

(** When the store answers and accepts rows, a call on an initialised
    session returns a result: it does not throw. *)
Lemma applyToJob_returns (job : JobSearchResult) (userConfig : UserConfig) (w : World) :
  page (browser w) = true ->
  select_fault env (ledger w) (id userConfig) (url job) = None ->
  (forall table row, insert_fault env table row = None) ->
  exists res w', applyToJob env fillApplicationForm job userConfig w = (Ok res, w').
Proof.
  intros Hpage Hsel Hins. unfold applyToJob, try_catch. rewrite Hpage.
  destruct (attempt env fillApplicationForm job userConfig w) as [[res|e] w1] eqn:Ha;
    [eauto|].
  pose proof Ha as Hout. apply attempt_outcome in Hout.
  assert (ledger w1 = ledger w) as Hl.
  { destruct Hout as [[Hr _] | [[Hr _] | [e0 [_ Hl]]]];
      [discriminate Hr | discriminate Hr | exact Hl]. }
  assert (existsb (matches (id userConfig) (url job)) (ledger w) = false) as Hex.
  { revert Ha. unfold attempt, bind, hasAppliedToJob.
    rewrite Hsel, select_rows_nonempty.
    destruct (existsb (matches (id userConfig) (url job)) (ledger w));
      [discriminate | reflexivity]. }
  unfold recover, bind, liftB, now, logApplication. simpl.
  rewrite Hins. simpl. rewrite Hl, Hex. unfold ret. eauto.
Qed.

End Facts.

(** C3, as amended. When the ledger already holds a row with outcome
    [applied] for the user and the posting's address, the session is
    initialised and the ledger answers the query, [applyToJob] returns the
    result [duplicate] and does nothing else: no row is added to the ledger
    and nothing is done to the page, neither navigation nor form
    interaction. *)
Theorem applyToJob_duplicate_frame (env : Env)
  (fillApplicationForm : UserConfig -> Prog Browser unit)
  (job : JobSearchResult) (userConfig : UserConfig) (w : World) (row : AppliedJob) :
  page (browser w) = true ->
  select_fault env (ledger w) (id userConfig) (url job) = None ->
  In row (ledger w) -> user_id row = id userConfig -> job_url row = url job ->
  status row = applied ->
  exists res w',
    applyToJob env fillApplicationForm job userConfig w = (Ok res, w') /\
    res = duplicateResult job /\ res_status res = duplicate /\
    ledger w' = ledger w /\
    trace (browser w') = trace (browser w) /\
    page (browser w') = page (browser w).
Proof.
  intros Hpage Hsel Hin Hu Hj _.
  exists (duplicateResult job), (store_tick env w).
  split; [|repeat split].
  apply applyToJob_duplicate; try assumption.
  apply matches_iff. eauto.
Qed.

Lemma applyToJob_duplicate_frame_witness :
  exists res w',
    applyToJob steady_env (phone_form steady_env) the_posting plain_user
      (world_of prior_applied) = (Ok res, w') /\
    res = duplicateResult the_posting /\ res_status res = duplicate /\
    ledger w' = prior_applied /\
    trace (browser w') = [] /\
    page (browser w') = true.
Proof.
  apply (applyToJob_duplicate_frame steady_env (phone_form steady_env) the_posting
           plain_user (world_of prior_applied) (appliedRecord the_posting plain_user));
    try reflexivity.
  simpl. left. reflexivity.
Defined.

(** C3 as stated fails: with an [applied] row for the user and the address
    in the ledger, [applyToJob] throws, and returns no [duplicate] result,
    when the applicator was not initialised, by its guard, and when the
    store fails the query, the error row of the handler being refused as a
    second row for the user and the address. *)
Lemma duplicate_needs_session :
  applyToJob steady_env (phone_form steady_env) the_posting plain_user
    (cold_world_of prior_applied)
  = (Throw (JsError "Browser not initialized"), cold_world_of prior_applied) /\
  fst (applyToJob deaf_env (phone_form deaf_env) the_posting plain_user
         (world_of prior_applied))
  = Throw NonError /\
  ~ (forall env fill job userConfig w row,
        In row (ledger w) -> user_id row = id userConfig -> job_url row = url job ->
        status row = applied ->
        exists w', applyToJob env fill job userConfig w
                   = (Ok (duplicateResult job), w') /\
                   ledger w' = ledger w /\
                   trace (browser w') = trace (browser w)).
Proof.
  assert (applyToJob steady_env (phone_form steady_env) the_posting plain_user
            (cold_world_of prior_applied)
          = (Throw (JsError "Browser not initialized"), cold_world_of prior_applied))
    as Hrun by (vm_compute; reflexivity).
  split; [exact Hrun|]. split; [vm_compute; reflexivity|].
  intros H.
  destruct (H steady_env (phone_form steady_env) the_posting plain_user
              (cold_world_of prior_applied) (appliedRecord the_posting plain_user))
    as [w' [Hok _]]; try reflexivity.
  - simpl. left. reflexivity.
  - rewrite Hrun in Hok. discriminate Hok.
Qed.

(** C1 as stated fails: with an [error] row as the only prior row for the
    user and the address, [applyToJob] returns [duplicate]; it does not
    attempt the posting again. *)
Lemma duplicate_after_prior_error :
  map status prior_error = [error] /\
  applyToJob steady_env (phone_form steady_env) the_posting plain_user
    (world_of prior_error)
  = (Ok (duplicateResult the_posting), store_tick steady_env (world_of prior_error)) /\
  ~ (forall env fill job userConfig w res w',
        applyToJob env fill job userConfig w = (Ok res, w') ->
        res_status res = duplicate ->
        exists row, In row (ledger w) /\ user_id row = id userConfig /\
                    job_url row = url job /\ status row = applied).
Proof.
  assert (applyToJob steady_env (phone_form steady_env) the_posting plain_user
            (world_of prior_error)
          = (Ok (duplicateResult the_posting),
             store_tick steady_env (world_of prior_error))) as Hrun
    by (vm_compute; reflexivity).
  split; [reflexivity|]. split; [exact Hrun|].
  intros H.
  destruct (H steady_env (phone_form steady_env) the_posting plain_user
              (world_of prior_error) _ _ Hrun eq_refl)
    as [row [Hin [_ [_ Hst]]]].
  simpl in Hin. destruct Hin as [<-|[]]. discriminate Hst.
Qed.

(** C1, as the code has it. On an initialised session with the ledger
    answering, the duplicate check suppresses the attempt (terminal outcome
    [duplicate]) exactly when the ledger holds a prior row for the user and
    the address, whatever its outcome; so when every prior row for them has
    outcome [error], the result is still [duplicate] and the ledger and the
    page are left as they were. *)
Theorem duplicate_iff_prior_row (env : Env)
  (fillApplicationForm : UserConfig -> Prog Browser unit)
  (job : JobSearchResult) (userConfig : UserConfig) (w : World) :
  page (browser w) = true ->
  select_fault env (ledger w) (id userConfig) (url job) = None ->
  ((exists res w', applyToJob env fillApplicationForm job userConfig w = (Ok res, w') /\
                   res_status res = duplicate) <->
   (exists row, In row (ledger w) /\ user_id row = id userConfig /\
                job_url row = url job)) /\
  ((exists row, In row (ledger w) /\ user_id row = id userConfig /\
                job_url row = url job) ->
   (forall row, In row (ledger w) -> user_id row = id userConfig ->
                job_url row = url job -> status row = error) ->
   applyToJob env fillApplicationForm job userConfig w
   = (Ok (duplicateResult job), store_tick env w)).
Proof.
  intros Hpage Hsel. split; [split|].
  - intros [res [w' [Hrun Hdup]]].
    apply applyToJob_outcome in Hrun; [|exact Hpage].
    destruct Hrun as [[_ [_ [_ Hex]]] | [[Hr _] | [[e [Hr _]] | [e [Hr _]]]]].
    + now apply matches_iff.
    + injection Hr as ->. discriminate Hdup.
    + injection Hr as ->. discriminate Hdup.
    + discriminate Hr.
  - intros Hrow. exists (duplicateResult job), (store_tick env w).
    split; [|reflexivity].
    apply applyToJob_duplicate; try assumption. now apply matches_iff.
  - intros Hrow _. apply applyToJob_duplicate; try assumption. now apply matches_iff.
Qed.

Lemma duplicate_iff_prior_row_witness :
  page (browser (world_of prior_error)) = true /\
  applyToJob steady_env (phone_form steady_env) the_posting plain_user
    (world_of prior_error)
  = (Ok (duplicateResult the_posting), store_tick steady_env (world_of prior_error)).
Proof.
  split; [reflexivity|].
  apply (proj2 (duplicate_iff_prior_row steady_env (phone_form steady_env) the_posting
                  plain_user (world_of prior_error) eq_refl eq_refl)).
  - exists (errorRecord the_posting plain_user (JsError "No application form available")).
    repeat split. simpl. left. reflexivity.
  - intros row [<-|[]] _ _. reflexivity.
Defined.

(** C2 as stated fails: an attempt that ends [duplicate] adds no row to the
    ledger. *)
Lemma duplicate_appends_nothing :
  applyToJob steady_env (phone_form steady_env) the_posting plain_user
    (world_of prior_applied)
  = (Ok (duplicateResult the_posting), store_tick steady_env (world_of prior_applied)) /\
  ledger (store_tick steady_env (world_of prior_applied)) = prior_applied /\
  ~ (forall env fill job userConfig w res w',
        applyToJob env fill job userConfig w = (Ok res, w') ->
        exists row, ledger w' = (ledger w ++ [row])%list).
Proof.
  assert (applyToJob steady_env (phone_form steady_env) the_posting plain_user
            (world_of prior_applied)
          = (Ok (duplicateResult the_posting),
             store_tick steady_env (world_of prior_applied))) as Hrun
    by (vm_compute; reflexivity).
  split; [exact Hrun|]. split; [reflexivity|].
  intros H.
  destruct (H steady_env (phone_form steady_env) the_posting plain_user
              (world_of prior_applied) _ _ Hrun) as [row Hrow].
  discriminate Hrow.
Qed.

(** C2, as the code has it. On an initialised session, with the store
    answering and accepting rows, every attempt reaches a terminal state.
    An attempt that ends [applied] or [error] has added exactly one row to
    the ledger, for the user and the posting and with that outcome; an
    attempt that ends [duplicate] has added none; no attempt ends
    [skipped]. The row is written before [applyToJob] returns, so the loop
    of [processUser] goes on to the next posting with a ledger that already
    holds it. *)
Theorem one_row_unless_duplicate (env : Env)
  (fillApplicationForm : UserConfig -> Prog Browser unit)
  (job : JobSearchResult) (userConfig : UserConfig) (w : World) :
  (page (browser w) = true ->
   select_fault env (ledger w) (id userConfig) (url job) = None ->
   (forall table row, insert_fault env table row = None) ->
   exists res w', applyToJob env fillApplicationForm job userConfig w = (Ok res, w')) /\
  (forall res w',
     applyToJob env fillApplicationForm job userConfig w = (Ok res, w') ->
     match res_status res with
     | duplicate => ledger w' = ledger w
     | skipped => False
     | _ => exists row, ledger w' = (ledger w ++ [row])%list /\
                        status row = res_status res /\
                        user_id row = id userConfig /\ job_url row = url job
     end /\
     forall rest counts,
     exists counts' w2,
       applyAll env fillApplicationForm (job :: rest) userConfig counts w
       = applyAll env fillApplicationForm rest userConfig counts' w2 /\
       ledger w2 = ledger w').
Proof.
  split; [apply applyToJob_returns|].
  intros res w' Hrun. split.
  - destruct (page (browser w)) eqn:Hpage.
    + apply applyToJob_outcome in Hrun; [|exact Hpage].
      destruct Hrun as [[Hr [-> _]] | [[Hr [Hl _]] | [[e [Hr Hl]] | [e [Hr _]]]]];
        try discriminate Hr; injection Hr as ->; simpl.
      * reflexivity.
      * exists (appliedRecord job userConfig). auto.
      * exists (errorRecord job userConfig e). auto.
    + unfold applyToJob in Hrun. rewrite Hpage in Hrun. discriminate Hrun.
  - intros rest counts. simpl. unfold bind at 1, try_catch, bind at 1.
    rewrite Hrun. unfold bind at 1, delay, ret. eexists. eexists.
    split; reflexivity.
Qed.

Lemma one_row_unless_duplicate_witness :
  applyToJob rejecting_env (phone_form rejecting_env) the_posting plain_user
    (world_of [])
  = (Ok (errorResult the_posting
           (JsError "No success indicator found after submission")),
     snd rejected_attempt) /\
  exists row, ledger (snd rejected_attempt) = (ledger (world_of []) ++ [row])%list /\
              status row = error /\
              user_id row = id plain_user /\ job_url row = url the_posting.
Proof.
  assert (applyToJob rejecting_env (phone_form rejecting_env) the_posting plain_user
            (world_of [])
          = (Ok (errorResult the_posting
                   (JsError "No success indicator found after submission")),
             snd rejected_attempt)) as Hrun
    by (vm_compute; reflexivity).
  split; [exact Hrun|].
  exact (proj1 (proj2 (one_row_unless_duplicate rejecting_env
                         (phone_form rejecting_env) the_posting plain_user
                         (world_of [])) _ _ Hrun)).
Defined.

(** C4, the code at the failing inputs. [applyToJob] never looks for a
    validation message. On a site that shows one and no success indicator
    after the submit click, the attempt ends as the error "No success
    indicator found after submission", not as a validation error; on a site
    that shows one together with a success indicator, the attempt ends
    [applied]. The check exists only in [improvedSubmit], which reports
    [false] there and which no method calls. *)
Theorem validation_message_not_checked :
  respond rejecting_env [] (Query validationErrorSelector) = Found /\
  (rejected_attempt
   = (Ok (errorResult the_posting
            (JsError "No success indicator found after submission")),
      snd rejected_attempt) /\
   existsb (queries validationErrorSelector) (trace (browser (snd rejected_attempt)))
   = false /\
   existsb (queries successSelector) (trace (browser (snd rejected_attempt)))
   = true) /\
  (ambiguous_attempt = (Ok (appliedResult the_posting), snd ambiguous_attempt) /\
   existsb (queries validationErrorSelector) (trace (browser (snd ambiguous_attempt)))
   = false /\
   ledger (snd ambiguous_attempt) = [appliedRecord the_posting plain_user]) /\
  fst (improvedSubmit ambiguous_env ready_browser) = Ok false.
Proof.
  split; [vm_compute; reflexivity|].
  split; [|split].
  - split; [vm_compute; reflexivity|]. split; vm_compute; reflexivity.
  - split; [vm_compute; reflexivity|]. split; vm_compute; reflexivity.
  - vm_compute. reflexivity.
Qed.

End ApplyFacts.

(** ** Phone step *)

Module PhoneFacts.
Import JS Phone Scenario.

Lemma skipn_app_exact {A} (l l' : list A) : skipn (List.length l) (l ++ l') = l'.
Proof. induction l as [|x l IH]; [reflexivity | exact IH]. Qed.

(** C8. The phone step does not depend on the user profile: for any two
    profiles, whatever their phone and country, it runs the same way on the
    same page. All it ever does is open the country list, pick the United
    States entry, look the phone input up and write the fixed number
    415-555-2671 into it; on a page where those controls answer, it does
    exactly that. *)
Theorem phoneStep_ignores_profile (env : Env) (u1 u2 : UserConfig) (b : Browser) :
  phoneStep env u1 b = phoneStep env u2 b /\
  existsb off_script (added b (snd (phoneStep env u1 b))) = false /\
  ((forall tr a, respond env tr a = Found) -> page b = true ->
   added b (snd (phoneStep env u1 b))
   = [Click flagSelector; WaitForTimeout 1000; Click usItemSelector;
      WaitForTimeout 500; Query phoneInputSelector;
      Fill phoneInputSelector fixedPhone]).
Proof.
  split; [reflexivity|]. split.
  - unfold phoneStep, handlePhoneInput, added.
    destruct (page b); [|simpl; now rewrite skipn_all].
    unfold try_catch, fillPhone, bind, perform, ret.
    repeat match goal with
           | |- context [respond env ?tr ?a] => destruct (respond env tr a)
           end;
      cbn [snd record trace]; rewrite <- ?app_assoc, skipn_app_exact; reflexivity.
  - intros Hfound Hpage. unfold phoneStep, handlePhoneInput, added. rewrite Hpage.
    unfold try_catch, fillPhone, bind, perform, ret.
    rewrite !Hfound. cbn [snd record trace].
    rewrite <- ?app_assoc. apply skipn_app_exact.
Qed.

Lemma phoneStep_ignores_profile_witness :
  added ready_browser (snd (phoneStep steady_env plain_user ready_browser))
  = [Click flagSelector; WaitForTimeout 1000; Click usItemSelector;
     WaitForTimeout 500; Query phoneInputSelector;
     Fill phoneInputSelector fixedPhone].
Proof.
  apply (proj2 (proj2 (phoneStep_ignores_profile steady_env plain_user other_user
                         ready_browser))); reflexivity.
Defined.

(** Two users with different phone and country get the same number. *)
Example phoneStep_two_users :
  phone plain_user <> phone other_user /\ country plain_user <> country other_user /\
  phoneStep steady_env plain_user ready_browser
  = phoneStep steady_env other_user ready_browser.
Proof. repeat split; discriminate. Qed.

End PhoneFacts.

(** ** Signal handlers *)

Module WorkerFacts.
Import Worker Scenario.

Lemma onSIGINT_session (p : Process) :
  session (onSIGINT p) = session p /\ exited (onSIGINT p) = Some 0.
Proof. split; reflexivity. Qed.

Lemma onSIGTERM_session (p : Process) :
  session (onSIGTERM p) = session p /\ exited (onSIGTERM p) = Some 0.
Proof. split; reflexivity. Qed.

(** C9, the code at the failing input. A signal that arrives while a run
    has the browser session open ends the process with status 0 and the
    session still open: the handlers call [stopScheduler] and [process.exit]
    and never [cleanup], which only the [finally] block of a run calls. *)
Theorem signal_exits_with_open_session :
  page (session busy_process) = true /\
  exited_with_open_session (onSIGINT busy_process) /\
  exited_with_open_session (onSIGTERM busy_process) /\
  exited (onSIGINT busy_process) = Some 0 /\
  page (session (finallyCleanup steady_env busy_process)) = false.
Proof.
  unfold exited_with_open_session. repeat split; discriminate.
Qed.

End WorkerFacts.

(* ===================================================================== *)
(** * Further properties of the code *)
(* ===================================================================== *)

(** ** More on the string primitives *)

Module JSMore.
Import JS JSFacts.

Lemma str_app_assoc (a b c : string) : ((a ++ b) ++ c = a ++ (b ++ c))%string.
Proof. induction a as [|x a IH]; simpl; [reflexivity | now rewrite IH]. Qed.

Lemma str_app_empty_r (a : string) : (a ++ EmptyString)%string = a.
Proof. induction a as [|x a IH]; simpl; [reflexivity | now rewrite IH]. Qed.

Lemma toLowerCase_app (a b : string) :
  toLowerCase (a ++ b) = (toLowerCase a ++ toLowerCase b)%string.
Proof. induction a as [|x a IH]; simpl; [reflexivity | now rewrite IH]. Qed.

Lemma lower_char_idem (c : ascii) : lower_char (lower_char c) = lower_char c.
Proof. destruct c as [[] [] [] [] [] [] [] []]; reflexivity. Qed.

Lemma toLowerCase_idem (s : string) : toLowerCase (toLowerCase s) = toLowerCase s.
Proof.
  induction s as [|c r IH]; simpl; [reflexivity|]. now rewrite lower_char_idem, IH.
Qed.

Lemma Occurs_trans (a b c : string) : Occurs a b -> Occurs b c -> Occurs a c.
Proof.
  intros [p1 [q1 H1]] [p2 [q2 H2]]. exists (p2 ++ p1)%string, (q1 ++ q2)%string.
  rewrite H2, H1. now rewrite !str_app_assoc.
Qed.

Lemma includes_trans (s a b : string) :
  Occurs a b -> includes s b = true -> includes s a = true.
Proof.
  intros Hab Hb. apply includes_Occurs. apply includes_Occurs in Hb.
  now apply Occurs_trans with (b := b).
Qed.

Lemma includes_empty (s : string) : includes s EmptyString = true.
Proof. apply includes_Occurs. exists EmptyString, s. reflexivity. Qed.

(** [trimStart] leaves nothing or a string that starts with a character
    that is not white space. *)
Lemma trimStart_head (s : string) :
  trimStart s = EmptyString \/
  exists c r, trimStart s = String c r /\ is_space c = false.
Proof.
  induction s as [|c r IH]; simpl; [now left|].
  destruct (is_space c) eqn:Hc; [exact IH | right; eauto].
Qed.

Lemma trimEnd_idem (s : string) : trimEnd (trimEnd s) = trimEnd s.
Proof.
  induction s as [|c r IH]; simpl; [reflexivity|].
  destruct (trimEnd r) as [|c' r'] eqn:Hr.
  - destruct (is_space c) eqn:Hc; simpl; [reflexivity | now rewrite Hc].
  - change (trimEnd (String c (String c' r')))
      with (match trimEnd (String c' r') with
            | EmptyString => if is_space c then EmptyString else String c EmptyString
            | r'' => String c r''
            end).
    now rewrite IH.
Qed.

Lemma trimEnd_head (c : ascii) (r : string) :
  is_space c = false -> exists r', trimEnd (String c r) = String c r'.
Proof.
  intros Hc. simpl. destruct (trimEnd r); [rewrite Hc|]; eauto.
Qed.

Lemma trim_idem (s : string) : trim (trim s) = trim s.
Proof.
  unfold trim. destruct (trimStart_head s) as [H | [c [r [H Hc]]]]; rewrite H.
  - reflexivity.
  - destruct (trimEnd_head c r Hc) as [r' Hr]. rewrite Hr.
    simpl trimStart. rewrite Hc. rewrite <- Hr. apply trimEnd_idem.
Qed.

(** A field that ends in the separator splits into at least two pieces,
    the last of which is empty. *)
Lemma split_trailing (sep : ascii) (s : string) :
  exists h t, split sep (s ++ String sep EmptyString) = ((h :: t) ++ [EmptyString])%list.
Proof.
  induction s as [|c r IH]; simpl.
  - rewrite Ascii.eqb_refl. exists EmptyString, []. reflexivity.
  - destruct IH as [h [t IH]]. rewrite IH.
    destruct (Ascii.eqb c sep).
    + exists EmptyString, (h :: t). reflexivity.
    + exists (String c h), t. reflexivity.
Qed.

End JSMore.

(** ** More on discovery and filtering *)

Module DiscoveryMore.
Import JS JSFacts JSMore Discovery DiscoveryFacts Filter Scenario Cases.

Lemma text_or_nonempty (text : option string) (fallback : string) :
  fallback <> EmptyString -> text_or text fallback <> EmptyString.
Proof.
  intros Hf. unfold text_or. destruct text as [s|]; [|exact Hf].
  destruct (trim s =? EmptyString) eqn:H; [exact Hf|].
  now apply String.eqb_neq.
Qed.

Lemma text_or_trimmed (text : option string) :
  trim (text_or text EmptyString) = text_or text EmptyString.
Proof.
  unfold text_or. destruct text as [s|]; [|reflexivity].
  destruct (trim s =? EmptyString); [reflexivity | apply trim_idem].
Qed.

Lemma extract_wellformed (els : list Element) (j : JobSearchResult) :
  In j (extract els) ->
  url j <> EmptyString /\ company j <> EmptyString /\ location j <> EmptyString /\
  trim (title j) = title j /\
  description j = Some EmptyString /\ posted_date j = Some EmptyString /\
  exists el, In el els /\ href el = url j /\ titleText el <> None.
Proof.
  unfold extract. intros Hin. apply in_flat_map in Hin.
  destruct Hin as [el [Hel Hj]].
  destruct (titleText el) as [t|] eqn:Ht; [|destruct Hj].
  destruct (href el =? EmptyString) eqn:Hh; [destruct Hj|].
  destruct Hj as [<-|[]]. simpl.
  split; [now apply String.eqb_neq|].
  split; [apply text_or_nonempty; discriminate|].
  split; [apply text_or_nonempty; discriminate|].
  split; [apply (text_or_trimmed (Some t))|].
  split; [reflexivity|]. split; [reflexivity|].
  exists el. rewrite Ht. repeat split; [exact Hel | discriminate].
Qed.

Lemma filter_from_In {A} (f : A -> nat -> bool) (i : nat) (l : list A) (x : A) :
  In x (filter_from f i l) -> In x l.
Proof.
  revert i. induction l as [|y r IH]; intros i; simpl; [tauto|].
  destruct (f y i); simpl; intros H; [destruct H as [H|H]|]; eauto.
Qed.

Lemma limitUnique_In (results : list JobSearchResult) (j : JobSearchResult) :
  In j (limitUnique results) -> In j results.
Proof.
  unfold limitUnique, slice0, uniqueJobs. intros H.
  apply (filter_from_In (first_of results) 0).
  rewrite <- (firstn_skipn 10 (filter_from _ _ _)). apply in_or_app. now left.
Qed.

(** What [searchJobs] returns is empty or the script's result on some
    listing. *)
Lemma searchJobs_result (env : Env) (userConfig : UserConfig) (b : Browser)
  (jobs : list JobSearchResult) (b' : Browser) :
  searchJobs env userConfig b = (Ok jobs, b') ->
  jobs = [] \/ exists tr sel, jobs = limitUnique (extract (elements env tr sel)).
Proof.
  unfold searchJobs, require_page, try_catch. destruct (page b); [|discriminate].
  unfold search, bind.
  destruct (perform env (Goto (searchUrl userConfig)) b) as [[found|e] b1];
    [|unfold ret; intros H; injection H as <- _; now left].
  destruct (findJobCards env b1) as [[sel|e] b2];
    [|unfold ret; intros H; injection H as <- _; now left].
  unfold evaluate.
  destruct (respond env (trace b2) (Evaluate sel)); unfold ret; intros H;
    injection H as <- _; eauto.
Qed.

(** X1. Every posting [searchJobs] returns has an address, a company and a
    location that are not empty, a title without white space around it and
    an empty description. *)
Theorem searchJobs_postings_wellformed (env : Env) (userConfig : UserConfig)
  (b : Browser) (jobs : list JobSearchResult) (b' : Browser) (j : JobSearchResult) :
  searchJobs env userConfig b = (Ok jobs, b') -> In j jobs ->
  url j <> EmptyString /\ company j <> EmptyString /\ location j <> EmptyString /\
  trim (title j) = title j /\ description j = Some EmptyString.
Proof.
  intros Hrun Hin. apply searchJobs_result in Hrun.
  destruct Hrun as [-> | [tr [sel ->]]]; [destruct Hin|].
  apply limitUnique_In, extract_wellformed in Hin.
  tauto.
Qed.

Lemma searchJobs_postings_wellformed_witness :
  searchJobs listing_env plain_user ready_browser
  = (Ok [ {| title := "Backend Engineer"; company := "Unknown Company";
             location := "Remote"; url := "https://jobs.workable.com/view/a";
             description := Some EmptyString; posted_date := Some EmptyString |} ],
     snd (searchJobs listing_env plain_user ready_browser)) /\
  company {| title := "Backend Engineer"; company := "Unknown Company";
             location := "Remote"; url := "https://jobs.workable.com/view/a";
             description := Some EmptyString; posted_date := Some EmptyString |}
  <> EmptyString.
Proof.
  assert (searchJobs listing_env plain_user ready_browser
          = (Ok [ {| title := "Backend Engineer"; company := "Unknown Company";
                     location := "Remote"; url := "https://jobs.workable.com/view/a";
                     description := Some EmptyString;
                     posted_date := Some EmptyString |} ],
             snd (searchJobs listing_env plain_user ready_browser))) as Hrun
    by (vm_compute; reflexivity).
  split; [exact Hrun|].
  exact (proj1 (proj2 (searchJobs_postings_wellformed listing_env plain_user
                         ready_browser _ _ _ Hrun (or_introl eq_refl)))).
Defined.

Lemma dedupSeen_In (l : list JobSearchResult) (seen : list string)
  (j : JobSearchResult) :
  In j (dedupSeen seen l) -> In j l.
Proof.
  revert seen. induction l as [|x r IH]; intros seen; simpl; [tauto|].
  destruct (existsb (String.eqb (url x)) seen); simpl; intros H.
  - right. eauto.
  - destruct H as [H|H]; [now left | right; eauto].
Qed.

Lemma dedupSeen_distinct (l : list JobSearchResult) (seen : list string) :
  NoDup (map url l) ->
  (forall x, In x l -> existsb (String.eqb (url x)) seen = false) ->
  dedupSeen seen l = l.
Proof.
  revert seen. induction l as [|x r IH]; intros seen Hnd Hseen; simpl; [reflexivity|].
  rewrite (Hseen x (or_introl eq_refl)). f_equal.
  inversion Hnd as [|? ? Hx Hr]; subst.
  apply IH; [exact Hr|].
  intros y Hy. simpl. rewrite (Hseen y (or_intror Hy)), orb_false_r.
  apply String.eqb_neq. intros Heq. apply Hx. rewrite <- Heq. now apply in_map.
Qed.

(** X2. The deduplication of the script loses no address: the addresses of its
    result are those of the raw extraction. On a list of pairwise distinct
    addresses it changes nothing, so applying it twice is applying it once. *)
Theorem uniqueJobs_keeps_addresses (results : list JobSearchResult) :
  (forall u, In u (map url (uniqueJobs results)) <-> In u (map url results)) /\
  (NoDup (map url results) -> uniqueJobs results = results) /\
  uniqueJobs (uniqueJobs results) = uniqueJobs results.
Proof.
  assert (forall l, NoDup (map url l) -> uniqueJobs l = l) as Hid.
  { intros l Hnd. rewrite uniqueJobs_dedup. apply dedupSeen_distinct; [exact Hnd|].
    intros x _. reflexivity. }
  split; [|split].
  - intros u. rewrite uniqueJobs_dedup. split.
    + intros H. apply in_map_iff in H. destruct H as [j [<- Hj]].
      apply in_map. now apply dedupSeen_In in Hj.
    + intros H. now apply dedupSeen_complete.
  - apply Hid.
  - apply Hid. rewrite uniqueJobs_dedup. apply dedupSeen_NoDup.
Qed.

Lemma uniqueJobs_keeps_addresses_witness :
  NoDup (map url (uniqueJobs twelve_raw)) /\
  uniqueJobs (uniqueJobs twelve_raw) = uniqueJobs twelve_raw.
Proof.
  assert (NoDup (map url (uniqueJobs twelve_raw))) as Hnd
    by (rewrite uniqueJobs_dedup; apply dedupSeen_NoDup).
  split; [exact Hnd|].
  exact (proj1 (proj2 (uniqueJobs_keeps_addresses (uniqueJobs twelve_raw))) Hnd).
Defined.

End DiscoveryMore.

Module FilterMore.
Import JS JSFacts JSMore Filter FilterFacts Scenario Cases.

(** X3. Two of the five clearance keywords contain another one, so the
    clearance rule is the rule of the three keywords "clearance", "secret"
    and "ts/sci": it drops every posting whose title or description has the
    word "secret" or "clearance" anywhere in it. *)
Theorem clearance_check_core (R : UserConfig) (P : JobSearchResult) :
  clearance_check R P
  = skip_security_clearance R &&
    existsb (fun k => includes (clearance_text P) k) coreSecurityKeywords.
Proof.
  unfold clearance_check, securityKeywords, coreSecurityKeywords.
  destruct (skip_security_clearance R); [|reflexivity]. simpl.
  pose proof (includes_trans (clearance_text P) "clearance" "security clearance") as H1.
  pose proof (includes_trans (clearance_text P) "secret" "top secret") as H2.
  destruct (includes (clearance_text P) "security clearance");
    destruct (includes (clearance_text P) "clearance");
    destruct (includes (clearance_text P) "secret");
    destruct (includes (clearance_text P) "top secret");
    destruct (includes (clearance_text P) "ts/sci"); try reflexivity; exfalso.
  all: try (assert (false = true) as F
              by (apply H1; [exists "security ", EmptyString; reflexivity | reflexivity]);
            discriminate F).
  all: try (assert (false = true) as F
              by (apply H2; [exists "top ", EmptyString; reflexivity | reflexivity]);
            discriminate F).
Qed.

Lemma entries_trailing (f : string) : In EmptyString (entries (f ++ ",")).
Proof.
  unfold entries. rewrite toLowerCase_app. simpl toLowerCase at 2.
  destruct (split_trailing "," (toLowerCase f)) as [h [t H]].
  change (String (lower_char ",") EmptyString) with (String "," EmptyString).
  rewrite H, map_app. apply in_or_app. right. now left.
Qed.

Lemma rule_with_empty_entry (field : string) (text : string) :
  In EmptyString (entries field) -> field <> EmptyString ->
  (if truthy (Some field)
   then existsb (fun e => includes (toLowerCase text) e) (entries field)
   else false) = true.
Proof.
  intros Hin Hne. simpl. apply String.eqb_neq in Hne. rewrite Hne. simpl.
  apply existsb_exists. exists EmptyString. split; [exact Hin | apply includes_empty].
Qed.

(** X4. A blacklist or a keyword list with an empty entry, as a trailing comma
    leaves one, excludes every posting: the empty entry occurs in every
    text. *)
Theorem empty_entry_excludes_all (R : UserConfig) (f : string)
  (jobs : list JobSearchResult) :
  blacklisted_companies R = Some (f ++ ",") \/ skip_keywords R = Some (f ++ ",") ->
  filterJobs jobs R = [].
Proof.
  intros H. unfold filterJobs.
  assert (forall j, keep R j = false) as Hkeep.
  { intros j. unfold keep.
    assert ((f ++ ",")%string <> EmptyString) as Hne by (destruct f; discriminate).
    destruct H as [H|H].
    - unfold company_check. rewrite H.
      now rewrite (rule_with_empty_entry _ (company j) (entries_trailing f) Hne).
    - destruct (company_check R j); [reflexivity|].
      unfold keyword_check, keyword_text. rewrite H.
      now rewrite (rule_with_empty_entry _ _ (entries_trailing f) Hne). }
  induction jobs as [|j r IH]; simpl; [reflexivity|]. now rewrite Hkeep.
Qed.

Lemma empty_entry_excludes_all_witness :
  filterJobs [acme_posting; the_posting] comma_rules = [].
Proof.
  apply (empty_entry_excludes_all comma_rules "Acme"). left. reflexivity.
Defined.

Lemma entries_case (f f' : string) :
  toLowerCase f' = toLowerCase f -> entries f' = entries f.
Proof. unfold entries. now intros ->. Qed.

Lemma rule_case (o o' : option string) (text text' : string) :
  option_map toLowerCase o' = option_map toLowerCase o ->
  toLowerCase text' = toLowerCase text ->
  match o' with
  | Some f => if truthy (Some f)
              then existsb (fun e => includes (toLowerCase text') e) (entries f)
              else false
  | None => false
  end =
  match o with
  | Some f => if truthy (Some f)
              then existsb (fun e => includes (toLowerCase text) e) (entries f)
              else false
  | None => false
  end.
Proof.
  intros Ho Ht. destruct o' as [f'|], o as [f|]; try discriminate; [|reflexivity].
  injection Ho as Ho. simpl.
  rewrite <- (toLowerCase_eq_empty f'), <- (toLowerCase_eq_empty f), Ho.
  now rewrite (entries_case f f' Ho), Ht.
Qed.

Lemma render_case (d d' : option string) :
  option_map toLowerCase d' = option_map toLowerCase d ->
  toLowerCase (render d') = toLowerCase (render d).
Proof.
  destruct d', d; simpl; try discriminate; [|reflexivity].
  now intros [= ->].
Qed.

Lemma keep_lower (R R' : UserConfig) (a a' : JobSearchResult) :
  option_map toLowerCase (blacklisted_companies R')
  = option_map toLowerCase (blacklisted_companies R) ->
  option_map toLowerCase (skip_keywords R') = option_map toLowerCase (skip_keywords R) ->
  skip_security_clearance R' = skip_security_clearance R ->
  toLowerCase (title a') = toLowerCase (title a) ->
  toLowerCase (company a') = toLowerCase (company a) ->
  option_map toLowerCase (description a') = option_map toLowerCase (description a) ->
  keep R' a' = keep R a.
Proof.
  intros Hb Hk Hs Hta Hca Hda. unfold keep.
  assert (company_check R' a' = company_check R a) as ->
    by (unfold company_check; now apply rule_case).
  assert (keyword_check R' a' = keyword_check R a) as ->.
  { unfold keyword_check, keyword_text. apply rule_case; [exact Hk|].
    rewrite !toLowerCase_app, Hta, Hca. now rewrite (render_case _ _ Hda). }
  assert (clearance_check R' a' = clearance_check R a) as ->.
  { unfold clearance_check, clearance_text. rewrite Hs.
    rewrite !toLowerCase_app, Hta. now rewrite (render_case _ _ Hda). }
  reflexivity.
Qed.

Lemma SameOption_lower (a b : option string) :
  SameOption a b -> option_map toLowerCase a = option_map toLowerCase b.
Proof.
  destruct a, b; simpl; try tauto. intros H. apply same_text_lower in H. now rewrite H.
Qed.

Lemma SameText_refl (a : string) : SameText a a.
Proof. now apply same_text_lower. Qed.

Lemma SameOption_refl (a : option string) : SameOption a a.
Proof. destruct a; simpl; [apply SameText_refl | exact I]. Qed.

(** X5. The filter ignores letter case throughout: rules that are the same
    up to the case of their letters, and postings whose title, company and
    description are the same up to the case of their letters, are treated
    alike. *)
Theorem filterJobs_case_insensitive (R R' : UserConfig) (j j' : JobSearchResult)
  (jobs : list JobSearchResult) :
  SameOption (blacklisted_companies R') (blacklisted_companies R) ->
  SameOption (skip_keywords R') (skip_keywords R) ->
  skip_security_clearance R' = skip_security_clearance R ->
  SameText (title j') (title j) ->
  SameText (company j') (company j) ->
  SameOption (description j') (description j) ->
  keep R' j' = keep R j /\ filterJobs jobs R' = filterJobs jobs R.
Proof.
  intros Hb Hk Hs Ht Hc Hd.
  apply SameOption_lower in Hb, Hk, Hd. apply same_text_lower in Ht, Hc.
  split; [now apply keep_lower|].
  unfold filterJobs. apply filter_ext. intros a. now apply keep_lower.
Qed.

Lemma filterJobs_case_insensitive_witness :
  keep ecole_rules_upper ecole_posting_upper = keep ecole_rules ecole_posting /\
  filterJobs twelve_raw ecole_rules_upper = filterJobs twelve_raw ecole_rules.
Proof.
  apply (filterJobs_case_insensitive ecole_rules ecole_rules_upper ecole_posting
           ecole_posting_upper twelve_raw); reflexivity.
Defined.

(** The capital E with acute accent is the letter of the small one: the
    rule in capitals drops the posting of the school written in small
    letters, and the rule in small letters the one in capitals. *)
Example filterJobs_ecole :
  filterJobs [ecole_posting] ecole_rules_upper = [] /\
  filterJobs [ecole_posting_upper] ecole_rules = [] /\
  filterJobs [acme_posting_lower] acme_rules_upper = [].
Proof. repeat split; vm_compute; reflexivity. Qed.

End FilterMore.

(** ** More on the ledger and the application stage *)

Module ApplyMore.
Import JS Store Apply ApplyFacts Measure Scenario Cases.

Lemma existsb_matches_app (userId jobUrl : string) (l l' : list AppliedJob) :
  existsb (matches userId jobUrl) (l ++ l')
  = existsb (matches userId jobUrl) l || existsb (matches userId jobUrl) l'.
Proof. apply existsb_app. Qed.

(** X6. Insert, then look up. After [logApplication] has stored a row,
    [hasAppliedToJob] answers [true] for the row's user and address, and
    for every other user or address what it answered before; a refused
    insert changes no answer. *)
Theorem logged_then_found (env : Env) (application : AppliedJob) (w : World)
  (r : Res AppliedJob) (w' : World) (userId jobUrl : string) :
  logApplication env application w = (r, w') ->
  select_fault env (ledger w') userId jobUrl = None ->
  select_fault env (ledger w) userId jobUrl = None ->
  match r with
  | Ok stored =>
      stored = application /\
      fst (hasAppliedToJob env userId jobUrl w')
      = Ok (matches userId jobUrl application ||
            existsb (matches userId jobUrl) (ledger w)) /\
      existsb (matches (user_id application) (job_url application)) (ledger w') = true
  | Throw _ =>
      fst (hasAppliedToJob env userId jobUrl w')
      = fst (hasAppliedToJob env userId jobUrl w)
  end.
Proof.
  intros Hlog Hsel' Hsel. apply logApplication_outcome in Hlog.
  unfold hasAppliedToJob. rewrite Hsel'. simpl. rewrite select_rows_nonempty.
  destruct Hlog as [[-> [Hl _]] | [e [-> Hl]]].
  - split; [reflexivity|]. rewrite Hl, !existsb_matches_app. simpl.
    rewrite !orb_false_r. split; [now rewrite orb_comm|].
    unfold matches at 2. rewrite !String.eqb_refl. simpl. apply orb_true_r.
  - rewrite Hsel. simpl. now rewrite select_rows_nonempty, Hl.
Qed.

Lemma logged_then_found_witness :
  fst (hasAppliedToJob steady_env "u1" (url the_posting)
         (snd (logApplication steady_env (appliedRecord the_posting plain_user)
                 (world_of []))))
  = Ok true.
Proof.
  exact (proj1 (proj2 (logged_then_found steady_env
                         (appliedRecord the_posting plain_user) (world_of [])
                         (Ok (appliedRecord the_posting plain_user))
                         (snd (logApplication steady_env
                                 (appliedRecord the_posting plain_user) (world_of [])))
                         "u1" (url the_posting) eq_refl eq_refl eq_refl))).
Defined.

Section Stage.

Variable env : Env.
Variable fillApplicationForm : UserConfig -> Prog Browser unit.

(** X7. The result [applyToJob] returns and the row it writes say the same
    thing: the result names the posting it was called with, [success] is
    set exactly for the outcome [applied], an error message is given exactly
    for the outcome [error], and a row added to the ledger carries the
    result's title, company, address, outcome and error message. *)
Theorem result_agrees_with_row (job : JobSearchResult) (userConfig : UserConfig)
  (w : World) (res : ApplicationResult) (w' : World) :
  applyToJob env fillApplicationForm job userConfig w = (Ok res, w') ->
  jobUrl res = url job /\ jobTitle res = title job /\ companyName res = company job /\
  (success res = true <-> res_status res = applied) /\
  (errorMessage res <> None <-> res_status res = error) /\
  forall row, ledger w' = (ledger w ++ [row])%list ->
              job_url row = jobUrl res /\ job_title row = jobTitle res /\
              company_name row = companyName res /\ status row = res_status res /\
              error_message row = errorMessage res.
Proof.
  intros Hrun.
  assert (page (browser w) = true) as Hpage.
  { unfold applyToJob in Hrun. destruct (page (browser w)); [reflexivity | discriminate]. }
  apply applyToJob_outcome in Hrun; [|exact Hpage].
  destruct Hrun as [[Hr [-> _]] | [[Hr [Hl _]] | [[e [Hr Hl]] | [e [Hr _]]]]];
    try discriminate Hr; injection Hr as ->; simpl;
    (split; [reflexivity|]); (split; [reflexivity|]); (split; [reflexivity|]).
  - split; [split; discriminate|]. split; [split; [intros H; now elim H | discriminate]|].
    intros row Hrow. exfalso.
    apply (f_equal (@List.length AppliedJob)) in Hrow.
    rewrite length_app in Hrow. simpl in Hrow. lia.
  - split; [split; reflexivity|]. split; [split; [intros H; now elim H | discriminate]|].
    intros row Hrow. rewrite Hl in Hrow. apply app_inv_head in Hrow.
    injection Hrow as <-. repeat split.
  - split; [split; discriminate|]. split; [split; [reflexivity | discriminate]|].
    intros row Hrow. rewrite Hl in Hrow. apply app_inv_head in Hrow.
    injection Hrow as <-. repeat split.
Qed.

Lemma bind_liftB_ok {A B} (m : Prog Browser A) (k : A -> Prog World B)
  (w : World) (r : B) (w' : World) :
  bind (liftB m) k w = (Ok r, w') ->
  exists a b1, m (browser w) = (Ok a, b1) /\
               k a {| browser := b1; ledger := ledger w |} = (Ok r, w').
Proof.
  unfold bind, liftB. destruct (m (browser w)) as [[a|e] b1]; [eauto | discriminate].
Qed.

Lemma perform_found (a : Action) (b b1 : Browser) :
  perform env a b = (Ok true, b1) -> respond env (trace b) a = Found.
Proof.
  unfold perform. destruct (respond env (trace b) a); [reflexivity | |]; discriminate.
Qed.

Lemma waitForSelector_found (sel : string) (t : N) (b b1 : Browser) (u : unit) :
  waitForSelector env sel t b = (Ok u, b1) ->
  respond env (trace b) (WaitForSelector sel t) = Found.
Proof.
  unfold waitForSelector, bind, perform.
  destruct (respond env (trace b) (WaitForSelector sel t)); [reflexivity | |];
    discriminate.
Qed.

Lemma race_won (a : Action) (limit : N) (failure : string) (b b1 : Browser) (u : unit) :
  race env a limit failure b = (Ok u, b1) ->
  (elapsed env (trace b) a < limit)%N.
Proof.
  unfold race. destruct (limit <=? elapsed env (trace b) a)%N eqn:H; [discriminate|].
  intros _. now apply N.leb_gt.
Qed.

(** X8. An attempt ends [applied] only if the ledger had no row for the user
    and the address, the posting's page loaded within thirty seconds, and
    the site showed the apply control, the application form, the submit
    control and, after the submit click, the success indicator. *)
Theorem applied_only_if (job : JobSearchResult) (userConfig : UserConfig)
  (w : World) (res : ApplicationResult) (w' : World) :
  applyToJob env fillApplicationForm job userConfig w = (Ok res, w') ->
  res_status res = applied ->
  existsb (matches (id userConfig) (url job)) (ledger w) = false /\
  (elapsed env (trace (browser w)) (Goto (url job)) < 30000)%N /\
  exists t1 t2 t3 t4,
    respond env t1 (WaitForSelector applyButtonSelector 10000) = Found /\
    respond env t2 (WaitForSelector formSelector 10000) = Found /\
    respond env t3 (Query submitSelector) = Found /\
    respond env t4 (Query successSelector) = Found.
Proof.
  intros Hrun Happ. unfold applyToJob in Hrun.
  destruct (page (browser w)); [|discriminate]. unfold try_catch in Hrun.
  destruct (attempt env fillApplicationForm job userConfig w) as [[r|e] w1] eqn:Ha.
  - injection Hrun as -> ->. revert Ha. unfold attempt, bind at 1, hasAppliedToJob.
    destruct (select_fault env (ledger w) (id userConfig) (url job)); [discriminate|].
    rewrite select_rows_nonempty.
    destruct (existsb (matches (id userConfig) (url job)) (ledger w)).
    + unfold ret. intros H. injection H as <- _. discriminate Happ.
    + unfold navigateAndSubmit. intros H. split; [reflexivity|].
      apply bind_liftB_ok in H. destruct H as [u1 [b1 [Hgo H]]].
      apply race_won in Hgo. simpl in Hgo. split; [exact Hgo|].
      apply bind_liftB_ok in H. destruct H as [u2 [b2 [Hbtn H]]].
      apply waitForSelector_found in Hbtn.
      apply bind_liftB_ok in H. destruct H as [bd [b3 [_ H]]].
      assert (exists w3,
                (liftB (try_catch (perform env (Click applyButtonSelector))
                          (fun _ => perform env (EvaluateClick applyButtonSelector))) ;;
                 liftB (try_catch (waitForSelector env formSelector 10000)
                          (fun _ => throw (JsError "No application form available"))) ;;
                 liftB (fillApplicationForm userConfig) ;;
                 submitButton <- liftB (perform env (Query submitSelector)) ;;
                 if submitButton then
                   liftB (perform env (Click submitSelector)) ;;
                   liftB (race env (WaitForTimeout 5000) 10000 "Submission timeout") ;;
                   successIndicator <- liftB (perform env (Query successSelector)) ;;
                   if successIndicator then
                     logApplication env (appliedRecord job userConfig) ;;
                     ret (appliedResult job)
                   else throw (JsError "No success indicator found after submission")
                 else throw (JsError "Submit button not found"))%prog w3
                = (Ok res, w')) as [w3 H3].
      { destruct bd.
        - apply bind_liftB_ok in H. destruct H as [x [b4 [_ H]]].
          eexists. exact H.
        - unfold bind at 1, ret at 1 in H. eexists. exact H. }
      clear H. apply bind_liftB_ok in H3. destruct H3 as [c [b4 [_ H]]].
      apply bind_liftB_ok in H. destruct H as [u5 [b5 [Hform H]]].
      assert (respond env (trace b4) (WaitForSelector formSelector 10000) = Found)
        as Hform'.
      { simpl browser in Hform. revert Hform. unfold try_catch.
        destruct (waitForSelector env formSelector 10000 b4) as [[u|e] b6] eqn:Hw.
        - intros _. now apply waitForSelector_found in Hw.
        - unfold throw. intros Hthrow. discriminate Hthrow. }
      apply bind_liftB_ok in H. destruct H as [u6 [b6 [_ H]]].
      apply bind_liftB_ok in H. destruct H as [sb [b7 [Hsub H]]].
      destruct sb; [|discriminate H]. apply perform_found in Hsub.
      apply bind_liftB_ok in H. destruct H as [c8 [b8 [_ H]]].
      apply bind_liftB_ok in H. destruct H as [u9 [b9 [_ H]]].
      apply bind_liftB_ok in H. destruct H as [si [b10 [Hsucc H]]].
      destruct si; [|discriminate H]. apply perform_found in Hsucc.
      simpl in *. eauto 10.
  - exfalso. revert Hrun. unfold recover. intros H.
    apply bind_liftB_ok in H. destruct H as [t [b1 [_ H]]].
    unfold bind at 1 in H. destruct (logApplication env _ _) as [[row|e'] w2];
      [|discriminate H].
    unfold ret in H. injection H as <- _. discriminate Happ.
Qed.

End Stage.

Lemma result_agrees_with_row_witness :
  applyToJob rejecting_env (phone_form rejecting_env) the_posting plain_user
    (world_of [])
  = (Ok (errorResult the_posting
           (JsError "No success indicator found after submission")),
     snd rejected_attempt) /\
  jobUrl (errorResult the_posting
            (JsError "No success indicator found after submission"))
  = url the_posting.
Proof.
  assert (applyToJob rejecting_env (phone_form rejecting_env) the_posting plain_user
            (world_of [])
          = (Ok (errorResult the_posting
                   (JsError "No success indicator found after submission")),
             snd rejected_attempt)) as Hrun
    by (vm_compute; reflexivity).
  split; [exact Hrun|].
  exact (proj1 (result_agrees_with_row rejecting_env (phone_form rejecting_env)
                  the_posting plain_user (world_of []) _ _ Hrun)).
Defined.

Lemma applied_only_if_witness :
  ambiguous_attempt = (Ok (appliedResult the_posting), snd ambiguous_attempt) /\
  (elapsed ambiguous_env (trace (browser (world_of []))) (Goto (url the_posting))
   < 30000)%N.
Proof.
  assert (applyToJob ambiguous_env (phone_form ambiguous_env) the_posting plain_user
            (world_of [])
          = (Ok (appliedResult the_posting), snd ambiguous_attempt)) as Hrun
    by (vm_compute; reflexivity).
  split; [exact Hrun|].
  exact (proj1 (proj2 (applied_only_if ambiguous_env (phone_form ambiguous_env)
                         the_posting plain_user (world_of []) _ _ Hrun eq_refl))).
Defined.

End ApplyMore.

(** ** The navigation time-out, and the loop over the postings *)

Module LoopMore.
Import JS Store Apply ApplyFacts Measure Scenario Cases.

Section Stage.

Variable env : Env.
Variable fillApplicationForm : UserConfig -> Prog Browser unit.

(** X9. A posting whose page does not load within thirty seconds. The attempt
    stops at the navigation: nothing else is done on the page, one [error]
    row is written, and the error is "Navigation timeout", unless the store
    round trip has pushed the attempt beyond its sixty seconds, in which
    case it is the attempt's own time-out. *)
Theorem navigation_timeout (job : JobSearchResult) (userConfig : UserConfig) (w : World) :
  page (browser w) = true ->
  select_fault env (ledger w) (id userConfig) (url job) = None ->
  existsb (matches (id userConfig) (url job)) (ledger w) = false ->
  (30000 <= elapsed env (trace (browser w)) (Goto (url job)))%N ->
  (forall table row, insert_fault env table row = None) ->
  exists w',
    applyToJob env fillApplicationForm job userConfig w
    = (Ok (errorResult job
             (if (30000 <? store_elapsed env)%N
              then JsError "Application timeout after 60000ms"
              else JsError "Navigation timeout")), w') /\
    trace (browser w') = (trace (browser w) ++ [Goto (url job)])%list /\
    ledger w'
    = (ledger w ++
       [errorRecord job userConfig
          (if (30000 <? store_elapsed env)%N
           then JsError "Application timeout after 60000ms"
           else JsError "Navigation timeout")])%list.
Proof.
  intros Hpage Hsel Hex Hslow Hins.
  unfold applyToJob, try_catch, attempt, bind at 1, hasAppliedToJob.
  rewrite Hpage, Hsel, select_rows_nonempty, Hex.
  unfold navigateAndSubmit, bind at 1, liftB at 1, race, store_tick. simpl.
  apply N.leb_le in Hslow. rewrite Hslow.
  unfold recover, bind, liftB, now, logApplication. simpl.
  replace (clock (browser w) + store_elapsed env + 30000 - clock (browser w))%N
    with (store_elapsed env + 30000)%N by lia.
  replace (applicationTimeout <? store_elapsed env + 30000)%N
    with (30000 <? store_elapsed env)%N.
  2:{ unfold applicationTimeout.
      destruct (30000 <? store_elapsed env)%N eqn:H1;
        destruct (60000 <? store_elapsed env + 30000)%N eqn:H2; try reflexivity;
        [apply N.ltb_lt in H1; apply N.ltb_ge in H2 | apply N.ltb_ge in H1;
         apply N.ltb_lt in H2]; lia. }
  rewrite Hins, Hex. unfold ret. eexists. split; [reflexivity|].
  split; reflexivity.
Qed.

(** One step of the ledger: nothing, with the result [duplicate] or a
    throw; or one row, for a user and an address the ledger had no row for,
    with the result that goes with it. *)
Lemma applyToJob_step (job : JobSearchResult) (userConfig : UserConfig)
  (w : World) (r : Res ApplicationResult) (w' : World) :
  applyToJob env fillApplicationForm job userConfig w = (r, w') ->
  (ledger w' = ledger w /\
   (r = Ok (duplicateResult job) \/ exists e, r = Throw e)) \/
  (exists row, ledger w' = (ledger w ++ [row])%list /\
               existsb (matches (user_id row) (job_url row)) (ledger w) = false /\
               user_id row = id userConfig /\ job_url row = url job /\
               ((status row = applied /\ r = Ok (appliedResult job)) \/
                (status row = error /\ exists e, r = Ok (errorResult job e)))).
Proof.
  unfold applyToJob. destruct (page (browser w));
    [|intros H; injection H as <- <-; left; eauto].
  unfold try_catch.
  destruct (attempt env fillApplicationForm job userConfig w) as [[res|e] w1] eqn:Ha;
    apply attempt_outcome in Ha.
  - intros H. injection H as <- <-.
    destruct Ha as [[-> [-> _]] | [[-> [Hl [_ Hex]]] | [e [Hr _]]]].
    + left. auto.
    + right. exists (appliedRecord job userConfig). simpl. auto 8.
    + discriminate Hr.
  - assert (ledger w1 = ledger w) as Hl.
    { destruct Ha as [[Hr _] | [[Hr _] | [e0 [_ Hl]]]];
        [discriminate Hr | discriminate Hr | exact Hl]. }
    unfold recover. intros H. apply bind_liftB in H.
    destruct H as [[e1 [w2 [-> [-> Hl2]]]] | [t [w2 [Hl2 H]]]].
    { left. split; [congruence | eauto]. }
    unfold bind at 1 in H.
    destruct (logApplication env _ w2) as [[row|e1] w3] eqn:Hlog;
      apply logApplication_outcome in Hlog.
    + destruct Hlog as [[Hrow [Hl3 Hex]] | [e2 [Hr _]]]; [|discriminate Hr].
      injection Hrow as ->. unfold ret in H. injection H as <- <-.
      right. eexists. split; [rewrite Hl3, Hl2, Hl; reflexivity|].
      rewrite Hl2, Hl in Hex. simpl in *. eauto 8.
    + destruct Hlog as [[Hr _] | [e2 [_ Hl3]]]; [discriminate Hr|].
      injection H as <- <-. left. split; [congruence | eauto].
Qed.

(** The rows the loop of [processUser] writes. *)
Lemma applyAll_rows (jobs : list JobSearchResult) (userConfig : UserConfig)
  (counts : nat * nat) (w : World) :
  exists counts' w' rows,
    applyAll env fillApplicationForm jobs userConfig counts w = (Ok counts', w') /\
    ledger w' = (ledger w ++ rows)%list /\
    List.length rows <= List.length jobs /\
    Forall (fun row => user_id row = id userConfig /\
                       In (job_url row) (map url jobs) /\
                       (status row = applied \/ status row = error)) rows /\
    fst counts' = fst counts + List.length (filter is_applied rows) /\
    snd counts <= snd counts' /\
    fst counts' + snd counts' <= fst counts + snd counts + List.length jobs.
Proof.
  revert counts w. induction jobs as [|job rest IH]; intros counts w.
  - exists counts, w, []. simpl. unfold ret. rewrite app_nil_r.
    repeat split; auto; lia.
  - simpl applyAll. unfold bind at 1, try_catch, bind at 1.
    destruct (applyToJob env fillApplicationForm job userConfig w) as [r w1] eqn:Hrun.
    apply applyToJob_step in Hrun.
    assert (forall c1 w2 (pre : list AppliedJob),
               ledger w2 = (ledger w ++ pre)%list ->
               List.length pre <= 1 ->
               Forall (fun row => user_id row = id userConfig /\
                                  job_url row = url job /\
                                  (status row = applied \/ status row = error)) pre ->
               fst c1 = fst counts + List.length (filter is_applied pre) ->
               snd counts <= snd c1 ->
               fst c1 + snd c1 <= fst counts + snd counts + 1 ->
               exists counts' w' rows,
                 applyAll env fillApplicationForm rest userConfig c1 w2 = (Ok counts', w') /\
                 ledger w' = (ledger w ++ rows)%list /\
                 List.length rows <= S (List.length rest) /\
                 Forall (fun row => user_id row = id userConfig /\
                                    In (job_url row) (url job :: map url rest) /\
                                    (status row = applied \/ status row = error)) rows /\
                 fst counts' = fst counts + List.length (filter is_applied rows) /\
                 snd counts <= snd counts' /\
                 fst counts' + snd counts' <= fst counts + snd counts + S (List.length rest))
      as Hnext.
    { intros c1 w2 pre Hl Hlen Hpre Hfst Hsnd Hsum.
      destruct (IH c1 w2) as [c' [w' [rows [Hall [Hl' [Hlen' [Hrows [Hfst' [Hsnd' Hsum']]]]]]]]].
      exists c', w', (pre ++ rows)%list. split; [exact Hall|].
      split; [rewrite Hl', Hl; now rewrite app_assoc|].
      split; [rewrite length_app; lia|].
      split.
      { apply Forall_app. split.
        - eapply Forall_impl; [|exact Hpre]. simpl. intros a [? [? ?]]. auto.
        - eapply Forall_impl; [|exact Hrows]. simpl. intros a [? [? ?]]. auto. }
      rewrite filter_app, length_app. lia. }
    simpl map. simpl List.length.
    destruct Hrun as [[Hl [-> | [e ->]]] | [row [Hl [_ [Hu [Hj [[Hst ->] | [Hst [e ->]]]]]]]]].
    + unfold bind at 1, delay, ret. simpl.
      apply (Hnext _ _ []); simpl; rewrite ?app_nil_r; auto; lia.
    + unfold ret.
      apply (Hnext _ _ []); simpl; rewrite ?app_nil_r; auto; lia.
    + unfold bind at 1, delay, ret. simpl.
      apply (Hnext _ _ [row]); simpl; auto.
      * unfold is_applied. rewrite Hst. simpl. lia.
      * lia.
    + unfold bind at 1, delay, ret. simpl.
      apply (Hnext _ _ [row]); simpl; auto.
      * unfold is_applied. rewrite Hst. simpl. lia.
      * lia.
Qed.

(** X10. The loop of [processUser] over the postings never throws: a posting
    that fails is counted and the loop goes on. It only appends to the
    ledger, at most one row per posting, each for the user and for one of
    the postings and with outcome [applied] or [error]; the count of applied
    postings it returns is the number of [applied] rows it wrote. *)
Theorem applyAll_total (jobs : list JobSearchResult) (userConfig : UserConfig)
  (counts : nat * nat) (w : World) :
  exists counts' w' rows,
    applyAll env fillApplicationForm jobs userConfig counts w = (Ok counts', w') /\
    ledger w' = (ledger w ++ rows)%list /\
    List.length rows <= List.length jobs /\
    Forall (fun row => user_id row = id userConfig /\
                       In (job_url row) (map url jobs) /\
                       (status row = applied \/ status row = error)) rows /\
    fst counts' = fst counts + List.length (filter is_applied rows) /\
    snd counts <= snd counts' /\
    fst counts' + snd counts' <= fst counts + snd counts + List.length jobs.
Proof. apply applyAll_rows. Qed.

Lemma key_fresh (row : AppliedJob) (table : list AppliedJob) :
  existsb (matches (user_id row) (job_url row)) table = false ->
  ~ In (key row) (map key table).
Proof.
  intros Hex Hin. apply in_map_iff in Hin. destruct Hin as [r [Hk Hr]].
  assert (existsb (matches (user_id row) (job_url row)) table = true) as Ht.
  { apply existsb_exists. exists r. split; [exact Hr|].
    unfold key in Hk. injection Hk as Hu Hj. unfold matches.
    now rewrite Hu, Hj, !String.eqb_refl. }
  congruence.
Qed.

Lemma UniqueKeys_snoc (table : list AppliedJob) (row : AppliedJob) :
  UniqueKeys table ->
  existsb (matches (user_id row) (job_url row)) table = false ->
  UniqueKeys (table ++ [row]).
Proof.
  unfold UniqueKeys. intros Hnd Hex. rewrite map_app. simpl.
  apply NoDup_app; [exact Hnd | constructor; [intros [] | constructor] |].
  intros k Hk [<-|[]]. exact (key_fresh row table Hex Hk).
Qed.

Lemma UniqueKeys_same_row (table : list AppliedJob) (r1 r2 : AppliedJob) :
  UniqueKeys table -> In r1 table -> In r2 table -> key r1 = key r2 -> r1 = r2.
Proof.
  unfold UniqueKeys. induction table as [|x t IH]; simpl; [tauto|].
  intros Hnd H1 H2 Hk. inversion Hnd as [|? ? Hx Ht]; subst.
  destruct H1 as [<-|H1], H2 as [<-|H2].
  - reflexivity.
  - exfalso. apply Hx. rewrite Hk. now apply in_map.
  - exfalso. apply Hx. rewrite <- Hk. now apply in_map.
  - now apply IH.
Qed.

Lemma applyToJob_unique (job : JobSearchResult) (userConfig : UserConfig)
  (w : World) (r : Res ApplicationResult) (w' : World) :
  UniqueKeys (ledger w) ->
  applyToJob env fillApplicationForm job userConfig w = (r, w') ->
  UniqueKeys (ledger w').
Proof.
  intros Hu Hrun. apply applyToJob_step in Hrun.
  destruct Hrun as [[-> _] | [row [-> [Hex _]]]]; [exact Hu|].
  now apply UniqueKeys_snoc.
Qed.

Lemma applyAll_unique (jobs : list JobSearchResult) (userConfig : UserConfig)
  (counts : nat * nat) (w : World) :
  UniqueKeys (ledger w) ->
  UniqueKeys (ledger (snd (applyAll env fillApplicationForm jobs userConfig counts w))).
Proof.
  revert counts w. induction jobs as [|job rest IH]; intros c w0 Hu; [exact Hu|].
  simpl applyAll. unfold bind at 1, try_catch, bind at 1.
  destruct (applyToJob env fillApplicationForm job userConfig w0) as [[res|e] w1] eqn:Hrun;
    apply (applyToJob_unique _ _ _ _ _ Hu) in Hrun.
  - unfold bind at 1, delay, ret. apply IH. exact Hrun.
  - unfold ret. apply IH. exact Hrun.
Qed.

(** X11. The ledger keeps one row per user and address: if no two rows were for
    the same user and address before [applyToJob], or before the whole loop
    of [processUser], none are afterwards. So a user never has two
    [applied] rows for one address. *)
Theorem ledger_keeps_unique_keys (jobs : list JobSearchResult) (userConfig : UserConfig)
  (counts : nat * nat) (w : World) :
  UniqueKeys (ledger w) ->
  (forall job r w', applyToJob env fillApplicationForm job userConfig w = (r, w') ->
                    UniqueKeys (ledger w')) /\
  UniqueKeys (ledger (snd (applyAll env fillApplicationForm jobs userConfig counts w))) /\
  forall r1 r2,
    In r1 (ledger (snd (applyAll env fillApplicationForm jobs userConfig counts w))) ->
    In r2 (ledger (snd (applyAll env fillApplicationForm jobs userConfig counts w))) ->
    user_id r1 = user_id r2 -> job_url r1 = job_url r2 -> r1 = r2.
Proof.
  intros Huniq.
  split; [intros job r w'; now apply applyToJob_unique|].
  split; [now apply applyAll_unique|].
  intros r1 r2 H1 H2 Hu Hj.
  apply (UniqueKeys_same_row _ r1 r2 (applyAll_unique jobs userConfig counts w Huniq) H1 H2).
  unfold key. now rewrite Hu, Hj.
Qed.

End Stage.

Lemma navigation_timeout_witness :
  exists w',
    applyToJob slow_env (phone_form slow_env) the_posting plain_user (world_of [])
    = (Ok (errorResult the_posting (JsError "Navigation timeout")), w') /\
    trace (browser w') = [Goto (url the_posting)] /\
    ledger w' = [errorRecord the_posting plain_user (JsError "Navigation timeout")].
Proof.
  apply (navigation_timeout slow_env (phone_form slow_env) the_posting plain_user
           (world_of [])); try reflexivity.
  vm_compute. discriminate.
Defined.

Lemma ledger_keeps_unique_keys_witness :
  UniqueKeys (ledger (world_of prior_applied)) /\
  UniqueKeys (ledger (snd (applyAll steady_env (phone_form steady_env) three_postings
                             plain_user (0, 0) (world_of prior_applied)))).
Proof.
  assert (UniqueKeys (ledger (world_of prior_applied))) as Hu.
  { unfold UniqueKeys. simpl. constructor; [intros [] | constructor]. }
  split; [exact Hu|].
  exact (proj1 (proj2 (ledger_keeps_unique_keys steady_env (phone_form steady_env)
                         three_postings plain_user (0, 0) (world_of prior_applied) Hu))).
Defined.

End LoopMore.

(** ** What the steps do to the page *)

Module TraceMore.
Import JS Apply Phone Fields Measure Scenario Cases.

Section Logic.

Variable env : Env.
Variable Q : Action -> Prop.

Lemma only_ret {A} (a : A) : emits_only Q (ret a).
Proof.
  intros b r b' H. injection H as <- <-. exists []. now rewrite app_nil_r.
Qed.

Lemma only_throw {A} (e : Exn) : emits_only Q (@throw Browser A e).
Proof.
  intros b r b' H. injection H as <- <-. exists []. now rewrite app_nil_r.
Qed.

Lemma only_perform (a : Action) : Q a -> emits_only Q (perform env a).
Proof.
  intros Ha b r b' H. exists [a]. split; [|now constructor].
  unfold perform in H. destruct (respond env (trace b) a); injection H as <- <-;
    reflexivity.
Qed.

Lemma only_bind {A B} (m : Prog Browser A) (k : A -> Prog Browser B) :
  emits_only Q m -> (forall a, emits_only Q (k a)) -> emits_only Q (bind m k).
Proof.
  intros Hm Hk b r b' H. unfold bind in H.
  destruct (m b) as [[a|e] b1] eqn:Hmb; destruct (Hm _ _ _ Hmb) as [acts [Ht Hq]].
  - destruct (Hk a _ _ _ H) as [acts' [Ht' Hq']].
    exists (acts ++ acts')%list. split; [now rewrite Ht', Ht, app_assoc|].
    apply Forall_app. now split.
  - injection H as <- <-. eauto.
Qed.

Lemma only_try {A} (m : Prog Browser A) (h : Exn -> Prog Browser A) :
  emits_only Q m -> (forall e, emits_only Q (h e)) -> emits_only Q (try_catch m h).
Proof.
  intros Hm Hh b r b' H. unfold try_catch in H.
  destruct (m b) as [[a|e] b1] eqn:Hmb; destruct (Hm _ _ _ Hmb) as [acts [Ht Hq]].
  - injection H as <- <-. eauto.
  - destruct (Hh e _ _ _ H) as [acts' [Ht' Hq']].
    exists (acts ++ acts')%list. split; [now rewrite Ht', Ht, app_assoc|].
    apply Forall_app. now split.
Qed.

Lemma only_guard {A} (m : Prog Browser A) (a : A) :
  emits_only Q m -> emits_only Q (fun b => if page b then m b else (Ok a, b)).
Proof.
  intros Hm b r b' H. destruct (page b); [exact (Hm _ _ _ H)|].
  injection H as <- <-. exists []. now rewrite app_nil_r.
Qed.

End Logic.

Lemma only_weaken (Q Q' : Action -> Prop) {A} (m : Prog Browser A) :
  (forall a, Q a -> Q' a) -> emits_only Q m -> emits_only Q' m.
Proof.
  intros Hqq Hm b r b' H. destruct (Hm _ _ _ H) as [acts [Ht Hq]].
  exists acts. split; [exact Ht|]. eapply Forall_impl; [exact Hqq | exact Hq].
Qed.

Lemma dismissOverlays_no_fill (env : Env) : emits_only no_fill (dismissOverlays env).
Proof.
  unfold dismissOverlays, swallow. apply only_guard.
  repeat first
    [ apply only_bind; [|intros []]
    | apply only_try; [|intros ?]
    | apply only_ret
    | apply only_perform; intros s x; discriminate ].
Qed.

Section Fill.

Variable env : Env.

Lemma tryFill_fills_only (selectors : list string) (sel value : string) :
  In sel selectors -> emits_only (fills_only selectors value) (tryFill env sel value).
Proof.
  intros Hin. unfold tryFill.
  apply only_try; [|intros ?; apply only_ret].
  apply only_bind; [apply only_perform; intros s x; discriminate|].
  intros [|]; [|apply only_ret].
  apply only_bind.
  - apply (only_weaken no_fill); [|apply dismissOverlays_no_fill].
    intros a Ha s x Heq. now elim (Ha s x).
  - intros []. apply only_bind; [|intros ?; apply only_ret].
    apply only_perform. intros s x Heq. injection Heq as <- <-. now split.
Qed.

Lemma robustFill_from_fills_only (selectors sels : list string) (value : string) :
  (forall s, In s sels -> In s selectors) ->
  emits_only (fills_only selectors value) (robustFill_from env sels value).
Proof.
  induction sels as [|sel rest IH]; intros Hsub; simpl.
  - apply only_ret.
  - apply only_bind; [apply tryFill_fills_only, Hsub; now left|].
    intros [|]; [apply only_ret|]. apply IH. intros s Hs. apply Hsub. now right.
Qed.

(** [tryFill] returns [true] only when its last action on the page was
    the fill. *)
Lemma tryFill_true (sel value : string) (b b' : Browser) :
  tryFill env sel value b = (Ok true, b') ->
  exists pre, trace b' = (trace b ++ pre ++ [Fill sel value])%list.
Proof.
  unfold tryFill, try_catch, bind at 1.
  destruct (perform env (Query sel) b) as [[found|e] b1] eqn:Hq;
    [|unfold ret; discriminate].
  assert (trace b1 = (trace b ++ [Query sel])%list) as Ht1.
  { unfold perform in Hq. destruct (respond env (trace b) (Query sel));
      injection Hq as _ <-; reflexivity. }
  destruct found; [|unfold ret; discriminate].
  unfold bind at 1.
  destruct (dismissOverlays env b1) as [[u|e] b2] eqn:Hd; [|unfold ret; discriminate].
  destruct (dismissOverlays_no_fill env _ _ _ Hd) as [acts [Ht2 _]].
  unfold bind at 1, perform.
  destruct (respond env (trace b2) (Fill sel value)); unfold ret; simpl;
    intros H; try discriminate H; injection H as <-; simpl;
    exists ([Query sel] ++ acts)%list; rewrite Ht2, Ht1, <- !app_assoc; reflexivity.
Qed.

Lemma robustFill_from_true (sels : list string) (value : string) (b b' : Browser) :
  robustFill_from env sels value b = (Ok true, b') ->
  exists pre sel, In sel sels /\ trace b' = (trace b ++ pre ++ [Fill sel value])%list.
Proof.
  revert b. induction sels as [|sel rest IH]; intros b; simpl.
  - unfold ret. discriminate.
  - unfold bind at 1.
    destruct (tryFill env sel value b) as [[filled|e] b1] eqn:Ht; [|discriminate].
    destruct filled.
    + unfold ret. intros H. injection H as <-.
      destruct (tryFill_true _ _ _ _ Ht) as [pre Hpre]. exists pre, sel. auto.
    + intros H. destruct (IH _ H) as [pre [s [Hs Hpre]]].
      destruct (tryFill_fills_only [sel] sel value (or_introl eq_refl) _ _ _ Ht)
        as [acts [Hacts _]].
      exists (acts ++ pre)%list, s. split; [now right|].
      rewrite Hpre, Hacts, <- !app_assoc. reflexivity.
Qed.

Lemma tryFill_no_throw (sel value : string) (b : Browser) :
  exists filled b', tryFill env sel value b = (Ok filled, b').
Proof.
  unfold tryFill, try_catch.
  match goal with
  | |- context [match ?m with _ => _ end] => destruct m as [[filled|e] b1]
  end; unfold ret; eauto.
Qed.

Lemma robustFill_from_no_throw (sels : list string) (value : string) (b : Browser) :
  exists filled b', robustFill_from env sels value b = (Ok filled, b').
Proof.
  revert b. induction sels as [|sel rest IH]; intros b; simpl.
  - unfold ret. eauto.
  - unfold bind. destruct (tryFill_no_throw sel value b) as [filled [b1 ->]].
    destruct filled; [unfold ret; eauto | apply IH].
Qed.

(** X12. [robustFill] writes nothing but the value it was given, and only into
    an element found by one of its selectors. When it returns [true], the
    fill was its last action: it stops at the first element it could fill.
    A selector that fails is passed over; only the dismissal of overlays
    that opens the call can make it throw, and then nothing was written. *)
Theorem robustFill_fills_once (selectors : list string) (value : string)
  (b : Browser) (r : Res bool) (b' : Browser) :
  robustFill env selectors value b = (r, b') ->
  exists acts,
    trace b' = (trace b ++ acts)%list /\
    Forall (fills_only selectors value) acts /\
    (r = Ok true ->
     exists pre sel, In sel selectors /\ acts = (pre ++ [Fill sel value])%list) /\
    (forall e, r = Throw e -> Forall no_fill acts).
Proof.
  unfold robustFill. destruct (page b) eqn:Hpage.
  - unfold bind.
    destruct (dismissOverlays env b) as [[u|e] b1] eqn:Hd;
      destruct (dismissOverlays_no_fill env _ _ _ Hd) as [acts0 [Ht0 Hq0]].
    + intros H.
      destruct (robustFill_from_fills_only selectors selectors value (fun s Hs => Hs)
                  _ _ _ H) as [acts1 [Ht1 Hq1]].
      exists (acts0 ++ acts1)%list. split; [now rewrite Ht1, Ht0, app_assoc|].
      split.
      { apply Forall_app. split; [|exact Hq1].
        eapply Forall_impl; [|exact Hq0]. intros a Ha s x Heq. now elim (Ha s x). }
      split.
      * intros ->. destruct (robustFill_from_true _ _ _ _ H) as [pre [sel [Hs Hpre]]].
        exists (acts0 ++ pre)%list, sel. split; [exact Hs|].
        rewrite Ht1, Ht0 in Hpre. rewrite <- !app_assoc in Hpre.
        apply app_inv_head in Hpre. apply app_inv_head in Hpre.
        rewrite <- app_assoc. now f_equal.
      * intros e ->. destruct (robustFill_from_no_throw selectors value b1)
          as [filled [b2 Hno]]. rewrite Hno in H. discriminate H.
    + intros H. injection H as <- <-. exists acts0. split; [exact Ht0|].
      split; [eapply Forall_impl; [|exact Hq0]; intros a Ha s x Heq; now elim (Ha s x)|].
      split; [discriminate|]. intros _ _. exact Hq0.
  - intros H. injection H as <- <-. exists []. rewrite app_nil_r.
    repeat split; try constructor; discriminate.
Qed.

End Fill.

Lemma robustFill_fills_once_witness :
  robustFill placeholder_env firstNameSelectors "Ada" ready_browser
  = (Ok true, snd (robustFill placeholder_env firstNameSelectors "Ada" ready_browser)) /\
  exists acts,
    trace (snd (robustFill placeholder_env firstNameSelectors "Ada" ready_browser))
    = (trace ready_browser ++ acts)%list /\
    Forall (fills_only firstNameSelectors "Ada") acts.
Proof.
  assert (robustFill placeholder_env firstNameSelectors "Ada" ready_browser
          = (Ok true,
             snd (robustFill placeholder_env firstNameSelectors "Ada" ready_browser)))
    as Hrun by (vm_compute; reflexivity).
  split; [exact Hrun|].
  destruct (robustFill_fills_once placeholder_env firstNameSelectors "Ada" ready_browser
              _ _ Hrun) as [acts [Ht [Hq _]]].
  exists acts. split; assumption.
Defined.

Example robustFill_placeholder :
  robustFill placeholder_env firstNameSelectors "Ada" ready_browser
  = (Ok true,
     {| page := true;
        trace := [Query cookieSelector; Query backdropSelector;
                  Query ("input[name*=" ++ q "first" ++ " i]");
                  Query ("input[placeholder*=" ++ q "first" ++ " i]");
                  Query cookieSelector; Query backdropSelector;
                  Fill ("input[placeholder*=" ++ q "first" ++ " i]") "Ada"];
        clock := 7 |}).
Proof. vm_compute. reflexivity. Qed.

Section Submit.

Variable env : Env.

Lemma improvedSubmit_from_clicks (selectors sels : list string)
  (b : Browser) (r : Res bool) (b' : Browser) :
  (forall s, In s sels -> In s selectors) ->
  improvedSubmit_from env sels b = (r, b') ->
  exists acts,
    trace b' = (trace b ++ acts)%list /\
    clicks acts <= 1 /\
    (r = Ok true -> clicks acts = 1) /\
    (clicks acts = 0 -> r <> Ok true) /\
    Forall (clicks_only selectors) acts.
Proof.
  revert b r b'. induction sels as [|sel rest IH]; intros b r b' Hsub; simpl.
  - unfold ret. intros H. injection H as <- <-. exists []. rewrite app_nil_r.
    unfold clicks. simpl. repeat split; try constructor; try lia; discriminate.
  - assert (In sel selectors) as Hsel by (apply Hsub; now left).
    assert (forall s, In s rest -> In s selectors) as Hrest
      by (intros s Hs; apply Hsub; now right).
    assert (clicks_only selectors (Click sel)) as Hclick
      by (intros s Heq; injection Heq as <-; exact Hsel).
    assert (forall a, is_click a = false -> clicks_only selectors a) as Hother
      by (intros a Ha s Heq; subst a; discriminate Ha).
    unfold bind at 1, perform at 1.
    destruct (respond env (trace b) (Query sel)).
    + unfold bind, perform, ret, record. simpl.
      repeat match goal with
             | |- context [respond env ?tr ?a] => destruct (respond env tr a)
             end;
        intros H; injection H as <- <-; simpl;
        rewrite <- ?app_assoc; simpl;
        eexists; (split; [reflexivity|]); unfold clicks; simpl;
        repeat split; try lia; try discriminate;
        repeat (constructor; auto).
    + intros H. apply IH in H; [|exact Hrest].
      destruct H as [acts [Ht [Hle [Htrue [Hzero Hq]]]]].
      exists (Query sel :: acts). simpl in Ht. rewrite Ht, <- app_assoc.
      split; [reflexivity|]. unfold clicks in *. simpl.
      split; [exact Hle|]. split; [exact Htrue|]. split; [exact Hzero|].
      constructor; [apply Hother; reflexivity | exact Hq].
    + intros H. injection H as <- <-. simpl. exists [Query sel].
      unfold clicks. simpl.
      split; [reflexivity|]. split; [lia|]. split; [discriminate|].
      split; [discriminate|]. constructor; [apply Hother; reflexivity | constructor].
Qed.

(** X13. [improvedSubmit] clicks at most one control, one of its submit
    selectors, and never clicks again after a validation message: it reports
    [true] only after exactly one click, and [false] when it found no submit
    control. *)
Theorem improvedSubmit_clicks_once (b : Browser) (r : Res bool) (b' : Browser) :
  improvedSubmit env b = (r, b') ->
  exists acts,
    trace b' = (trace b ++ acts)%list /\
    clicks acts <= 1 /\
    (r = Ok true -> clicks acts = 1) /\
    (clicks acts = 0 -> r <> Ok true) /\
    Forall (clicks_only submitSelectors) acts.
Proof.
  unfold improvedSubmit. destruct (page b).
  - apply improvedSubmit_from_clicks. auto.
  - intros H. injection H as <- <-. exists []. rewrite app_nil_r.
    unfold clicks. simpl. repeat split; try constructor; try lia; discriminate.
Qed.

(** X14. Whatever the country selector does, [handlePhoneInput] writes the
    fixed number whenever the phone input can be found and written to, and
    it does not throw then. *)
Theorem phone_written_despite_selector (b : Browser) :
  page b = true ->
  (forall tr, respond env tr (Query phoneInputSelector) = Found) ->
  (forall tr e, respond env tr (Fill phoneInputSelector fixedPhone) <> Fails e) ->
  exists b', handlePhoneInput env b = (Ok tt, b') /\
             In (Fill phoneInputSelector fixedPhone) (added b b').
Proof.
  intros Hpage Hq Hf. unfold handlePhoneInput. rewrite Hpage.
  unfold try_catch, fillPhone, bind, perform, ret, added.
  rewrite ?Hq.
  repeat match goal with
         | |- context [respond env ?tr ?a] =>
             let H := fresh "H" in
             destruct (respond env tr a) eqn:H; rewrite ?Hq
         end;
    try (exfalso; eapply Hf; eassumption);
    eexists; (split; [reflexivity|]); cbn [snd record trace];
    rewrite <- ?app_assoc, PhoneFacts.skipn_app_exact; simpl; tauto.
Qed.

End Submit.

Lemma improvedSubmit_clicks_once_witness :
  improvedSubmit ambiguous_env ready_browser
  = (Ok false, snd (improvedSubmit ambiguous_env ready_browser)) /\
  exists acts,
    trace (snd (improvedSubmit ambiguous_env ready_browser))
    = (trace ready_browser ++ acts)%list /\
    clicks acts <= 1.
Proof.
  assert (improvedSubmit ambiguous_env ready_browser
          = (Ok false, snd (improvedSubmit ambiguous_env ready_browser))) as Hrun
    by (vm_compute; reflexivity).
  split; [exact Hrun|].
  destruct (improvedSubmit_clicks_once ambiguous_env ready_browser _ _ Hrun)
    as [acts [Ht [Hle _]]].
  exists acts. split; assumption.
Defined.

Lemma phone_written_despite_selector_witness :
  exists b', handlePhoneInput flagless_env ready_browser = (Ok tt, b') /\
             In (Fill phoneInputSelector fixedPhone) (added ready_browser b').
Proof.
  apply (phone_written_despite_selector flagless_env ready_browser).
  - reflexivity.
  - intros tr. reflexivity.
  - intros tr e. discriminate.
Defined.

End TraceMore.

(** ** The name block of the field population *)

Module FieldsMore.
Import JS JSFacts JSMore Fields Measure TraceMore Scenario Cases.

Lemma trimEnd_cons_fixed (c : ascii) (r : string) :
  trimEnd (String c r) = String c r ->
  trimEnd r = r /\ (is_space c = true -> r <> EmptyString).
Proof.
  simpl. destruct (trimEnd r) as [|c' r'] eqn:Hr.
  - destruct (is_space c); [discriminate|]. intros H. injection H as <-.
    split; [reflexivity | discriminate].
  - intros H. injection H as <-. split; [reflexivity|]. intros _. discriminate.
Qed.

Lemma trim_fixed (s : string) :
  trimEnd (trim s) = trim s /\
  (trim s = EmptyString \/ exists c r, trim s = String c r /\ is_space c = false).
Proof.
  unfold trim. split; [apply trimEnd_idem|].
  destruct (trimStart_head s) as [H | [c [r [H Hc]]]]; rewrite H; [now left|].
  right. destruct (trimEnd_head c r Hc) as [r' Hr]. eauto.
Qed.

(** The pieces of a string without white space at its end: all are words,
    but the first, which may be empty. *)
Lemma splitSpaces_words (s : string) :
  trimEnd s = s ->
  (exists h t, splitSpaces false s = h :: t /\ spaceless h = true /\ Forall word t) /\
  (s <> EmptyString -> Forall word (splitSpaces true s)).
Proof.
  induction s as [|c r IH]; intros Hfix.
  - split; [exists EmptyString, []; repeat split; constructor | intros H; now elim H].
  - apply trimEnd_cons_fixed in Hfix. destruct Hfix as [Hr Hne].
    destruct (IH Hr) as [[h [t [Hs [Hh Ht]]]] Htrue]. simpl.
    destruct (is_space c) eqn:Hc.
    + split; [|intros _; apply Htrue, Hne; reflexivity].
      exists EmptyString, (splitSpaces true r). repeat split.
      apply Htrue, Hne. reflexivity.
    + rewrite Hs.
      assert (spaceless (String c h) = true) as Hw by (simpl; now rewrite Hc, Hh).
      split; [exists (String c h), t; auto|].
      intros _. constructor; [split; [discriminate | exact Hw] | exact Ht].
Qed.

Lemma splitSpaces_flag (c : ascii) (r : string) :
  is_space c = false -> splitSpaces true (String c r) = splitSpaces false (String c r).
Proof. intros Hc. simpl. now rewrite Hc. Qed.

Lemma splitSpaces_word_app (w s : string) :
  spaceless w = true ->
  splitSpaces false (w ++ s)
  = match splitSpaces false s with
    | [] => [w]
    | h :: t => (w ++ h)%string :: t
    end.
Proof.
  induction w as [|c w IH]; simpl; intros Hw.
  - destruct (splitSpaces false s) eqn:Hs; [|reflexivity].
    destruct s as [|c r]; simpl in Hs; [discriminate|].
    destruct (is_space c); [discriminate|]. destruct (splitSpaces false r); discriminate.
  - apply andb_true_iff in Hw. destruct Hw as [Hc Hw].
    apply negb_true_iff in Hc. rewrite Hc, (IH Hw).
    destruct (splitSpaces false s); reflexivity.
Qed.

Lemma trimEnd_word_app (w s : string) :
  spaceless w = true -> trimEnd (w ++ s) = (w ++ trimEnd s)%string.
Proof.
  induction w as [|c w IH]; simpl; intros Hw; [reflexivity|].
  apply andb_true_iff in Hw. destruct Hw as [Hc Hw].
  apply negb_true_iff in Hc. rewrite (IH Hw), Hc.
  destruct (w ++ trimEnd s)%string; reflexivity.
Qed.

Lemma join_words (w : string) (ws : list string) :
  Forall word (w :: ws) ->
  splitSpaces false (join (w :: ws)) = w :: ws /\
  trimEnd (join (w :: ws)) = join (w :: ws) /\
  exists c r, join (w :: ws) = String c r /\ is_space c = false.
Proof.
  revert w. induction ws as [|w2 ws IH]; intros w Hall.
  - inversion Hall as [|? ? [Hne Hw] _]; subst. simpl.
    split; [|split].
    + rewrite <- (str_app_empty_r w) at 1. rewrite splitSpaces_word_app by exact Hw.
      simpl. now rewrite str_app_empty_r.
    + rewrite <- (str_app_empty_r w) at 1. rewrite trimEnd_word_app by exact Hw.
      simpl. now rewrite str_app_empty_r.
    + destruct w as [|c r]; [now elim Hne|]. simpl in Hw.
      apply andb_true_iff in Hw. destruct Hw as [Hc _]. apply negb_true_iff in Hc. eauto.
  - inversion Hall as [|? ? [Hne Hw] Hrest]; subst.
    destruct (IH w2 Hrest) as [Hsplit [Htrim [c [r [Hj Hc]]]]].
    change (join (w :: w2 :: ws)) with (w ++ " " ++ join (w2 :: ws))%string.
    split; [|split].
    + rewrite splitSpaces_word_app by exact Hw.
      change (splitSpaces false (" " ++ join (w2 :: ws)))
        with (EmptyString :: splitSpaces true (join (w2 :: ws))).
      rewrite Hj, (splitSpaces_flag c r Hc), <- Hj, Hsplit.
      now rewrite str_app_empty_r.
    + rewrite trimEnd_word_app by exact Hw. f_equal.
      change (trimEnd (" " ++ join (w2 :: ws)))
        with (match trimEnd (join (w2 :: ws)) with
              | EmptyString => if is_space " " then EmptyString else String " " EmptyString
              | r' => String " " r'
              end).
      rewrite Htrim, Hj. reflexivity.
    + destruct w as [|c0 r0]; [now elim Hne|]. simpl in Hw.
      apply andb_true_iff in Hw. destruct Hw as [Hc0 _]. apply negb_true_iff in Hc0.
      simpl. eauto.
Qed.

Lemma or_else_word (a b : string) : a <> EmptyString -> or_else a b = a.
Proof. intros H. unfold or_else. apply String.eqb_neq in H. now rewrite H. Qed.

(** X15. The names written to the form. A missing, empty or blank [full_name]
    leaves both names to the answer service. Otherwise the first name is
    the first word of [full_name], whatever white space surrounds it, and
    never the service's text; and for a name given as words separated by
    single spaces, the first name is the first word and the last name all
    the other words, or the service's text when there is only one word. *)
Theorem nameParts_spec (generated : string -> string) (userConfig : UserConfig) :
  (full_name userConfig = None ->
   nameParts generated userConfig = (generated "First name", generated "Last name")) /\
  (forall name, full_name userConfig = Some name ->
     (trim name = EmptyString ->
      nameParts generated userConfig
      = (generated "First name", generated "Last name")) /\
     (trim name <> EmptyString ->
      word (fst (nameParts generated userConfig)) /\
      fst (nameParts generated userConfig)
      = hd EmptyString (splitSpaces false (trim name))) /\
     (forall w ws, name = join (w :: ws) -> Forall word (w :: ws) ->
                   nameParts generated userConfig
                   = (w, or_else (join ws) (generated "Last name")))).
Proof.
  split; [intros Hnone; unfold nameParts; now rewrite Hnone|].
  intros name Hname. unfold nameParts. rewrite Hname. simpl truthy.
  split; [|split].
  - intros Htrim. destruct (name =? EmptyString); simpl; [reflexivity|].
    rewrite Htrim. reflexivity.
  - intros Htrim.
    assert ((name =? EmptyString) = false) as Hne.
    { apply String.eqb_neq. intros ->. now elim Htrim. }
    rewrite Hne. simpl.
    destruct (trim_fixed name) as [Hfix [Hempty | [c [r [Ht Hc]]]]];
      [now elim Htrim|].
    destruct (splitSpaces_words (trim name) Hfix) as [[h [t [Hs _]]] Hwords].
    specialize (Hwords Htrim). rewrite Ht in Hwords.
    rewrite (splitSpaces_flag c r Hc), <- Ht, Hs in Hwords. rewrite Hs.
    apply Forall_inv in Hwords. simpl.
    rewrite (or_else_word h _ (proj1 Hwords)). auto.
  - intros w ws -> Hall.
    destruct (join_words w ws Hall) as [Hsplit [Htrim [c [r [Hj Hc]]]]].
    assert (trim (join (w :: ws)) = join (w :: ws)) as Htr.
    { unfold trim. rewrite Hj. simpl trimStart. rewrite Hc, <- Hj. exact Htrim. }
    assert ((join (w :: ws) =? EmptyString) = false) as Hne
      by (rewrite Hj; reflexivity).
    rewrite Hne. simpl negb. cbv iota. rewrite Htr, Hsplit. simpl hd. simpl tl.
    inversion Hall as [|? ? [Hw _] _]; subst.
    now rewrite (or_else_word w _ Hw).
Qed.

Lemma nameParts_spec_witness :
  nameParts unsure nameless_user = ("Not specified", "Not specified") /\
  word (fst (nameParts unsure padded_user)) /\
  nameParts unsure padded_user = ("Mary", "Ann Smith") /\
  word (fst (nameParts unsure nbsp_user)) /\
  nameParts unsure nbsp_user = ("Mary", "Smith").
Proof.
  split; [exact (proj1 (nameParts_spec unsure nameless_user) eq_refl)|].
  split.
  { apply (proj1 (proj2 (proj2 (nameParts_spec unsure padded_user) _ eq_refl))).
    vm_compute. discriminate. }
  split; [vm_compute; reflexivity|].
  split; [|vm_compute; reflexivity].
  apply (proj1 (proj2 (proj2 (nameParts_spec unsure nbsp_user) _ eq_refl))).
  vm_compute. discriminate.
Defined.

Lemma robustFill_only (env : Env) (selectors : list string) (value : string) :
  emits_only (fills_only selectors value) (robustFill env selectors value).
Proof.
  unfold robustFill. apply only_guard. apply only_bind.
  - apply (only_weaken no_fill); [|apply dismissOverlays_no_fill].
    intros a Ha s x Heq. now elim (Ha s x).
  - intros []. apply robustFill_from_fills_only. auto.
Qed.

(** X16. The name block writes nothing but the two names it computed: the first
    name, and only into a field found by a first-name selector, and the
    last name, and only into a field found by a last-name selector. *)
Theorem fillNames_writes_names (env : Env) (generated : string -> string)
  (userConfig : UserConfig) :
  emits_only (name_fills firstNameSelectors lastNameSelectors
                (nameParts generated userConfig))
             (fillNames env generated userConfig).
Proof.
  unfold fillNames. apply only_bind.
  - apply (only_weaken (fills_only firstNameSelectors
                          (fst (nameParts generated userConfig))));
      [|apply robustFill_only].
    intros a Ha s x Heq. left. destruct (Ha s x Heq). auto.
  - intros _. apply only_bind; [|intros _; apply only_ret].
    apply (only_weaken (fills_only lastNameSelectors
                          (snd (nameParts generated userConfig))));
      [|apply robustFill_only].
    intros a Ha s x Heq. right. destruct (Ha s x Heq). auto.
Qed.

Lemma fillNames_writes_names_witness :
  exists acts,
    trace (snd (fillNames placeholder_env unsure padded_user ready_browser))
    = (trace ready_browser ++ acts)%list /\
    Forall (name_fills firstNameSelectors lastNameSelectors
              (nameParts unsure padded_user)) acts.
Proof.
  apply (fillNames_writes_names placeholder_env unsure padded_user ready_browser
           (fst (fillNames placeholder_env unsure padded_user ready_browser))).
  apply surjective_pairing.
Defined.

End FieldsMore.

(** ** The yes/no heuristics *)

Module HeuristicsMore.
Import JS JSFacts JSMore Heuristics Scenario Cases.

Lemma find_first {A} (p : A -> bool) (l : list A) (x : A) :
  find p l = Some x ->
  exists pre post, l = (pre ++ x :: post)%list /\ p x = true /\
                   forall y, In y pre -> p y = false.
Proof.
  induction l as [|a r IH]; simpl; [discriminate|].
  destruct (p a) eqn:Ha.
  - intros H. injection H as <-. exists [], r. repeat split; [exact Ha | intros y []].
  - intros H. destruct (IH H) as [pre [post [-> [Hx Hpre]]]].
    exists (a :: pre), post. repeat split; [exact Hx|].
    intros y [<-|Hy]; [exact Ha | now apply Hpre].
Qed.

Lemma chooseRadio_none (group : list Choice) :
  chooseRadio group = None <->
  forall o, In o group -> signalsYes o = false /\ signalsNo o = true.
Proof.
  unfold chooseRadio. split.
  - destruct (find signalsYes group) eqn:Hy; [discriminate|]. intros Hn o Hin.
    split; [exact (find_none _ _ Hy o Hin)|].
    pose proof (find_none _ _ Hn o Hin) as H. now apply negb_false_iff in H.
  - intros Hall. destruct (find signalsYes group) as [y|] eqn:Hy.
    + apply find_some in Hy. destruct Hy as [Hin Hyes].
      destruct (Hall y Hin) as [Hf _]. congruence.
    + destruct (find (fun o => negb (signalsNo o)) group) as [n|] eqn:Hn;
        [|reflexivity].
      apply find_some in Hn. destruct Hn as [Hin Hno].
      destruct (Hall n Hin) as [_ Ht]. rewrite Ht in Hno. discriminate.
Qed.

(** X17. The option clicked in a radio group. When some option is a "Yes"
    option, the first such option is clicked; otherwise the first option
    that is not a "No" option; and nothing is clicked exactly when every
    option is a "No" option and none a "Yes" option. The clicked option is
    always one of the group. The tests on the exact values "Yes", "YES",
    "No" and "NO" add nothing to the tests on the lower-cased value. *)
Theorem chooseRadio_spec (group : list Choice) :
  (forall o, chooseRadio group = Some o ->
     exists pre post, group = (pre ++ o :: post)%list /\
       ((signalsYes o = true /\ forall y, In y pre -> signalsYes y = false) \/
        (signalsNo o = false /\ (forall y, In y group -> signalsYes y = false) /\
         forall y, In y pre -> signalsNo y = true))) /\
  (chooseRadio group = None <->
   forall o, In o group -> signalsYes o = false /\ signalsNo o = true) /\
  (forall o, signalsYes o
             = (includes (toLowerCase (opt_value o)) "yes" ||
                includes (toLowerCase (opt_value o)) "true" ||
                (opt_value o =? "1") ||
                includes (toLowerCase (opt_text o)) "yes" ||
                includes (toLowerCase (opt_text o)) "true")) /\
  (forall o, signalsNo o
             = (includes (toLowerCase (opt_value o)) "no" ||
                includes (toLowerCase (opt_value o)) "false" ||
                (opt_value o =? "0") ||
                includes (toLowerCase (opt_text o)) "no" ||
                includes (toLowerCase (opt_text o)) "false")).
Proof.
  split; [|split; [|split]].
  - intros o. unfold chooseRadio. destruct (find signalsYes group) as [y|] eqn:Hy.
    + intros H. injection H as <-.
      destruct (find_first _ _ _ Hy) as [pre [post [Hg [Hyes Hpre]]]].
      exists pre, post. split; [exact Hg|]. left. auto.
    + intros Hn. destruct (find_first _ _ _ Hn) as [pre [post [Hg [Hno Hpre]]]].
      exists pre, post. split; [exact Hg|]. right.
      split; [now apply negb_true_iff in Hno|].
      split; [intros y Hin; exact (find_none _ _ Hy y Hin)|].
      intros y Hin. apply Hpre in Hin. now apply negb_false_iff in Hin.
  - apply chooseRadio_none.
  - intros o. unfold signalsYes.
    destruct (opt_value o =? "Yes") eqn:H1.
    { apply String.eqb_eq in H1. rewrite H1. reflexivity. }
    destruct (opt_value o =? "YES") eqn:H2.
    { apply String.eqb_eq in H2. rewrite H2. reflexivity. }
    now rewrite !orb_false_r.
  - intros o. unfold signalsNo.
    destruct (opt_value o =? "No") eqn:H1.
    { apply String.eqb_eq in H1. rewrite H1. reflexivity. }
    destruct (opt_value o =? "NO") eqn:H2.
    { apply String.eqb_eq in H2. rewrite H2. reflexivity. }
    now rewrite !orb_false_r.
Qed.

Lemma chooseOption_facts (options : list Choice) :
  (chooseOption options = None <-> options = []) /\
  (forall o, chooseOption options = Some o -> In o options) /\
  (forall o, chooseOption options = Some o ->
     (optionYes o = true /\
      exists pre post, options = (pre ++ o :: post)%list /\
                       forall y, In y pre -> optionYes y = false) \/
     ((forall y, In y options -> optionYes y = false) /\ hd_error options = Some o)) /\
  (options <> [] ->
   (forall o, In o options -> signalsYes o = false /\ signalsNo o = true) ->
   (forall o, In o options -> optionYes o = false) ->
   chooseRadio options = None /\ chooseOption options = hd_error options).
Proof.
  unfold chooseOption. split; [|split; [|split]].
  - destruct options as [|a r]; [tauto|].
    destruct (find optionYes (a :: r)); split; discriminate.
  - intros o. destruct options as [|a r]; [discriminate|].
    destruct (find optionYes (a :: r)) as [y|] eqn:Hy; intros H; injection H as <-.
    + now apply find_some in Hy.
    + now left.
  - intros o. destruct options as [|a r]; [discriminate|].
    destruct (find optionYes (a :: r)) as [y|] eqn:Hy; intros H; injection H as <-.
    + left. destruct (find_first _ _ _ Hy) as [pre [post [Hg [Hyes Hpre]]]]. eauto.
    + right. split; [intros y Hin; exact (find_none _ _ Hy y Hin) | reflexivity].
  - intros Hne Hneg Hopt. split.
    + apply chooseRadio_none. exact Hneg.
    + destruct options as [|a r]; [now elim Hne|].
      destruct (find optionYes (a :: r)) as [y|] eqn:Hy; [|reflexivity].
      apply find_some in Hy. destruct Hy as [Hin Hyes].
      rewrite (Hopt y Hin) in Hyes. discriminate.
Qed.

(** X18. The option clicked in a dropdown. The dropdown step handles a
    select only when it has no [name] or a [name] without the words "name",
    "email", "phone" and "address" in it. Of such a select with options it
    clicks one option when it comes to it: the first yes option when there
    is one, else the first option, "No" option or not; so where every
    option is a "No" option a radio group is left alone and such a dropdown
    is set to its first option. A select with one of the four words in its
    [name], or without options, is left alone by the step. *)
Theorem dropdownClick_spec (name : option string) (options : list Choice) :
  (dropdownMatched name = true <->
   forall n, name = Some n ->
             ~ Occurs "name" n /\ ~ Occurs "email" n /\
             ~ Occurs "phone" n /\ ~ Occurs "address" n) /\
  (dropdownClick name options = None <->
   dropdownMatched name = false \/ options = []) /\
  (forall o, dropdownClick name options = Some o ->
     In o options /\
     ((optionYes o = true /\
       exists pre post, options = (pre ++ o :: post)%list /\
                        forall y, In y pre -> optionYes y = false) \/
      ((forall y, In y options -> optionYes y = false) /\
       hd_error options = Some o))) /\
  (dropdownMatched name = true -> options <> [] ->
   (forall o, In o options -> signalsYes o = false /\ signalsNo o = true) ->
   (forall o, In o options -> optionYes o = false) ->
   chooseRadio options = None /\ dropdownClick name options = hd_error options).
Proof.
  destruct (chooseOption_facts options) as [Hnone [Hin [Hsome Hneg]]].
  split; [|split; [|split]].
  - unfold dropdownMatched. destruct name as [n|]; [|split; [discriminate | reflexivity]].
    rewrite !andb_true_iff, !negb_true_iff, <- !not_true_iff_false, !includes_Occurs.
    split.
    + intros [[[H1 H2] H3] H4] m Hm. injection Hm as <-. auto.
    + intros H. destruct (H n eq_refl) as [H1 [H2 [H3 H4]]]. auto.
  - unfold dropdownClick. destruct (dropdownMatched name).
    + rewrite Hnone. split; [auto | intros [H|H]; [discriminate | exact H]].
    + split; auto.
  - unfold dropdownClick. destruct (dropdownMatched name); [|discriminate].
    intros o Ho. split; [now apply Hin | now apply Hsome].
  - intros Hm Hne Hno Hopt. unfold dropdownClick. rewrite Hm. now apply Hneg.
Qed.

Lemma chooseRadio_spec_witness : chooseRadio negative_options = None.
Proof.
  apply (proj1 (proj2 (chooseRadio_spec negative_options))).
  intros o [<-|[<-|[]]]; split; vm_compute; reflexivity.
Defined.

Lemma dropdownClick_spec_witness :
  chooseRadio negative_options = None /\
  dropdownClick (Some "relocation") negative_options = hd_error negative_options.
Proof.
  apply (proj2 (proj2 (proj2 (dropdownClick_spec (Some "relocation") negative_options)))).
  - reflexivity.
  - discriminate.
  - intros o [<-|[<-|[]]]; split; vm_compute; reflexivity.
  - intros o [<-|[<-|[]]]; vm_compute; reflexivity.
Defined.

(** A select named [phone_type] is not handled by the dropdown step, and
    one without options is not either. *)
Example dropdownClick_phone_type :
  dropdownClick (Some "phone_type") negative_options = None /\
  dropdownClick None [] = None.
Proof. split; reflexivity. Qed.

Lemma core_keyword (text k c pre post : string) :
  k = (pre ++ c ++ post)%string -> In c coreAuthKeywords ->
  includes text k = true ->
  exists k', In k' coreAuthKeywords /\ includes text k' = true.
Proof.
  intros Hk Hc Hin. exists c. split; [exact Hc|].
  apply (includes_trans text c k); [exists pre, post; exact Hk | exact Hin].
Qed.

Lemma isAuthQuestion_core (text : string) :
  isAuthQuestion text = existsb (fun keyword => includes text keyword) coreAuthKeywords.
Proof.
  unfold isAuthQuestion. apply Bool.eq_iff_eq_true. rewrite !existsb_exists.
  split; intros [k [Hin Hk]].
  - unfold authKeywords in Hin. simpl in Hin.
    destruct Hin as [<-|[<-|[<-|[<-|[<-|[<-|[<-|[<-|[<-|[<-|[<-|[<-|[<-|[<-|[<-|[]]]]]]]]]]]]]]]].
    + refine (core_keyword text _ "authorized" EmptyString EmptyString
                eq_refl _ Hk); simpl; tauto.
    + refine (core_keyword text _ "authorization" EmptyString EmptyString
                eq_refl _ Hk); simpl; tauto.
    + refine (core_keyword text _ "legal" EmptyString "ly"
                eq_refl _ Hk); simpl; tauto.
    + refine (core_keyword text _ "legal" EmptyString EmptyString
                eq_refl _ Hk); simpl; tauto.
    + refine (core_keyword text _ "sponsor" EmptyString "ship"
                eq_refl _ Hk); simpl; tauto.
    + refine (core_keyword text _ "sponsor" EmptyString EmptyString
                eq_refl _ Hk); simpl; tauto.
    + refine (core_keyword text _ "work permit" EmptyString EmptyString
                eq_refl _ Hk); simpl; tauto.
    + refine (core_keyword text _ "visa" EmptyString EmptyString
                eq_refl _ Hk); simpl; tauto.
    + refine (core_keyword text _ "citizenship" EmptyString EmptyString
                eq_refl _ Hk); simpl; tauto.
    + refine (core_keyword text _ "eligible" EmptyString EmptyString
                eq_refl _ Hk); simpl; tauto.
    + refine (core_keyword text _ "eligibility" EmptyString EmptyString
                eq_refl _ Hk); simpl; tauto.
    + refine (core_keyword text _ "authorization" "work " EmptyString
                eq_refl _ Hk); simpl; tauto.
    + refine (core_keyword text _ "authorization" "employment " EmptyString
                eq_refl _ Hk); simpl; tauto.
    + refine (core_keyword text _ "legal" EmptyString "ly authorized to work"
                eq_refl _ Hk); simpl; tauto.
    + refine (core_keyword text _ "sponsor" "without " "ship"
                eq_refl _ Hk); simpl; tauto.
  - exists k. split; [|exact Hk]. unfold coreAuthKeywords in Hin. simpl in Hin.
    unfold authKeywords. simpl. tauto.
Qed.

(** X19. The authorization block. A control counts as part of an authorization
    question exactly when the text around it has one of nine keywords; the
    other six of the list contain one of those. For a radio of such a
    question, when the text around it has "yes" or "true" in it, as it has
    where the label of the "Yes" radio is part of that text, the radio is
    clicked whatever its own value is. *)
Theorem authorization_block (c : Context) :
  isAuthQuestion (ctx_text c)
  = existsb (fun keyword => includes (ctx_text c) keyword) coreAuthKeywords /\
  (includes (toLowerCase (ctx_text c)) "yes" = true \/
   includes (toLowerCase (ctx_text c)) "true" = true ->
   forall value,
     authRadioClicked {| ctx_text := ctx_text c; ctx_tagName := ctx_tagName c;
                         ctx_type := ctx_type c; ctx_value := value |}
     = existsb (fun keyword => includes (ctx_text c) keyword) coreAuthKeywords &&
       ((ctx_tagName c =? "input") && (ctx_type c =? "radio"))).
Proof.
  split; [apply isAuthQuestion_core|].
  intros Hyes value. unfold authRadioClicked. simpl.
  rewrite isAuthQuestion_core.
  destruct Hyes as [-> | ->]; rewrite ?orb_true_r; now rewrite andb_true_r.
Qed.

Lemma authorization_block_witness :
  authRadioClicked {| ctx_text := ctx_text sponsorship_question;
                      ctx_tagName := ctx_tagName sponsorship_question;
                      ctx_type := ctx_type sponsorship_question;
                      ctx_value := "no" |}
  = existsb (fun keyword => includes (ctx_text sponsorship_question) keyword)
      coreAuthKeywords &&
    ((ctx_tagName sponsorship_question =? "input") &&
     (ctx_type sponsorship_question =? "radio")).
Proof.
  apply (proj2 (authorization_block sponsorship_question)).
  left. vm_compute. reflexivity.
Defined.

End HeuristicsMore.

(** ** Application statistics *)

Module StatsMore.
Import Stats Scenario Cases.

Lemma insert_desc_In (r x : StatRow) (l : list StatRow) :
  In x (insert_desc r l) <-> x = r \/ In x l.
Proof.
  induction l as [|a l IH]; simpl.
  - intuition.
  - destruct (applied_at a <=? applied_at r)%N; simpl; [intuition|].
    rewrite IH. intuition.
Qed.

Lemma sort_desc_In (x : StatRow) (l : list StatRow) : In x (sort_desc l) <-> In x l.
Proof.
  induction l as [|a l IH]; simpl; [tauto|].
  rewrite insert_desc_In, IH. intuition.
Qed.

(** The head of the sorted rows is a latest row. *)
Lemma sort_desc_head (l : list StatRow) (h : StatRow) :
  hd_error (sort_desc l) = Some h ->
  In h l /\ forall r, In r l -> (applied_at r <= applied_at h)%N.
Proof.
  revert h. induction l as [|a l IH]; simpl; [discriminate|].
  intros h. destruct (sort_desc l) as [|x xs] eqn:Hs; simpl.
  - intros H. injection H as <-.
    assert (l = []) as ->.
    { destruct l as [|y l']; [reflexivity|].
      assert (In y (sort_desc (y :: l'))) as Hy by (apply sort_desc_In; now left).
      rewrite Hs in Hy. destruct Hy. }
    split; [now left|]. intros r [<-|[]]. lia.
  - destruct (IH x eq_refl) as [Hx Hmax].
    destruct (applied_at x <=? applied_at a)%N eqn:Hle; simpl; intros H; injection H as <-.
    + apply N.leb_le in Hle. split; [now left|].
      intros r [<-|Hr]; [lia|]. specialize (Hmax r Hr). lia.
    + apply N.leb_gt in Hle. split; [now right|].
      intros r [<-|Hr]; [lia | now apply Hmax].
Qed.

Lemma sort_desc_nonempty (a : StatRow) (l : list StatRow) : sort_desc (a :: l) <> [].
Proof.
  intros H. assert (In a (sort_desc (a :: l))) as Ha by (apply sort_desc_In; now left).
  rewrite H in Ha. destruct Ha.
Qed.

Lemma counts_le (l : list StatRow) :
  List.length (filter (has_status applied) l) + List.length (filter (has_status error) l)
  <= List.length l.
Proof.
  induction l as [|a l IH]; simpl; [lia|].
  unfold has_status. destruct (row_status a); simpl; fold (has_status applied);
    fold (has_status error); lia.
Qed.

Lemma counts_eq (l : list StatRow) :
  Forall (fun r => row_status r = applied \/ row_status r = error) l ->
  List.length (filter (has_status applied) l) + List.length (filter (has_status error) l)
  = List.length l.
Proof.
  induction 1 as [|a l Ha _ IH]; simpl; [reflexivity|].
  unfold has_status. destruct Ha as [-> | ->]; simpl; fold (has_status applied);
    fold (has_status error); lia.
Qed.

(** X20. The statistics of a user. The store's error is thrown on. Otherwise
    the applications counted as successful and as errors are together at
    most the total, and exactly the total when every row is [applied] or
    [error]; [last_applied] is missing exactly when the user has no row,
    and is otherwise the time of one of the rows, the latest of them. *)
Theorem getUserApplicationStats_consistent (reply : Res (list StatRow)) :
  (forall e, reply = Throw e -> getUserApplicationStats reply = Throw e) /\
  (forall data, reply = Ok data ->
     exists s, getUserApplicationStats reply = Ok s /\
       total_applied s = List.length data /\
       successful s + errors s <= total_applied s /\
       (Forall (fun r => row_status r = applied \/ row_status r = error) data ->
        successful s + errors s = total_applied s) /\
       (last_applied s = None <-> data = []) /\
       (forall t, last_applied s = Some t ->
          (exists r, In r data /\ applied_at r = t) /\
          forall r, In r data -> (applied_at r <= t)%N)).
Proof.
  split; [intros e ->; reflexivity|].
  intros data ->. exists (stats_of data). split; [reflexivity|].
  split; [reflexivity|]. split; [apply counts_le|].
  split; [apply counts_eq|]. simpl. split.
  - destruct data as [|a l]; [tauto|]. split; [|discriminate].
    destruct (sort_desc (a :: l)) as [|x xs] eqn:Hs; [|discriminate].
    now elim (sort_desc_nonempty a l).
  - intros t. destruct data as [|a l]; [discriminate|].
    destruct (hd_error (sort_desc (a :: l))) as [h|] eqn:Hh; [|discriminate].
    simpl. intros H. injection H as <-.
    destruct (sort_desc_head _ _ Hh) as [Hin Hmax]. split; [eauto | exact Hmax].
Qed.

Lemma getUserApplicationStats_consistent_witness :
  exists s, getUserApplicationStats (Ok some_rows) = Ok s /\
            successful s + errors s = total_applied s /\
            last_applied s = Some 1700000500000%N.
Proof.
  destruct (proj2 (getUserApplicationStats_consistent (Ok some_rows)) some_rows eq_refl)
    as [s [Hs [_ [_ [Heq _]]]]].
  exists s. split; [exact Hs|]. split.
  - apply Heq. unfold some_rows.
    repeat (apply Forall_cons; [simpl; auto|]). apply Forall_nil.
  - injection Hs as <-. vm_compute. reflexivity.
Defined.

End StatsMore.

(** ** The job run and the command line *)

Module RunMore.
Import JS Filter Discovery Store Apply Measure Run ApplyFacts Scenario Cases.

Lemma split_no_equals (v : string) : no_equals v = true -> split "=" v = [v].
Proof.
  induction v as [|c r IH]; simpl; [reflexivity|].
  destruct (Ascii.eqb c "="); simpl; [discriminate|].
  intros H. now rewrite (IH H).
Qed.

Lemma split_at_equals (v rest : string) :
  no_equals v = true ->
  split "=" (v ++ "=" ++ rest) = v :: split "=" rest.
Proof.
  induction v as [|c r IH]; simpl; [reflexivity|].
  destruct (Ascii.eqb c "="); simpl; [discriminate|].
  intros H. simpl in IH. now rewrite (IH H).
Qed.

Lemma find_skip {A} (p : A -> bool) (pre : list A) (a : A) (post : list A) :
  (forall x, In x pre -> p x = false) -> p a = true ->
  find p (pre ++ a :: post) = Some a.
Proof.
  induction pre as [|x pre IH]; simpl; intros Hpre Ha.
  - now rewrite Ha.
  - rewrite (Hpre x (or_introl eq_refl)). apply IH; auto.
Qed.

Lemma find_all_false {A} (p : A -> bool) (l : list A) :
  (forall x, In x l -> p x = false) -> find p l = None.
Proof.
  induction l as [|x l IH]; simpl; intros H; [reflexivity|].
  rewrite (H x (or_introl eq_refl)). apply IH. auto.
Qed.

Lemma userArg_found (pre post : list string) (v : string) :
  (forall a, In a pre -> String.prefix "--user=" a = false) ->
  userArg (pre ++ ("--user=" ++ v) :: post) = hd_error (split "=" v).
Proof.
  intros Hpre. unfold userArg.
  rewrite (find_skip (fun arg => String.prefix "--user=" arg) pre ("--user=" ++ v) post
             Hpre
             (proj2 (JSFacts.prefix_app "--user=" _) (ex_intro _ v eq_refl))).
  reflexivity.
Qed.

Section Job.

Variable env : Env.
Variable host : Host.
Variable fillApplicationForm : UserConfig -> Prog Browser unit.

Lemma processUser_rows (userConfig : UserConfig) (w : World) :
  exists r w' rows,
    processUser env host fillApplicationForm userConfig w = (r, w') /\
    ledger w' = (ledger w ++ rows)%list /\
    List.length rows <= 10 /\
    Forall (fun row => user_id row = id userConfig /\
                       (status row = applied \/ status row = error)) rows /\
    (UniqueKeys (ledger w) -> UniqueKeys (ledger w')).
Proof.
  assert (forall (r : Res unit) w1, ledger w1 = ledger w ->
            exists r' w' rows,
              (r, w1) = (r', w') /\ ledger w' = (ledger w ++ rows)%list /\
              List.length rows <= 10 /\
              Forall (fun row => user_id row = id userConfig /\
                                 (status row = applied \/ status row = error)) rows /\
              (UniqueKeys (ledger w) -> UniqueKeys (ledger w'))) as Hnone.
  { intros r w1 Hl. exists r, w1, []. rewrite app_nil_r.
    repeat split; auto; [simpl; lia | now rewrite Hl]. }
  unfold processUser, try_catch, bind at 1.
  pose proof (liftB_ledger (searchJobs env userConfig) w) as Hl.
  destruct (liftB (searchJobs env userConfig) w) as [[jobs|e] w1]; simpl in Hl;
    [|unfold throw; now apply Hnone].
  destruct jobs as [|j js]; [unfold ret; now apply Hnone|].
  destruct (filterJobs (j :: js) userConfig) as [|f fs]; [unfold ret; now apply Hnone|].
  unfold bind at 1.
  destruct (LoopMore.applyAll_rows env fillApplicationForm (slice0 10 (f :: fs)) userConfig
              (0, 0) w1) as [c [w2 [rows [Hrun [Hl2 [Hlen [Hrows _]]]]]]].
  pose proof (LoopMore.applyAll_unique env fillApplicationForm (slice0 10 (f :: fs))
                userConfig (0, 0) w1) as Hu.
  rewrite Hrun in Hu |- *. simpl snd in Hu.
  assert (List.length rows <= 10) as Hten.
  { unfold slice0 in Hlen. rewrite length_firstn in Hlen. lia. }
  assert (Forall (fun row => user_id row = id userConfig /\
                             (status row = applied \/ status row = error)) rows) as Hr.
  { eapply Forall_impl; [|exact Hrows]. simpl. intros a [? [_ ?]]. auto. }
  unfold updateLastAutoApplied.
  destruct (touch_fault host (id userConfig)) as [e|];
    [exists (Throw e) | exists (Ok tt)]; exists (store_tick env w2), rows; simpl;
    (split; [reflexivity|]); (split; [now rewrite Hl2, Hl|]);
    (split; [exact Hten|]); (split; [exact Hr|]);
    intros Huq; apply Hu; now rewrite Hl.
Qed.

Lemma forEachUser_rows (users : list UserRow) (w : World) :
  exists w' rows,
    forEachUser env host fillApplicationForm users w = (Ok tt, w') /\
    ledger w' = (ledger w ++ rows)%list /\
    List.length rows <= 10 * List.length users /\
    Forall (fun row => (exists user, In user users /\ user_id row = id (config user)) /\
                       (status row = applied \/ status row = error)) rows /\
    (UniqueKeys (ledger w) -> UniqueKeys (ledger w')).
Proof.
  revert w. induction users as [|user rest IH]; intros w.
  - exists w, []. simpl. rewrite app_nil_r. repeat split; auto.
  - simpl forEachUser. unfold bind at 1, try_catch.
    destruct (processUser_rows (config user) w) as [r [w1 [rows1 [Hrun [Hl1 [Hlen1 [Hr1 Hu1]]]]]]].
    rewrite Hrun.
    destruct (IH w1) as [w2 [rows2 [Hrun2 [Hl2 [Hlen2 [Hr2 Hu2]]]]]].
    exists w2, (rows1 ++ rows2)%list.
    split; [destruct r; unfold ret; exact Hrun2|].
    split; [now rewrite Hl2, Hl1, app_assoc|].
    split; [rewrite length_app; simpl List.length; lia|].
    split; [|auto].
    apply Forall_app. split.
    + eapply Forall_impl; [|exact Hr1]. simpl. intros a [Hid Hst].
      split; [exists user; split; [now left | exact Hid] | exact Hst].
    + eapply Forall_impl; [|exact Hr2]. simpl. intros a [[u [Hin Hid]] Hst].
      split; [exists u; split; [now right | exact Hid] | exact Hst].
Qed.

(** The launch of the browser followed by the loop over the users. *)
Lemma launch_rows (users : list UserRow) (w : World) :
  exists r w' rows,
    bind (liftB (initialize host))
         (fun _ => forEachUser env host fillApplicationForm users) w = (r, w') /\
    ledger w' = (ledger w ++ rows)%list /\
    List.length rows <= 10 * List.length users /\
    Forall (fun row => (exists user, In user users /\ user_id row = id (config user)) /\
                       (status row = applied \/ status row = error)) rows /\
    (UniqueKeys (ledger w) -> UniqueKeys (ledger w')) /\
    (launch_fault host <> None -> rows = []).
Proof.
  unfold bind, liftB, initialize. destruct (launch_fault host) as [e|].
  - exists (Throw e), {| browser := browser w; ledger := ledger w |}, [].
    simpl. rewrite app_nil_r. repeat split; auto; lia.
  - destruct (forEachUser_rows users
                {| browser := {| page := true; trace := trace (browser w);
                                 clock := clock (browser w) |};
                   ledger := ledger w |})
      as [w' [rows [Hrun [Hl [Hlen [Hr Hu]]]]]].
    exists (Ok tt), w', rows. simpl in *. repeat split; auto. congruence.
Qed.

Lemma cleanup_world (w : World) :
  exists w', liftB (cleanup env) w = (Ok tt, w') /\ ledger w' = ledger w /\
             ((forall tr e, respond env tr ClosePage <> Fails e) ->
              page (browser w') = false) /\
             (page (browser w) = false -> browser w' = browser w).
Proof.
  unfold liftB, cleanup. destruct (page (browser w)) eqn:Hp.
  - destruct (respond env (trace (browser w)) ClosePage) eqn:Hr;
      eexists; (split; [reflexivity|]); simpl; (split; [reflexivity|]);
      split; try discriminate; try reflexivity.
    intros H. now elim (H _ _ Hr).
  - eexists. split; [reflexivity|]. simpl. auto.
Qed.


Lemma selectUsers_sound (i : string) (users selected : list UserRow) :
  i <> EmptyString ->
  selectUsers (Some i) users = Some selected ->
  forall user, In user selected <-> In user users /\ auth_user_id user = i.
Proof.
  intros Hi. unfold selectUsers, truthy. apply String.eqb_neq in Hi. rewrite Hi. simpl.
  destruct (filter (fun user => auth_user_id user =? i) users) as [|u us] eqn:Hf;
    [discriminate|].
  intros H. injection H as <-. intros user. rewrite <- Hf, filter_In.
  now rewrite String.eqb_eq.
Qed.

Lemma selectUsers_none (i : string) (users : list UserRow) :
  i <> EmptyString ->
  (forall user, In user users -> auth_user_id user <> i) ->
  selectUsers (Some i) users = None.
Proof.
  intros Hi Hno. unfold selectUsers, truthy. apply String.eqb_neq in Hi. rewrite Hi. simpl.
  destruct (filter (fun user => auth_user_id user =? i) users) as [|u us] eqn:Hf;
    [reflexivity|].
  assert (In u (filter (fun user => auth_user_id user =? i) users)) as Hu
      by (rewrite Hf; now left).
  apply filter_In in Hu. destruct Hu as [Hin Heq]. apply String.eqb_eq in Heq.
  now elim (Hno u Hin).
Qed.

(** X22. A manual run never throws and only appends to the ledger, keeping it
    free of two rows for one user and address. With a user given, it
    works for the users whose [user_id] column is the given one, and the
    rows it writes carry the [id] column of those users; when there is no
    such user it writes nothing and does not touch the page. *)
Theorem runManualJob_selects (userId : option string) (w : World) :
  exists w' rows,
    runManualJob env host fillApplicationForm userId w = (Ok tt, w') /\
    ledger w' = (ledger w ++ rows)%list /\
    (UniqueKeys (ledger w) -> UniqueKeys (ledger w')) /\
    (forall i, userId = Some i -> i <> EmptyString ->
       Forall (fun row => exists user, In user (users_of host) /\
                                       auth_user_id user = i /\
                                       user_id row = id (config user)) rows /\
       ((forall user, In user (users_of host) -> auth_user_id user <> i) ->
        rows = [] /\
        (page (browser w) = false -> trace (browser w') = trace (browser w)))).
Proof.
  assert (forall (r : Res unit) w1,
            ledger w1 = ledger w ->
            (page (browser w) = false -> page (browser w1) = false /\
                                         trace (browser w1) = trace (browser w)) ->
            exists w' rows,
              finally (fun s => match r with
                                | Ok a => (Ok a, s)
                                | Throw e => (Ok tt, s)
                                end) (liftB (cleanup env)) w1 = (Ok tt, w') /\
              ledger w' = (ledger w ++ rows)%list /\
              (UniqueKeys (ledger w) -> UniqueKeys (ledger w')) /\
              rows = [] /\
              (page (browser w) = false -> trace (browser w') = trace (browser w)))
    as Hquiet.
  { intros r w1 Hl Hp. destruct (cleanup_world w1) as [w2 [Hc [Hl2 [_ Hsame]]]].
    exists w2, []. unfold finally. rewrite app_nil_r.
    split; [destruct r as [[]|e]; rewrite Hc; reflexivity|].
    split; [congruence|]. split; [rewrite Hl2, Hl; auto|]. split; [reflexivity|].
    intros Hpage. destruct (Hp Hpage) as [Hp1 Ht1]. rewrite (Hsame Hp1). exact Ht1. }
  unfold runManualJob.
  unfold finally at 1, try_catch, bind at 1, getAutoApplyUsers, users_of.
  destruct (users_reply host) as [users|e].
  2: { destruct (Hquiet (Throw e) (store_tick env w) eq_refl (fun H => conj H eq_refl))
         as [w' [rows [Hrun [Hl [Hu [-> Ht]]]]]].
       unfold finally in Hrun. exists w', []. split; [exact Hrun|].
       split; [exact Hl|]. split; [exact Hu|]. intros i _ _. split; [constructor | auto]. }
  destruct (selectUsers userId users) as [[|user rest]|] eqn:Hsel.
  - destruct (Hquiet (Ok tt) (store_tick env w) eq_refl (fun H => conj H eq_refl))
      as [w' [rows [Hrun [Hl [Hu [-> Ht]]]]]].
    unfold finally in Hrun. exists w', []. split; [exact Hrun|].
    split; [exact Hl|]. split; [exact Hu|]. intros i _ _. split; [constructor | auto].
  - destruct (launch_rows (user :: rest) (store_tick env w))
      as [r [w1 [rows [Hrun [Hl [_ [Hr [Hu _]]]]]]]].
    unfold bind in Hrun |- *. rewrite Hrun.
    destruct (cleanup_world w1) as [w2 [Hc [Hl2 _]]].
    exists w2, rows.
    split; [destruct r as [[]|e]; unfold ret; rewrite Hc; reflexivity|].
    split; [now rewrite Hl2|]. split; [rewrite Hl2; exact Hu|].
    intros i -> Hi. pose proof (selectUsers_sound i users _ Hi Hsel) as Hs. split.
    + eapply Forall_impl; [|exact Hr]. simpl. intros a [[u [Hin Hid]] _].
      apply Hs in Hin. destruct Hin as [Hin Hau]. eauto.
    + intros Hno. rewrite (selectUsers_none i users Hi Hno) in Hsel. discriminate Hsel.
  - destruct (Hquiet (Ok tt) (store_tick env w) eq_refl (fun H => conj H eq_refl))
      as [w' [rows [Hrun [Hl [Hu [-> Ht]]]]]].
    unfold finally in Hrun. exists w', []. split; [exact Hrun|].
    split; [exact Hl|]. split; [exact Hu|]. intros i _ _. split; [constructor | auto].
Qed.

(** X23. The user named on the command line. The first argument that starts
    with [--user=] is read up to the next [=]: [--user=u] names [u], and so
    does [--user=u=more]. Without such an argument no user is named; and
    [--user=] with nothing behind it names the empty user, for which a
    manual run works for all users, as it does with no user named. *)
Theorem userArg_spec (pre post : list string) (v : string) :
  (forall a, In a pre -> String.prefix "--user=" a = false) ->
  no_equals v = true ->
  userArg (pre ++ ("--user=" ++ v) :: post) = Some v /\
  (forall rest, userArg (pre ++ ("--user=" ++ v ++ "=" ++ rest) :: post) = Some v) /\
  userArg pre = None /\
  (forall w, runManualJob env host fillApplicationForm
               (userArg (pre ++ "--user=" :: post)) w
             = runManualJob env host fillApplicationForm None w).
Proof.
  intros Hpre Hv. split; [|split; [|split]].
  - rewrite (userArg_found pre post v Hpre), (split_no_equals v Hv). reflexivity.
  - intros rest. rewrite (userArg_found pre post _ Hpre), (split_at_equals v rest Hv).
    reflexivity.
  - unfold userArg.
    now rewrite (find_all_false (fun arg => String.prefix "--user=" arg) pre Hpre).
  - intros w. change "--user=" with ("--user=" ++ EmptyString) at 1.
    rewrite (userArg_found pre post EmptyString Hpre). reflexivity.
Qed.

End Job.


Lemma runManualJob_selects_witness :
  exists w' rows,
    runManualJob steady_env two_users_host (phone_form steady_env) (Some "auth-7")
      (world_of []) = (Ok tt, w') /\
    ledger w' = (ledger (world_of []) ++ rows)%list /\
    Forall (fun row => exists user, In user (users_of two_users_host) /\
                                    auth_user_id user = "auth-7" /\
                                    user_id row = id (config user)) rows.
Proof.
  destruct (runManualJob_selects steady_env two_users_host (phone_form steady_env)
              (Some "auth-7") (world_of [])) as [w' [rows [Hrun [Hl [_ Hsel]]]]].
  exists w', rows. split; [exact Hrun|]. split; [exact Hl|].
  apply (Hsel "auth-7" eq_refl). discriminate.
Defined.

Lemma userArg_spec_witness :
  userArg ["--manual"; "--user=auth-7"] = Some "auth-7" /\
  userArg ["--manual"; "--user=auth-7=x"] = Some "auth-7".
Proof.
  destruct (userArg_spec steady_env two_users_host (phone_form steady_env)
              ["--manual"] [] "auth-7") as [H1 [H2 _]].
  - intros a [<-|[]]. reflexivity.
  - reflexivity.
  - split; [exact H1 | exact (H2 "x")].
Defined.

End RunMore.
